(** * Seam carving: a shallow embedding of [seam_carving.py]

    The development follows the Python module function by function.
    NumPy arrays are nested lists together with a [dtype] tag; Python
    exceptions are the [Raise] results of a small error monad; loops are
    folds that pass the mutated arrays along explicitly.

    Number model.  Samples, energies and costs are exact rationals; the
    only non-finite float the module ever creates is the [+inf] padding of
    the cost accumulators, which is the extra constructor of [xfloat].
    Rounding of IEEE arithmetic is not modelled. *)

From Stdlib Require Import String Bool Arith ZArith QArith Qabs Qround Lia Lqa List.
Import ListNotations.
Local Close Scope Q_scope.
Local Open Scope nat_scope.

Set Implicit Arguments.

(** ** Exceptions *)

Inductive exn : Type :=
| AssertionError (msg : string)
| IndexError
| ValueError.

Inductive result (A : Type) : Type :=
| Ok (a : A)
| Raise (e : exn).

Arguments Ok {A} a.
Arguments Raise {A} e.

Definition bind {A B : Type} (r : result A) (k : A -> result B) : result B :=
  match r with
  | Ok a => k a
  | Raise e => Raise e
  end.

Notation "x <- r ;; k" := (bind r (fun x => k))
  (at level 61, r at next level, right associativity).
Notation "' p <- r ;; k" := (bind r (fun x => let p := x in k))
  (at level 61, p pattern, r at next level, right associativity).

(** [assert cond, msg] *)
Definition py_assert (cond : bool) (msg : string) : result unit :=
  if cond then Ok tt else Raise (AssertionError msg).

(** A [for] loop over the items [xs] that threads the state [s]. *)
Fixpoint for_each {S X : Type} (xs : list X) (body : X -> S -> result S) (s : S)
  : result S :=
  match xs with
  | [] => Ok s
  | x :: xs' => s' <- body x s ;; for_each xs' body s'
  end.

(** [range(n)] for a Python int [n] (empty when [n <= 0]). *)
Definition range (n : Z) : list nat := seq 0 (Z.to_nat n).

(** ** Python indexing and slicing *)

(** [l[z]]: negative indices count from the end; out of range raises. *)
Definition py_index (n : nat) (z : Z) : result nat :=
  if ((0 <=? z) && (z <? Z.of_nat n))%Z then Ok (Z.to_nat z)
  else if ((- Z.of_nat n <=? z) && (z <? 0))%Z then Ok (Z.to_nat (z + Z.of_nat n))
  else Raise IndexError.

Definition item {A : Type} (l : list A) (z : Z) : result A :=
  i <- py_index (length l) z ;;
  match nth_error l i with
  | Some a => Ok a
  | None => Raise IndexError
  end.

(** A slice bound is clipped into [0, n], after adding [n] when negative. *)
Definition slice_bound (n : nat) (z : Z) : nat :=
  if (z <? 0)%Z then Z.to_nat (Z.max 0 (z + Z.of_nat n))
  else Nat.min n (Z.to_nat z).

(** [l[a:b]] *)
Definition slice {A : Type} (a b : Z) (l : list A) : list A :=
  let lo := slice_bound (length l) a in
  let hi := slice_bound (length l) b in
  firstn (hi - lo) (skipn lo l).

(** [l[a:b] = rhs] along one axis of an array: the shapes must agree, or
    [rhs] has a single item that is broadcast. *)
Definition assign_slice {A : Type} (a b : Z) (l rhs : list A) : result (list A) :=
  let lo := slice_bound (length l) a in
  let hi := slice_bound (length l) b in
  let len := hi - lo in
  if length rhs =? len then Ok (firstn lo l ++ rhs ++ skipn (lo + len) l)
  else match rhs with
       | [x] => Ok (firstn lo l ++ repeat x len ++ skipn (lo + len) l)
       | _ => Raise ValueError
       end.

(** [l[i] = x] for an index in range (the loops below only write there). *)
Fixpoint upd {A : Type} (i : nat) (x : A) (l : list A) : list A :=
  match l, i with
  | [], _ => []
  | _ :: t, O => x :: t
  | h :: t, S i' => h :: upd i' x t
  end.

(** ** Arrays *)

Inductive dtype : Type := uint8 | int64 | float64 | bool8.

Definition dtype_eqb (a b : dtype) : bool :=
  match a, b with
  | uint8, uint8 | int64, int64 | float64, float64 | bool8, bool8 => true
  | _, _ => false
  end.

(** The contents of an array of rank 0 to 3.  The nested lists determine
    the shape as long as no axis is empty. *)
Inductive tensor : Type :=
| T0 (x : Q)
| T1 (v : list Q)
| T2 (m : list (list Q))
| T3 (c : list (list (list Q))).

Record ndarray : Type := mkarr { dtype_of : dtype; tensor_of : tensor }.

Definition shape (t : tensor) : list nat :=
  match t with
  | T0 _ => []
  | T1 v => [length v]
  | T2 m => [length m; length (hd [] m)]
  | T3 c => [length c; length (hd [] c); length (hd [] (hd [] c))]
  end.

(** Rectangular grids. *)
Definition wf2 {A : Type} (H W : nat) (m : list (list A)) : Prop :=
  length m = H /\ Forall (fun r => length r = W) m.

Definition wf3 {A : Type} (H W C : nat) (c : list (list (list A))) : Prop :=
  length c = H /\ Forall (wf2 W C) c.

(** [np.expand_dims(m, axis=2)] *)
Definition expand_dims (m : list (list Q)) : list (list (list Q)) :=
  map (map (fun x => [x])) m.

(** [np.squeeze] of a rank 3 array whose shape is [(H, W, C)]: every axis of
    length one is dropped, not only the last one. *)
Definition squeeze3 (H W C : nat) (c : list (list (list Q))) : tensor :=
  match H =? 1, W =? 1, C =? 1 with
  | false, false, false => T3 c
  | false, false, true => T2 (map (map (hd 0%Q)) c)
  | false, true, false => T2 (map (hd []) c)
  | true, false, false => T2 (hd [] c)
  | false, true, true => T1 (map (fun r => hd 0%Q (hd [] r)) c)
  | true, false, true => T1 (map (hd 0%Q) (hd [] c))
  | true, true, false => T1 (hd [] (hd [] c))
  | true, true, true => T0 (hd 0%Q (hd [] (hd [] c)))
  end.

(** [np.transpose(m, (1, 0))] *)
Fixpoint transpose_aux {A : Type} (W : nat) (m : list (list A)) : list (list A) :=
  match m with
  | [] => repeat [] W
  | r :: m' => map (fun p => fst p :: snd p) (combine r (transpose_aux W m'))
  end.

Definition transpose {A : Type} (m : list (list A)) : list (list A) :=
  transpose_aux (length (hd [] m)) m.

(** [np.transpose(a, (1, 0, 2))] needs three axes. *)
Definition transpose102 (a : ndarray) : result ndarray :=
  match tensor_of a with
  | T3 c => Ok (mkarr (dtype_of a) (T3 (transpose c)))
  | _ => Raise ValueError
  end.

(** [H, W, C = a.shape] needs exactly three axes. *)
Definition unpack3 (a : ndarray) : result (list (list (list Q))) :=
  match tensor_of a with
  | T3 c => Ok c
  | _ => Raise ValueError
  end.

(** [a.shape[k]] *)
Definition shape_at (a : ndarray) (k : nat) : result nat :=
  match nth_error (shape (tensor_of a)) k with
  | Some n => Ok n
  | None => Raise IndexError
  end.

(** ** Seam Mutator *)

(** One pass of [for i in range(M): out[i, ...] = ...] over the rows. *)
Definition for_rows {A : Type} (seam : list Z)
  (body : Z -> list A -> result (list A)) (out : list (list A))
  : result (list (list A)) :=
  for_each (seq 0 (length out))
    (fun i o =>
       s <- item seam (Z.of_nat i) ;;
       row <- item o (Z.of_nat i) ;;
       row' <- body s row ;;
       Ok (upd i row' o))
    out.

Definition remove_seam (image : ndarray) (seam : list Z) : result ndarray :=
  (* Add extra dimension if 2D input *)
  c <- match tensor_of image with
       | T2 m => Ok (expand_dims m)
       | T3 c => Ok c
       | _ => Raise ValueError
       end ;;
  let H := length c in
  let W := length (hd [] c) in
  let C := length (hd [] (hd [] c)) in
  let N := W in
  out <- for_rows seam
           (fun s row =>
              assign_slice s (Z.of_nat N - 1) row (slice (s + 1) (Z.of_nat N) row))
           c ;;
  let out := map (slice 0 (Z.of_nat W - 1)) out in
  let out := mkarr (dtype_of image) (squeeze3 H (W - 1) C out) in
  _ <- py_assert (dtype_eqb (dtype_of out) (dtype_of image))
         "Type changed between image and out in remove_seam" ;;
  Ok out.

Definition duplicate_seam (image : ndarray) (seam : list Z) : result ndarray :=
  c <- unpack3 image ;;
  let W := length (hd [] c) in
  let C := length (hd [] (hd [] c)) in
  (* out = np.zeros((H, W + 1, C)); out[:, 0:W, :] = np.copy(image) *)
  let out := map (fun row => row ++ [repeat 0%Q C]) c in
  let N := W + 1 in
  out <- for_rows seam
           (fun s row =>
              assign_slice (s + 1) (Z.of_nat N) row (slice s (Z.of_nat N - 1) row))
           out ;;
  Ok (mkarr float64 (T3 out)).

(** ** Floats with [+inf], [np.argmin] and [np.amin] *)

Inductive xfloat : Type :=
| Fin (q : Q)
| Inf.

(** [a < b] on floats *)
Definition xltb (a b : xfloat) : bool :=
  match a, b with
  | Fin x, Fin y => negb (Qle_bool y x)
  | Fin _, Inf => true
  | Inf, _ => false
  end.

Definition xadd (a b : xfloat) : xfloat :=
  match a, b with
  | Fin x, Fin y => Fin (x + y)
  | _, _ => Inf
  end.

(** The scan of [np.argmin] / [np.amin]: the running minimum is replaced
    only by a strictly smaller item, so the first minimum wins. *)
Fixpoint min_scan (best : xfloat) (bi i : nat) (l : list xfloat) : nat * xfloat :=
  match l with
  | [] => (bi, best)
  | x :: t => if xltb x best then min_scan x i (S i) t
              else min_scan best bi (S i) t
  end.

Definition argmin_amin (l : list xfloat) : nat * xfloat :=
  match l with
  | [] => (0, Inf)
  | x :: t => min_scan x 0 1 t
  end.

(** [np.argmin(v)] of a one-dimensional array; an empty one raises. *)
Definition argmin (l : list xfloat) : result Z :=
  match l with
  | [] => Raise ValueError
  | _ => Ok (Z.of_nat (fst (argmin_amin l)))
  end.

(** The columns of the [(3, W)] array [stack]. *)
Definition columns3 {A : Type} (s0 s1 s2 : list A) : list (list A) :=
  map (fun p => [fst (fst p); snd (fst p); snd p]) (combine (combine s0 s1) s2).

(** [np.argmin(stack, axis=0)] and [np.amin(stack, axis=0)] *)
Definition argmin_axis0 (s0 s1 s2 : list xfloat) : list nat :=
  map (fun col => fst (argmin_amin col)) (columns3 s0 s1 s2).

Definition amin_axis0 (s0 s1 s2 : list xfloat) : list xfloat :=
  map (fun col => snd (argmin_amin col)) (columns3 s0 s1 s2).

Definition zip_with {A B C : Type} (f : A -> B -> C) (xs : list A) (ys : list B)
  : list C :=
  map (fun p => f (fst p) (snd p)) (combine xs ys).

Fixpoint mapM {A B : Type} (f : A -> result B) (l : list A) : result (list B) :=
  match l with
  | [] => Ok []
  | x :: t => y <- f x ;; ys <- mapM f t ;; Ok (y :: ys)
  end.

(** [np.all(np.any([paths == 1, paths == 0, paths == -1], axis=0))] *)
Definition paths_ok (paths : list (list Z)) : bool :=
  forallb (forallb (fun d => (d =? 1) || (d =? 0) || (d =? -1))%Z) paths.

(** ** Cost Accumulator, simple variant *)

Definition cost_t : Type := list (list xfloat).
Definition paths_t : Type := list (list Z).

Definition compute_cost (image : ndarray) (energy : list (list Q)) (axis : Z)
  : result (cost_t * paths_t) :=
  let energy := if (axis =? 0)%Z then transpose energy else energy in
  let H := length energy in
  let W := length (hd [] energy) in
  let cost := repeat (repeat (Fin 0%Q) W) H in
  let paths := repeat (repeat 0%Z W) H in
  (* Initialization *)
  e0 <- item energy 0%Z ;;
  let cost := upd 0 (map Fin e0) cost in
  let paths := upd 0 (repeat 0%Z W) paths in
  let cost_padded := map (fun r => Inf :: r ++ [Inf]) cost in
  st <- for_each (seq 1 (H - 1))
          (fun i (st : cost_t * paths_t) =>
             let (cost_padded, paths) := st in
             prev <- item cost_padded (Z.of_nat i - 1) ;;
             let stack0 := slice 0 (Z.of_nat W) prev in
             let stack1 := slice 1 (Z.of_nat W + 1) prev in
             let stack2 := slice 2 (Z.of_nat W + 2) prev in
             ei <- item energy (Z.of_nat i) ;;
             row <- item cost_padded (Z.of_nat i) ;;
             row' <- assign_slice 1 (Z.of_nat W + 1) row
                       (zip_with xadd (amin_axis0 stack0 stack1 stack2) (map Fin ei)) ;;
             Ok (upd i row' cost_padded,
                 upd i (map (fun k => Z.of_nat k - 1)%Z
                          (argmin_axis0 stack0 stack1 stack2)) paths))
          (cost_padded, paths) ;;
  let (cost_padded, paths) := st in
  let cost := map (slice 1 (Z.of_nat W + 1)) cost_padded in
  let cost := if (axis =? 0)%Z then transpose cost else cost in
  let paths := if (axis =? 0)%Z then transpose paths else paths in
  (* Check that paths only contains -1, 0 or 1 *)
  _ <- py_assert (paths_ok paths) "paths contains other values than -1, 0 or 1" ;;
  Ok (cost, paths).

(** ** Seam Tracer *)

Definition backtrack_seam (paths : paths_t) (end_ : Z) : result (list Z) :=
  let H := length paths in
  let W := length (hd [] paths) in
  (* initialize with -1 to make sure that everything gets modified *)
  let seam := repeat (-1)%Z H in
  (* Initialization *)
  k <- py_index H (Z.of_nat H - 1) ;;
  let seam := upd k end_ seam in
  seam <- for_each (rev (seq 0 (H - 1)))
            (fun i seam =>
               s <- item seam (Z.of_nat i + 1) ;;
               row <- item paths (Z.of_nat i + 1) ;;
               d <- item row s ;;
               Ok (upd i (s + d)%Z seam))
            seam ;;
  (* Check that seam only contains values in [0, W-1] *)
  _ <- py_assert (forallb (fun s => (0 <=? s) && (s <? Z.of_nat W))%Z seam)
         "seam contains values out of bounds" ;;
  Ok seam.

(** ** Energy Estimator *)

(** [np.gradient] of a one-dimensional array (unit spacing, edge order 1). *)
Definition gradient1 (f : list Q) : result (list Q) :=
  let n := length f in
  if n <? 2 then Raise ValueError
  else Ok (map (fun i =>
                  if i =? 0 then (nth 1 f 0 - nth 0 f 0)%Q
                  else if i =? n - 1 then (nth (n - 1) f 0 - nth (n - 2) f 0)%Q
                  else ((nth (i + 1) f 0 - nth (i - 1) f 0) / 2)%Q)
             (seq 0 n)).

Definition gradient_axis1 (g : list (list Q)) : result (list (list Q)) :=
  mapM gradient1 g.

Definition gradient_axis0 (g : list (list Q)) : result (list (list Q)) :=
  t <- mapM gradient1 (transpose g) ;; Ok (transpose t).

Section Luminance.

(** [skimage.color.rgb2gray], an external collaborator: it maps an array to
    its two-dimensional luminance grid, or raises. *)
Variable rgb2gray : ndarray -> result (list (list Q)).

Definition energy_function (image : ndarray) : result (list (list Q)) :=
  _ <- unpack3 image ;;
  gray_image <- rgb2gray image ;;
  g0 <- gradient_axis0 gray_image ;;
  g1 <- gradient_axis1 gray_image ;;
  let axis_zero := map (map Qabs) g0 in
  let axis_one := map (map Qabs) g1 in
  Ok (zip_with (zip_with Qplus) axis_zero axis_one).

(** ** Cost Accumulator, forward variant *)

(** [a[i, j]] for natural numbers written as Python ints *)
Definition item2 {A : Type} (a : list (list A)) (i j : Z) : result A :=
  row <- item a i ;; item row j.

Definition stack_t : Type := list xfloat * list xfloat * list xfloat.

(** The body of [for j in range(W)] in row [i]: the three [if]s in order. *)
Definition forward_column (image : list (list Q)) (cost_padded : cost_t)
  (W : nat) (i j : Z) (stack : stack_t) : result stack_t :=
  let absdiff (x y : Q) := Qabs (x - y) in
  stack <-
    (if (0 <? j)%Z && (j <? Z.of_nat W - 1)%Z then
       let '(s0, s1, s2) := stack in
       cl <- item2 cost_padded (i - 1) (j - 1) ;;
       cm <- item2 cost_padded (i - 1) j ;;
       cr <- item2 cost_padded (i - 1) (j + 1) ;;
       right <- item2 image i (j + 1) ;;
       left <- item2 image i (j - 1) ;;
       up <- item2 image (i - 1) j ;;
       Ok (upd (Z.to_nat j)
             (xadd (xadd cl (Fin (absdiff right left))) (Fin (absdiff up left))) s0,
           upd (Z.to_nat j) (xadd cm (Fin (absdiff right left))) s1,
           upd (Z.to_nat j)
             (xadd (xadd cr (Fin (absdiff right left))) (Fin (absdiff up right))) s2)
     else Ok stack) ;;
  stack <-
    (if (j =? 0)%Z then
       let '(s0, s1, s2) := stack in
       cm <- item2 cost_padded (i - 1) j ;;
       cr <- item2 cost_padded (i - 1) (j + 1) ;;
       up <- item2 image (i - 1) j ;;
       right <- item2 image i (j + 1) ;;
       Ok (upd (Z.to_nat j) Inf s0,
           upd (Z.to_nat j) cm s1,
           upd (Z.to_nat j) (xadd cr (Fin (absdiff up right))) s2)
     else Ok stack) ;;
  (if (j =? Z.of_nat W - 1)%Z then
     let '(s0, s1, s2) := stack in
     cl <- item2 cost_padded (i - 1) (j - 1) ;;
     up <- item2 image (i - 1) j ;;
     left <- item2 image i (j - 1) ;;
     cm <- item2 cost_padded (i - 1) j ;;
     Ok (upd (Z.to_nat j) (xadd cl (Fin (absdiff up left))) s0,
         upd (Z.to_nat j) cm s1,
         upd (Z.to_nat j) Inf s2)
   else Ok stack).

Definition compute_forward_cost (image : ndarray) (energy : list (list Q))
  : result (cost_t * paths_t) :=
  image <- rgb2gray image ;;
  let H := length image in
  let W := length (hd [] image) in
  let cost := repeat (repeat (Fin 0%Q) W) H in
  let paths := repeat (repeat 0%Z W) H in
  (* Initialization *)
  e0 <- item energy 0%Z ;;
  row0 <- item cost 0%Z ;;
  row0 <- assign_slice 0 (Z.of_nat W) row0 (map Fin e0) ;;
  let cost := upd 0 row0 cost in
  cost <- for_each (seq 0 W)
            (fun j cost =>
               if (0 <? j) && (j <? W - 1) then
                 c <- item2 cost 0%Z (Z.of_nat j) ;;
                 right <- item2 image 0%Z (Z.of_nat j + 1) ;;
                 left <- item2 image 0%Z (Z.of_nat j - 1) ;;
                 row <- item cost 0%Z ;;
                 Ok (upd 0 (upd j (xadd c (Fin (Qabs (right - left)))) row) cost)
               else Ok cost)
            cost ;;
  let paths := upd 0 (repeat 0%Z W) paths in
  let stack : stack_t :=
    (repeat (Fin 0%Q) W, repeat (Fin 0%Q) W, repeat (Fin 0%Q) W) in
  st <- for_each (seq 1 (H - 1))
          (fun i (st : cost_t * paths_t * stack_t) =>
             let '(cost, paths, stack) := st in
             stack <- for_each (seq 0 W)
                        (fun j stack =>
                           forward_column image cost W (Z.of_nat i) (Z.of_nat j) stack)
                        stack ;;
             let '(s0, s1, s2) := stack in
             let min_index_arr := argmin_axis0 s0 s1 s2 in
             let paths := upd i (map (fun k => Z.of_nat k - 1)%Z min_index_arr) paths in
             ei <- item energy (Z.of_nat i) ;;
             Ok (upd i (zip_with xadd (amin_axis0 s0 s1 s2) (map Fin ei)) cost,
                 paths, stack))
          (cost, paths, stack) ;;
  let '(cost, paths, _) := st in
  (* Check that paths only contains -1, 0 or 1 *)
  _ <- py_assert (paths_ok paths) "paths contains other values than -1, 0 or 1" ;;
  Ok (cost, paths).

End Luminance.

(** ** Resize Orchestrator and Multi-Seam Extractor *)

(** The injectable capabilities. *)
Definition efunc_t : Type := ndarray -> result (list (list Q)).
Definition cfunc_t : Type := ndarray -> list (list Q) -> result (cost_t * paths_t).
Definition bfunc_t : Type := paths_t -> Z -> result (list Z).
Definition rfunc_t : Type := ndarray -> list Z -> result ndarray.

(** [energy = efunc(out); cost, paths = cfunc(out, energy);
     end = np.argmin(cost[H-1]); seam = bfunc(paths, end)] *)
Definition optimal_seam (efunc : efunc_t) (cfunc : cfunc_t) (bfunc : bfunc_t)
  (H : nat) (image : ndarray) : result (list Z) :=
  energy <- efunc image ;;
  cp <- cfunc image energy ;;
  let (cost, paths) := cp in
  last <- item cost (Z.of_nat H - 1) ;;
  end_ <- argmin last ;;
  bfunc paths end_.

Definition reduce (image : ndarray) (size : Z) (axis : Z)
  (efunc : efunc_t) (cfunc : cfunc_t) (bfunc : bfunc_t) (rfunc : rfunc_t)
  : result ndarray :=
  out <- (if (axis =? 0)%Z then transpose102 image else Ok image) ;;
  H <- shape_at out 0 ;;
  W <- shape_at out 1 ;;
  _ <- py_assert (size <? Z.of_nat W)%Z "Size must be smaller than %d" ;;
  _ <- py_assert (0 <? size)%Z "Size must be greater than zero" ;;
  (* number of iterations *)
  let num_it := (Z.of_nat W - size)%Z in
  out <- for_each (range num_it)
           (fun _ out =>
              seam <- optimal_seam efunc cfunc bfunc H out ;;
              rfunc out seam)
           out ;;
  W' <- shape_at out 1 ;;
  _ <- py_assert (Z.of_nat W' =? size)%Z "Output doesn't have the right shape" ;;
  if (axis =? 0)%Z then transpose102 out else Ok out.

(** Index arrays that are used together are broadcast to a common length. *)
Definition broadcast2 {A B : Type} (xs : list A) (ys : list B)
  : result (list (A * B)) :=
  if length xs =? length ys then Ok (combine xs ys)
  else match xs, ys with
       | [x], _ => Ok (map (pair x) ys)
       | _, [y] => Ok (map (fun x => (x, y)) xs)
       | _, _ => Raise IndexError
       end.

(** [a[np.arange(H), cols]] for a two-dimensional [a] *)
Definition fancy_get {A : Type} (a : list (list A)) (H : nat) (cols : list Z)
  : result (list A) :=
  rc <- broadcast2 (seq 0 H) cols ;;
  mapM (fun p => item2 a (Z.of_nat (fst p)) (snd p)) rc.

(** [a[np.arange(H), cols] = x] *)
Definition fancy_set {A : Type} (a : list (list A)) (H : nat) (cols : list Z) (x : A)
  : result (list (list A)) :=
  rc <- broadcast2 (seq 0 H) cols ;;
  for_each rc
    (fun p a =>
       r <- py_index (length a) (Z.of_nat (fst p)) ;;
       row <- item a (Z.of_nat (fst p)) ;;
       c <- py_index (length row) (snd p) ;;
       Ok (upd r (upd c x row) a))
    a.

(** The entries of an integer array, read as Python ints. *)
Definition as_int (q : Q) : Z := Qfloor q.

(** [indices[np.arange(H), seam]]: the index map has to be two-dimensional. *)
Definition original_columns (indices : ndarray) (H : nat) (seam : list Z)
  : result (list Z) :=
  match tensor_of indices with
  | T2 m => cols <- fancy_get m H seam ;; Ok (map as_int cols)
  | _ => Raise IndexError
  end.

Definition find_seams (image : ndarray) (k : Z) (axis : Z)
  (efunc : efunc_t) (cfunc : cfunc_t) (bfunc : bfunc_t) (rfunc : rfunc_t)
  : result ndarray :=
  image <- (if (axis =? 0)%Z then transpose102 image else Ok image) ;;
  c <- unpack3 image ;;
  let H := length c in
  let W := length (hd [] c) in
  _ <- py_assert (k <? Z.of_nat W)%Z "k must be smaller than %d" ;;
  (* indices[row, col] is the original column of the current pixel *)
  let indices :=
    mkarr int64 (T2 (repeat (map (fun j => inject_Z (Z.of_nat j)) (seq 0 W)) H)) in
  (* the seams removed in our process *)
  let seams := repeat (repeat 0%Z W) H in
  st <- for_each (range k)
          (fun i (st : ndarray * ndarray * list (list Z)) =>
             let '(image, indices, seams) := st in
             (* Get the current optimal seam *)
             seam <- optimal_seam efunc cfunc bfunc H image ;;
             (* Remove that seam from the image *)
             image <- rfunc image seam ;;
             (* Store the new seam with value i+1 in the image *)
             orig <- original_columns indices H seam ;;
             old <- fancy_get seams H orig ;;
             _ <- py_assert (forallb (Z.eqb 0) old) "we are overwriting seams" ;;
             seams <- fancy_set seams H orig (Z.of_nat i + 1)%Z ;;
             (* We remove the indices used by the seam *)
             indices <- rfunc indices seam ;;
             Ok (image, indices, seams))
          (image, indices, seams) ;;
  let '(_, _, seams) := st in
  let seams := if (axis =? 0)%Z then transpose seams else seams in
  Ok (mkarr int64 (T2 (map (map inject_Z) seams))).

(** [row, col = np.where(a == v)]: the columns of the matching cells in
    row-major order; the array has to be two-dimensional. *)
Definition where_col (a : ndarray) (v : Z) : result (list Z) :=
  match tensor_of a with
  | T2 m =>
      Ok (concat
            (map (fun row =>
                    map (fun p => Z.of_nat (fst p))
                      (filter (fun p => Qeq_bool (snd p) (inject_Z v))
                         (combine (seq 0 (length row)) row)))
               m))
  | _ => Raise ValueError
  end.

(** [a[:, :, np.newaxis]] of a two-dimensional array *)
Definition newaxis2 (a : ndarray) : result ndarray :=
  match tensor_of a with
  | T2 m => Ok (mkarr (dtype_of a) (T3 (expand_dims m)))
  | _ => Raise IndexError
  end.

(** [a[:, :, 0]] of a three-dimensional array *)
Definition channel0 (a : ndarray) : result ndarray :=
  match tensor_of a with
  | T3 c =>
      m <- mapM (mapM (fun px => item px 0%Z)) c ;;
      Ok (mkarr (dtype_of a) (T2 m))
  | _ => Raise IndexError
  end.

Definition enlarge (image : ndarray) (size : Z) (axis : Z)
  (efunc : efunc_t) (cfunc : cfunc_t) (dfunc : rfunc_t) (bfunc : bfunc_t)
  (rfunc : rfunc_t) : result ndarray :=
  (* Transpose for height resizing *)
  out <- (if (axis =? 0)%Z then transpose102 image else Ok image) ;;
  c <- unpack3 out ;;
  let W := length (hd [] c) in
  _ <- py_assert (Z.of_nat W <? size)%Z "size must be greather than %d" ;;
  _ <- py_assert (size <=? 2 * Z.of_nat W)%Z "size must be smaller than %d" ;;
  let num_it := (size - Z.of_nat W)%Z in
  seams_matrix <- find_seams out num_it 1 efunc cfunc bfunc rfunc ;;
  st <- for_each (range num_it)
          (fun i (st : ndarray * ndarray) =>
             let (out, seams_matrix) := st in
             col <- where_col seams_matrix (Z.of_nat i + 1) ;;
             out <- dfunc out col ;;
             sm3 <- newaxis2 seams_matrix ;;
             seams_matrix <- dfunc sm3 col ;;
             seams_matrix <- channel0 seams_matrix ;;
             Ok (out, seams_matrix))
          (out, seams_matrix) ;;
  let (out, _) := st in
  if (axis =? 0)%Z then transpose102 out else Ok out.

Section ObjectRemoval.

Variable rgb2gray : ndarray -> result (list (list Q)).

(** [for i ...: for j ...: if mask[i, j] == 1: energy[i, j] = -100000] *)
Definition mask_energy (mask : list (list bool)) (energy : list (list Q))
  : result (list (list Q)) :=
  mapM (fun ir =>
          mapM (fun je =>
                  m <- item2 mask (Z.of_nat (fst ir)) (Z.of_nat (fst je)) ;;
                  Ok (if (m : bool) then (-100000)%Q else snd je))
            (combine (seq 0 (length (snd ir))) (snd ir)))
    (combine (seq 0 (length energy)) energy).

Definition count_true (row : list bool) : nat :=
  length (filter (fun b => b) row).

(** [np.amax] of a list of counts; an empty list raises. *)
Definition amax (n : list nat) : result nat :=
  match n with
  | [] => Raise ValueError
  | x :: t => Ok (fold_left Nat.max t x)
  end.

Definition remove_object (image : ndarray) (mask : list (list bool))
  : result ndarray :=
  _ <- py_assert
         (if list_eq_dec Nat.eq_dec (firstn 2 (shape (tensor_of image)))
               [length mask; length (hd [] mask)]
          then true else false) "" ;;
  c <- unpack3 image ;;
  let H := length c in
  let W := length (hd [] c) in
  let out := image in
  n <- mapM (fun i => row <- item mask (Z.of_nat i) ;; Ok (count_true row))
         (seq 0 H) ;;
  remove_size <- amax n ;;
  out <- for_each (seq 0 (remove_size + 30))
           (fun _ out =>
              energy <- energy_function rgb2gray out ;;
              energy <- mask_energy mask energy ;;
              cp <- compute_cost out energy 1 ;;
              let (cost, paths) := cp in
              last <- item cost (Z.of_nat H - 1) ;;
              end_ <- argmin last ;;
              seam <- backtrack_seam paths end_ ;;
              remove_seam out seam)
           out ;;
  out <- enlarge out (Z.of_nat W) 1 (energy_function rgb2gray)
           (fun im e => compute_cost im e 1) duplicate_seam backtrack_seam
           remove_seam ;;
  _ <- py_assert
         (if list_eq_dec Nat.eq_dec (shape (tensor_of out)) (shape (tensor_of image))
          then true else false) "" ;;
  Ok out.

End ObjectRemoval.

(** * Specification vocabulary

    The predicates and reference functions in which the lemmas and the
    claims below are stated. *)

Unset Implicit Arguments.

Definition remove_at {A : Type} (s : nat) (row : list A) : list A :=
  firstn s row ++ skipn (S s) row.

Definition dup_at {A : Type} (s : nat) (row : list A) : list A :=
  firstn (S s) row ++ skipn s row.

(** A row after [out[i, s:N-1] = out[i, s+1:N]]: the tail has moved left,
    the last item is still there. *)
Definition shifted {A : Type} (s : nat) (row : list A) : list A :=
  firstn s row ++ skipn (S s) row ++ skipn (length row - 1) row.

(** A seam for a grid of width [W]: every column is in [0, W). *)
Definition in_bounds (W : nat) (seam : list Z) : Prop :=
  Forall (fun s => (0 <= s < Z.of_nat W)%Z) seam.

Definition remove_rows {A : Type} (seam : list Z) (c : list (list A))
  : list (list A) :=
  zip_with (fun s row => remove_at (Z.to_nat s) row) seam c.

Definition dup_rows {A : Type} (seam : list Z) (c : list (list A))
  : list (list A) :=
  zip_with (fun s row => dup_at (Z.to_nat s) row) seam c.

Definition pad (r : list xfloat) : list xfloat := Inf :: r ++ [Inf].

(** One row of [compute_cost]: the new cost row and the new direction row,
    from the previous cost row and the energy row. *)
Definition cost_step (W : nat) (prev : list xfloat) (e : list Q)
  : list xfloat * list Z :=
  let stack0 := slice 0 (Z.of_nat W) (pad prev) in
  let stack1 := slice 1 (Z.of_nat W + 1) (pad prev) in
  let stack2 := slice 2 (Z.of_nat W + 2) (pad prev) in
  (zip_with xadd (amin_axis0 stack0 stack1 stack2) (map Fin e),
   map (fun k => Z.of_nat k - 1)%Z (argmin_axis0 stack0 stack1 stack2)).

Fixpoint cost_scan (W : nat) (prev : list xfloat) (es : list (list Q))
  : list (list xfloat * list Z) :=
  match es with
  | [] => []
  | e :: es' => let r := cost_step W prev e in r :: cost_scan W (fst r) es'
  end.

Definition xlt (a b : xfloat) : Prop :=
  match a, b with
  | Fin x, Fin y => (x < y)%Q
  | Fin _, Inf => True
  | Inf, _ => False
  end.

(** [k] is the position of the first minimum of [l]. *)
Definition leftmost_argmin (l : list xfloat) (k : nat) : Prop :=
  k < length l
  /\ (forall k', k' < length l -> ~ xlt (nth k' l Inf) (nth k l Inf))
  /\ (forall k', k' < k -> xlt (nth k l Inf) (nth k' l Inf)).

(** The cost in the previous row at column [j], [+inf] outside the grid. *)
Definition neighbour (prev : list xfloat) (j : Z) : xfloat :=
  if ((0 <=? j) && (j <? Z.of_nat (length prev)))%Z
  then nth (Z.to_nat j) prev Inf else Inf.

(** The three candidate predecessors of column [j], left to right. *)
Definition candidates (prev : list xfloat) (j : nat) : list xfloat :=
  [neighbour prev (Z.of_nat j - 1); neighbour prev (Z.of_nat j);
   neighbour prev (Z.of_nat j + 1)].

(** Finite costs stay finite, and a direction never leaves the grid. *)
Definition finite (x : xfloat) : Prop := exists q, x = Fin q.

Definition cost_rows (W : nat) (e0 : list Q) (es : list (list Q)) : cost_t :=
  map Fin e0 :: map fst (cost_scan W (map Fin e0) es).

Definition path_rows (W : nat) (e0 : list Q) (es : list (list Q)) : paths_t :=
  repeat 0%Z W :: map snd (cost_scan W (map Fin e0) es).

Definition dir_ok (d : Z) : bool := ((d =? 1) || (d =? 0) || (d =? -1))%Z.

(** A direction grid whose arrows stay inside the grid: what the cost
    accumulators produce below row 0. *)
Definition dirs_in_grid (H W : nat) (paths : paths_t) : Prop :=
  forall i j, 1 <= i < H -> j < W ->
    let d := nth j (nth i paths []) 0%Z in
    (-1 <= d <= 1)%Z /\ (0 <= Z.of_nat j + d < Z.of_nat W)%Z.

(** The seam, grown upwards by [n] rows from the part [tail] that is known. *)
Fixpoint extend (paths : paths_t) (n : nat) (tail : list Z) : list Z :=
  match n with
  | O => tail
  | S n' =>
      let s := hd 0%Z tail in
      extend paths n' ((s + nth (Z.to_nat s) (nth (S n') paths []) 0)%Z :: tail)
  end.

Definition absdiff (x y : Q) : Q := Qabs (x - y).

(** The three entries of [stack[:, j]] in row [i]: the cost of the
    predecessor plus the cost of the new neighbours that removing pixel
    [(i, j)] creates.  [prev] is row [i-1] of the cost grid. *)
Definition fwd_candidates (image : list (list Q)) (prev : list xfloat)
  (W i j : nat) : list xfloat :=
  let px r c := nth c (nth r image []) 0%Q in
  let c k := nth k prev Inf in
  if (0 <? j) && (j <? W - 1) then
    [xadd (xadd (c (j - 1)) (Fin (absdiff (px i (j + 1)) (px i (j - 1)))))
       (Fin (absdiff (px (i - 1) j) (px i (j - 1))));
     xadd (c j) (Fin (absdiff (px i (j + 1)) (px i (j - 1))));
     xadd (xadd (c (j + 1)) (Fin (absdiff (px i (j + 1)) (px i (j - 1)))))
       (Fin (absdiff (px (i - 1) j) (px i (j + 1))))]
  else if j =? 0 then
    [Inf; c j; xadd (c (j + 1)) (Fin (absdiff (px (i - 1) j) (px i (j + 1))))]
  else
    [xadd (c (j - 1)) (Fin (absdiff (px (i - 1) j) (px i (j - 1)))); c j; Inf].

(** Row 0 of the forward cost: the energy plus, away from the borders, the
    horizontal difference of the luminance. *)
Definition fwd_row0 (image : list (list Q)) (e0 : list Q) (W j : nat) : xfloat :=
  if (0 <? j) && (j <? W - 1)
  then Fin (nth j e0 0 + Qabs (nth (j + 1) (nth 0 image []) 0
                               - nth (j - 1) (nth 0 image []) 0))%Q
  else Fin (nth j e0 0%Q).

(** What a pair of grids returned by the forward accumulator satisfies. *)
Definition fwd_cells (gray : list (list Q)) (energy : list (list Q))
  (H W : nat) (upto : nat) (cost : cost_t) (paths : paths_t) : Prop :=
  forall i j, 1 <= i < upto -> j < W ->
    let cands := fwd_candidates gray (nth (i - 1) cost []) W i j in
    nth j (nth i paths []) 0%Z = (Z.of_nat (fst (argmin_amin cands)) - 1)%Z
    /\ nth j (nth i cost []) Inf
       = xadd (snd (argmin_amin cands)) (Fin (nth j (nth i energy []) 0%Q)).

(** Four values whose minimum is shared by the two middle ones only. *)
Definition tied4 (x0 x1 x2 x3 : Q) : Prop :=
  (x1 == x2 /\ x1 < x0 /\ x1 < x3)%Q.

(** A grid of three rows and four columns whose rows are all tied. *)
Definition tied_grid (energy : list (list Q)) : Prop :=
  exists a0 m0 n0 b0 a1 m1 n1 b1 a2 m2 n2 b2,
    energy = [[a0; m0; n0; b0]; [a1; m1; n1; b1]; [a2; m2; n2; b2]]
    /\ tied4 a0 m0 n0 b0 /\ tied4 a1 m1 n1 b1 /\ tied4 a2 m2 n2 b2.

(** An instance of the external grayscale converter, to run the code on
    concrete images: the luminance weights that scikit-image documents for
    [rgb2gray], after its conversion of 8-bit samples to [0, 1]; a
    two-dimensional array is already a luminance grid. *)
Definition luma (a : ndarray) : result (list (list Q)) :=
  let scale (x : Q) :=
    match dtype_of a with uint8 => (x / 255)%Q | _ => x end in
  match tensor_of a with
  | T2 m => Ok (map (map scale) m)
  | T3 c =>
      mapM (mapM (fun px =>
                    match px with
                    | [r; g; b] =>
                        Ok ((2125 # 10000) * scale r + (7154 # 10000) * scale g
                            + (721 # 10000) * scale b)%Q
                    | _ => Raise ValueError
                    end)) c
  | _ => Raise ValueError
  end.

(** A grey image: every pixel repeats its sample on the three channels. *)
Definition grey_image (dt : dtype) (rows : list (list Z)) : ndarray :=
  mkarr dt (T3 (map (map (fun z => [inject_Z z; inject_Z z; inject_Z z])) rows)).

Definition ok_or {A : Type} (d : A) (r : result A) : A :=
  match r with Ok a => a | Raise _ => d end.

(** Three rows, four columns; columns 1 and 2 tie for the minimum. *)
Definition energy34 : list (list Q) :=
  map (map inject_Z) [[5; 1; 1; 5]; [5; 1; 1; 5]; [5; 1; 1; 5]]%Z.

Definition image34 : ndarray :=
  grey_image float64 [[0; 0; 1; 1]; [0; 1; 1; 0]; [1; 0; 0; 1]]%Z.

Definition gray34 : list (list Q) := ok_or [] (luma image34).

Definition cost34 : cost_t := fst (ok_or ([], []) (compute_cost image34 energy34 1)).
Definition paths34 : paths_t := snd (ok_or ([], []) (compute_cost image34 energy34 1)).

(** The direction stored at every cell below row 0 is the position of the
    first minimum among the cell's candidates. *)
Definition picks_leftmost (H W : nat)
  (cands : cost_t -> nat -> nat -> list xfloat)
  (cost : cost_t) (paths : paths_t) : Prop :=
  forall i j, 1 <= i < H -> j < W ->
    let d := nth j (nth i paths []) 0%Z in
    (-1 <= d <= 1)%Z /\ leftmost_argmin (cands cost i j) (Z.to_nat (d + 1)).

Definition image22 : ndarray := grey_image uint8 [[1; 2]; [3; 4]]%Z.

(** A row of [duplicate_seam] for a position up to the width of the row:
    at the width itself only the zero pixel is appended. *)
Definition dup_ext {A : Type} (z : A) (s : nat) (row : list A) : list A :=
  firstn (S s) (row ++ [z]) ++ skipn s row.

(** What removal followed by duplication leaves in the grid. *)
Definition roundtrip_rows (C : nat) (seam : list Z) (c : list (list (list Q)))
  : list (list (list Q)) :=
  zip_with
    (fun s row => upd (Z.to_nat s) (nth (S (Z.to_nat s)) row (repeat 0%Q C)) row)
    seam c.

Definition image23 : ndarray :=
  mkarr uint8 (T3 [[[1; 1]; [2; 2]; [3; 3]]; [[4; 4]; [5; 5]; [6; 6]]]%Q).

(** The grayscale converter accepts every [H x W x C] array and returns an
    [H x W] grid. *)
Definition gray_ok (rgb2gray : ndarray -> result (list (list Q))) (H C : nat)
  : Prop :=
  forall dt c W, wf3 H W C c ->
    exists g, rgb2gray (mkarr dt (T3 c)) = Ok g /\ wf2 H W g.

(** The energy function accepts every [H x W x C] array of width at least
    two and returns an [H x W] grid. *)
Definition energy_ok (efunc : efunc_t) (H C : nat) : Prop :=
  forall dt c W, wf3 H W C c -> 2 <= W ->
    exists e, efunc (mkarr dt (T3 c)) = Ok e /\ wf2 H W e.

(** The state of one row: the original columns [idx] that are still in the
    working grid are exactly the unlabelled cells of the label row [srow],
    and each of the labels [1..n] occupies one cell. *)
Definition row_inv (W0 n : nat) (idx : list nat) (srow : list Z) : Prop :=
  length srow = W0
  /\ NoDup idx
  /\ (forall j, In j idx -> j < W0)
  /\ (forall j, j < W0 -> (nth j srow 0%Z = 0%Z <-> In j idx))
  /\ Forall (fun v => (0 <= v <= Z.of_nat n)%Z) srow
  /\ (forall l, (1 <= l <= Z.of_nat n)%Z -> count_occ Z.eq_dec srow l = 1).

Definition index_q (j : nat) : Q := inject_Z (Z.of_nat j).

(** The original columns of the seam cells. *)
Definition originals (idx : list (list nat)) (seam : list Z) : list Z :=
  zip_with (fun row s => Z.of_nat (nth (Z.to_nat s) row 0)) idx seam.

(** A label grid for [k] seams: every cell holds 0 or a label in [1..k], and
    every label occupies exactly one cell of every row. *)
Definition labelled (H W : nat) (k : Z) (seams : list (list Z)) : Prop :=
  wf2 H W seams
  /\ Forall (Forall (fun v => (0 <= v <= k)%Z)) seams
  /\ forall l, (1 <= l <= k)%Z ->
       Forall (fun row => count_occ Z.eq_dec row l = 1) seams.

(** The first column of [row] that holds [v]. *)
Fixpoint position (v : Z) (row : list Z) : nat :=
  match row with
  | [] => 0
  | x :: t => if Z.eq_dec x v then 0 else S (position v t)
  end.

Definition positions (v : Z) (rows : list (list Z)) : list Z :=
  map (fun row => Z.of_nat (position v row)) rows.

Definition image24 : ndarray :=
  grey_image uint8 [[10; 20; 40; 70]; [30; 50; 90; 95]]%Z.

Definition cube24 : list (list (list Q)) :=
  map (map (fun z => [inject_Z z; inject_Z z; inject_Z z]))
    [[10; 20; 40; 70]; [30; 50; 90; 95]]%Z.

(** The largest number of masked pixels in a row. *)
Definition max_count (mask : list (list bool)) : nat :=
  match map count_true mask with
  | [] => 0
  | x :: t => fold_left Nat.max t x
  end.

(** Shapes of concrete grids, by computation. *)
Definition wf2b {A : Type} (H W : nat) (m : list (list A)) : bool :=
  (length m =? H) && forallb (fun r => length r =? W) m.

Definition wf3b {A : Type} (H W C : nat) (c : list (list (list A))) : bool :=
  (length c =? H) && forallb (wf2b W C) c.

(** Two rows of 61 grey pixels. *)
Definition rows61 : list (list Z) :=
  map (fun i =>
         map (fun j => Z.of_nat ((j * j + 17 * i * j + 5 * i) mod 256)) (seq 0 61))
    (seq 0 2).

Definition cube61 : list (list (list Q)) :=
  map (map (fun z => [inject_Z z; inject_Z z; inject_Z z])) rows61.

Definition image61 : ndarray := grey_image float64 rows61.

(** ** Seams and their energy *)

(** Consecutive entries of a seam are at most one column apart. *)
Fixpoint connected (p : list Z) : Prop :=
  match p with
  | [] => True
  | a :: t =>
      match t with
      | [] => True
      | b :: _ => (Z.abs (a - b) <= 1)%Z
      end /\ connected t
  end.

(** The energy collected by the path [p] whose first cell is in row [i]. *)
Fixpoint path_energy (energy : list (list Q)) (i : nat) (p : list Z) : Q :=
  match p with
  | [] => 0%Q
  | s :: t => (nth (Z.to_nat s) (nth i energy []) 0 + path_energy energy (S i) t)%Q
  end.

(** A connected path from row 0 down to the cell [(i, j)] of a grid of
    width [W]. *)
Definition path_to (W i : nat) (j : Z) (p : list Z) : Prop :=
  length p = S i /\ last p 0%Z = j /\ in_bounds W p /\ connected p.

(** A vertical seam of an [H x W] grid. *)
Definition vertical_seam (H W : nat) (p : list Z) : Prop :=
  length p = H /\ in_bounds W p /\ connected p.

(** [l1] is [l2] with some items deleted: nothing is altered or reordered. *)
Inductive subseq {A : Type} : list A -> list A -> Prop :=
| subseq_nil : subseq [] []
| subseq_skip (x : A) (l1 l2 : list A) : subseq l1 l2 -> subseq l1 (x :: l2)
| subseq_keep (x : A) (l1 l2 : list A) : subseq l1 l2 -> subseq (x :: l1) (x :: l2).

(** The finite difference of [np.gradient] at position [i] of [n] samples:
    central inside, one-sided at the two ends. *)
Definition difference (f : nat -> Q) (n i : nat) : Q :=
  if i =? 0 then (f 1%nat - f 0%nat)%Q
  else if i =? n - 1 then (f (n - 1)%nat - f (n - 2)%nat)%Q
  else ((f (i + 1)%nat - f (i - 1)%nat) / 2)%Q.

(** The energy and cost functions lead to a seam on every [H x W x C] grid
    of width at least two. *)
Definition seam_ok (efunc : efunc_t) (cfunc : cfunc_t) (H C : nat) : Prop :=
  forall dt c W, wf3 H W C c -> 2 <= W ->
    exists seam,
      optimal_seam efunc cfunc backtrack_seam H (mkarr dt (T3 c)) = Ok seam
      /\ length seam = H /\ in_bounds W seam.

(** The contents of [image34]. *)
Definition cube34 : list (list (list Q)) :=
  map (map (fun z => [inject_Z z; inject_Z z; inject_Z z]))
    [[0; 0; 1; 1]; [0; 1; 1; 0]; [1; 0; 0; 1]]%Z.

(** Two rows of a single grey pixel, and the luminance of that image. *)
Definition image21 : ndarray := grey_image float64 [[1]; [2]]%Z.

Definition gray21 : list (list Q) := ok_or [] (luma image21).

(** One row of three grey pixels. *)
Definition image13 : ndarray := grey_image uint8 [[10; 20; 40]]%Z.

Definition gray13 : list (list Q) := ok_or [] (luma image13).

Set Implicit Arguments.

(** * Verification *)

(** ** The error monad and Python indexing *)

Lemma bind_ok {A B : Type} (r : result A) (k : A -> result B) (a : A) :
  r = Ok a -> bind r k = k a.
Proof. intros ->. reflexivity. Qed.

Lemma bind_inv {A B : Type} (r : result A) (k : A -> result B) (b : B) :
  bind r k = Ok b -> exists a, r = Ok a /\ k a = Ok b.
Proof. destruct r as [a|e]; simpl; intros E; [eauto | discriminate]. Qed.

Lemma py_index_nat (n i : nat) : i < n -> py_index n (Z.of_nat i) = Ok i.
Proof.
  intros Hi. unfold py_index.
  replace ((0 <=? Z.of_nat i)%Z && (Z.of_nat i <? Z.of_nat n)%Z) with true.
  - now rewrite Nat2Z.id.
  - symmetry. apply andb_true_iff. split; [apply Z.leb_le | apply Z.ltb_lt]; lia.
Qed.

Lemma item_nth {A : Type} (l : list A) (i : nat) (x : A) :
  nth_error l i = Some x -> item l (Z.of_nat i) = Ok x.
Proof.
  intros E. unfold item.
  rewrite py_index_nat by (apply nth_error_Some; congruence).
  simpl. now rewrite E.
Qed.

Lemma item_app_mid {A : Type} (l1 l2 : list A) (x : A) :
  item (l1 ++ x :: l2) (Z.of_nat (length l1)) = Ok x.
Proof.
  apply item_nth. rewrite nth_error_app2 by lia.
  now rewrite Nat.sub_diag.
Qed.

Lemma upd_app_mid {A : Type} (l1 l2 : list A) (x y : A) :
  upd (length l1) y (l1 ++ x :: l2) = l1 ++ y :: l2.
Proof. induction l1 as [|h t IH]; simpl; [reflexivity | now rewrite IH]. Qed.

Lemma upd_length {A : Type} (i : nat) (x : A) (l : list A) :
  length (upd i x l) = length l.
Proof.
  revert i; induction l as [|h t IH]; intros [|i]; simpl; auto.
Qed.

Lemma slice_bound_nat (n k : nat) : slice_bound n (Z.of_nat k) = Nat.min n k.
Proof.
  unfold slice_bound.
  destruct (Z.ltb_spec (Z.of_nat k) 0); [lia | now rewrite Nat2Z.id].
Qed.

Lemma slice_nat {A : Type} (a b : nat) (l : list A) :
  slice (Z.of_nat a) (Z.of_nat b) l
  = firstn (Nat.min (length l) b - Nat.min (length l) a)
      (skipn (Nat.min (length l) a) l).
Proof. unfold slice. now rewrite !slice_bound_nat. Qed.

Lemma assign_slice_nat {A : Type} (a b : nat) (l rhs : list A) :
  a <= b <= length l -> length rhs = b - a ->
  assign_slice (Z.of_nat a) (Z.of_nat b) l rhs = Ok (firstn a l ++ rhs ++ skipn b l).
Proof.
  intros Hab Hr. unfold assign_slice. rewrite !slice_bound_nat.
  replace (Nat.min (length l) a) with a by lia.
  replace (Nat.min (length l) b) with b by lia.
  rewrite Hr, Nat.eqb_refl. now replace (a + (b - a)) with b by lia.
Qed.

(** ** Seam Mutator: what one row becomes *)

Lemma remove_at_length {A : Type} (s : nat) (row : list A) :
  s < length row -> length (remove_at s row) = length row - 1.
Proof.
  intros Hs. unfold remove_at.
  rewrite length_app, length_firstn, length_skipn. lia.
Qed.

Lemma dup_at_length {A : Type} (s : nat) (row : list A) :
  s < length row -> length (dup_at s row) = S (length row).
Proof.
  intros Hs. unfold dup_at.
  rewrite length_app, length_firstn, length_skipn. lia.
Qed.

Lemma remove_row_assign {A : Type} (s : nat) (row : list A) :
  s < length row ->
  assign_slice (Z.of_nat s) (Z.of_nat (length row) - 1) row
    (slice (Z.of_nat s + 1) (Z.of_nat (length row)) row) = Ok (shifted s row).
Proof.
  intros Hs. unfold shifted. set (n := length row).
  replace (Z.of_nat n - 1)%Z with (Z.of_nat (n - 1)) by lia.
  replace (Z.of_nat s + 1)%Z with (Z.of_nat (S s)) by lia.
  rewrite slice_nat. fold n.
  replace (Nat.min n n - Nat.min n (S s)) with (n - S s) by lia.
  replace (Nat.min n (S s)) with (S s) by lia.
  rewrite firstn_all2 by (rewrite length_skipn; fold n; lia).
  apply assign_slice_nat; [fold n; lia|].
  rewrite length_skipn. fold n. lia.
Qed.

Lemma remove_row_cut {A : Type} (s : nat) (row : list A) :
  s < length row ->
  slice 0 (Z.of_nat (length row) - 1) (shifted s row) = remove_at s row.
Proof.
  intros Hs. unfold shifted. set (n := length row).
  replace (Z.of_nat n - 1)%Z with (Z.of_nat (n - 1)) by lia.
  change 0%Z with (Z.of_nat 0). rewrite slice_nat.
  rewrite !length_app, length_firstn, !length_skipn. fold n.
  replace (Nat.min _ 0) with 0 by lia. rewrite Nat.sub_0_r. simpl skipn.
  replace (Nat.min _ (n - 1)) with (n - 1) by lia.
  unfold remove_at. rewrite app_assoc.
  set (l1 := firstn s row ++ skipn (S s) row).
  assert (Hl1 : length l1 = n - 1)
    by (unfold l1; rewrite length_app, length_firstn, length_skipn; fold n; lia).
  rewrite <- Hl1. replace (length l1) with (length l1 + 0) by lia.
  rewrite firstn_app_2. simpl. now rewrite app_nil_r.
Qed.

Lemma dup_row {A : Type} (s : nat) (row : list A) (z : A) :
  s < length row ->
  assign_slice (Z.of_nat s + 1) (Z.of_nat (length row + 1)) (row ++ [z])
    (slice (Z.of_nat s) (Z.of_nat (length row + 1) - 1) (row ++ [z]))
  = Ok (dup_at s row).
Proof.
  intros Hs. set (n := length row).
  replace (Z.of_nat (n + 1) - 1)%Z with (Z.of_nat n) by lia.
  replace (Z.of_nat s + 1)%Z with (Z.of_nat (S s)) by lia.
  rewrite slice_nat. rewrite length_app. simpl length. fold n.
  replace (Nat.min (n + 1) n - Nat.min (n + 1) s) with (n - s) by lia.
  replace (Nat.min (n + 1) s) with s by lia.
  rewrite skipn_app. replace (s - length row) with 0 by (fold n; lia).
  simpl skipn. rewrite firstn_app, length_skipn. fold n.
  replace (n - s - (n - s)) with 0 by lia. simpl firstn. rewrite app_nil_r.
  rewrite firstn_all2 by (rewrite length_skipn; fold n; lia).
  rewrite assign_slice_nat.
  - unfold dup_at. rewrite firstn_app.
    replace (S s - length row) with 0 by (fold n; lia). simpl firstn.
    rewrite app_nil_r.
    rewrite (@skipn_all2 _ (n + 1) (row ++ [z]))
      by (rewrite length_app; simpl; fold n; lia).
    now rewrite app_nil_r.
  - rewrite length_app. simpl. fold n. lia.
  - rewrite length_skipn. fold n. lia.
Qed.

(** The row loop, when every row succeeds. *)
Lemma for_rows_gen {A : Type} (body : Z -> list A -> result (list A))
  (f : Z -> list A -> list A) (seam : list Z) :
  forall (rest done : list (list A)) (sdone srest : list Z),
    seam = sdone ++ srest ->
    length sdone = length done ->
    Forall2 (fun s row => body s row = Ok (f s row)) srest rest ->
    for_each (seq (length done) (length rest))
      (fun i o =>
         s <- item seam (Z.of_nat i) ;;
         row <- item o (Z.of_nat i) ;;
         row' <- body s row ;;
         Ok (upd i row' o))
      (done ++ rest)
    = Ok (done ++ zip_with f srest rest).
Proof.
  induction rest as [|row rest IH]; intros done sdone srest Hs Hl HF.
  - inversion HF; subst. reflexivity.
  - inversion HF as [|s row0 srest' rest0 Hb HF']; subst. simpl seq. simpl for_each.
    rewrite <- Hl at 1. rewrite item_app_mid. simpl bind.
    rewrite item_app_mid. simpl bind. rewrite Hb. simpl bind.
    rewrite upd_app_mid.
    replace (S (length done)) with (length (done ++ [f s row]))
      by (rewrite length_app; simpl; lia).
    replace (done ++ f s row :: rest) with ((done ++ [f s row]) ++ rest)
      by (now rewrite <- app_assoc).
    rewrite (IH (done ++ [f s row]) (sdone ++ [s]) srest').
    + now rewrite <- app_assoc.
    + now rewrite <- app_assoc.
    + rewrite !length_app. simpl. lia.
    + assumption.
Qed.

Lemma for_rows_ok {A : Type} (body : Z -> list A -> result (list A))
  (f : Z -> list A -> list A) (seam : list Z) (out : list (list A)) :
  Forall2 (fun s row => body s row = Ok (f s row)) seam out ->
  for_rows seam body out = Ok (zip_with f seam out).
Proof.
  intros HF. unfold for_rows.
  exact (for_rows_gen body f (rest := out) [] [] eq_refl eq_refl HF).
Qed.

(** ** Seam Mutator: whole arrays *)

Lemma Forall2_zip {A B : Type} (P : A -> Prop) (R : B -> Prop)
  (xs : list A) (ys : list B) :
  length xs = length ys -> Forall P xs -> Forall R ys ->
  Forall2 (fun x y => P x /\ R y) xs ys.
Proof.
  revert ys. induction xs as [|x xs IH]; intros [|y ys] Hl HP HR;
    simpl in Hl; try discriminate; constructor.
  - inversion HP; inversion HR; auto.
  - inversion HP; inversion HR; subst. apply IH; auto.
Qed.

Lemma zip_with_length {A B C : Type} (f : A -> B -> C) (xs : list A) (ys : list B) :
  length (zip_with f xs ys) = Nat.min (length xs) (length ys).
Proof. unfold zip_with. now rewrite length_map, length_combine. Qed.

Lemma map_zip_with_ext {A B C D : Type} (f : A -> B -> C) (g : C -> D)
  (h : A -> B -> D) (xs : list A) (ys : list B) :
  Forall2 (fun x y => g (f x y) = h x y) xs ys ->
  map g (zip_with f xs ys) = zip_with h xs ys.
Proof.
  unfold zip_with. induction 1 as [|x y xs ys E _ IH]; simpl; [reflexivity|].
  now rewrite E, IH.
Qed.

Lemma zip_with_Forall {A B C : Type} (f : A -> B -> C) (P : C -> Prop)
  (xs : list A) (ys : list B) :
  Forall2 (fun x y => P (f x y)) xs ys -> Forall P (zip_with f xs ys).
Proof.
  unfold zip_with. induction 1; simpl; constructor; auto.
Qed.

Lemma wf2_hd {A : Type} (H W : nat) (m : list (list A)) :
  wf2 H W m -> 1 <= H -> length (hd [] m) = W.
Proof.
  intros [Hl HF] HH. destruct m as [|r m]; simpl in *; [lia|].
  now inversion HF.
Qed.

Lemma wf3_hd {A : Type} (H W C : nat) (c : list (list (list A))) :
  wf3 H W C c -> 1 <= H -> wf2 W C (hd [] c).
Proof.
  intros [Hl HF] HH. destruct c as [|r c]; simpl in *; [lia|].
  now inversion HF.
Qed.

Lemma Forall2_impl {A B : Type} (P R : A -> B -> Prop) (xs : list A) (ys : list B) :
  (forall x y, P x y -> R x y) -> Forall2 P xs ys -> Forall2 R xs ys.
Proof. intros HPR. induction 1; constructor; auto. Qed.

Lemma Forall_firstn {A : Type} (P : A -> Prop) (n : nat) (l : list A) :
  Forall P l -> Forall P (firstn n l).
Proof.
  intros HF. rewrite <- (firstn_skipn n l) in HF. now apply Forall_app in HF.
Qed.

Lemma Forall_skipn {A : Type} (P : A -> Prop) (n : nat) (l : list A) :
  Forall P l -> Forall P (skipn n l).
Proof.
  intros HF. rewrite <- (firstn_skipn n l) in HF. now apply Forall_app in HF.
Qed.

Lemma remove_rows_wf {A : Type} (H W C : nat) (seam : list Z)
  (c : list (list (list A))) :
  wf3 H W C c -> length seam = H -> in_bounds W seam ->
  wf3 H (W - 1) C (remove_rows seam c).
Proof.
  intros [Hl HF] Hs Hb. split.
  - unfold remove_rows. rewrite zip_with_length. lia.
  - apply zip_with_Forall.
    pose proof (Forall2_zip (xs := seam) (ys := c) ltac:(lia) Hb HF) as HZ.
    eapply Forall2_impl; [| exact HZ].
    simpl. intros s row [Hsb [Hrl Hrf]]. split.
    + rewrite remove_at_length; lia.
    + unfold remove_at. apply Forall_app. split.
      * now apply Forall_firstn.
      * now apply Forall_skipn.
Qed.

Lemma remove_seam_core (image : ndarray) (H W C : nat)
  (c : list (list (list Q))) (seam : list Z) :
  match tensor_of image with
  | T2 m => Ok (expand_dims m)
  | T3 c => Ok c
  | _ => Raise ValueError
  end = Ok c ->
  wf3 H W C c -> 1 <= H -> length seam = H -> in_bounds W seam ->
  remove_seam image seam
  = Ok (mkarr (dtype_of image) (squeeze3 H (W - 1) C (remove_rows seam c))).
Proof.
  intros Hc Hwf HH Hs Hb. unfold remove_seam. rewrite Hc. simpl bind.
  assert (HW1 : 1 <= W).
  { destruct seam as [|s0 seam']; simpl in Hs; [lia|].
    inversion Hb; subst. lia. }
  pose proof (wf3_hd Hwf HH) as Hhd.
  assert (HW : length (hd [] c) = W) by apply Hhd.
  assert (HC : length (hd [] (hd [] c)) = C) by (apply (wf2_hd Hhd); lia).
  destruct Hwf as [Hl HF]. rewrite Hl, HW, HC.
  pose proof (Forall2_zip (xs := seam) (ys := c) ltac:(lia) Hb HF) as HZ.
  rewrite (for_rows_ok _ (fun s row => shifted (Z.to_nat s) row)).
  - simpl bind.
    rewrite (map_zip_with_ext _ _ (fun s row => remove_at (Z.to_nat s) row)).
    + fold (remove_rows seam c).
      unfold py_assert. simpl dtype_of.
      replace (dtype_eqb (dtype_of image) (dtype_of image)) with true
        by (now destruct (dtype_of image)).
      reflexivity.
    + eapply Forall2_impl; [| exact HZ]. simpl. intros s row [Hsb [Hrl _]].
      rewrite <- Hrl. apply remove_row_cut. lia.
  - eapply Forall2_impl; [| exact HZ]. simpl. intros s row [Hsb [Hrl _]].
    rewrite <- Hrl. rewrite <- (Z2Nat.id s) at 1 2 by lia.
    apply remove_row_assign. lia.
Qed.

Lemma Forall2_map_r {A B C : Type} (P : A -> C -> Prop) (g : B -> C)
  (xs : list A) (ys : list B) :
  Forall2 (fun x y => P x (g y)) xs ys -> Forall2 P xs (map g ys).
Proof. induction 1; simpl; constructor; auto. Qed.

Lemma zip_with_map_r {A B C D : Type} (f : A -> C -> D) (g : B -> C)
  (xs : list A) (ys : list B) :
  zip_with f xs (map g ys) = zip_with (fun x y => f x (g y)) xs ys.
Proof.
  unfold zip_with. revert ys. induction xs as [|x xs IH]; intros [|y ys]; simpl; auto.
  now rewrite IH.
Qed.

Lemma zip_with_ext {A B C : Type} (f g : A -> B -> C) (xs : list A) (ys : list B) :
  Forall2 (fun x y => f x y = g x y) xs ys -> zip_with f xs ys = zip_with g xs ys.
Proof.
  unfold zip_with. induction 1 as [|x y xs ys E _ IH]; simpl; [reflexivity|].
  now rewrite E, IH.
Qed.

Lemma dup_rows_wf {A : Type} (H W C : nat) (seam : list Z)
  (c : list (list (list A))) :
  wf3 H W C c -> length seam = H -> in_bounds W seam ->
  wf3 H (W + 1) C (dup_rows seam c).
Proof.
  intros [Hl HF] Hs Hb. split.
  - unfold dup_rows. rewrite zip_with_length. lia.
  - apply zip_with_Forall.
    pose proof (Forall2_zip (xs := seam) (ys := c) ltac:(lia) Hb HF) as HZ.
    eapply Forall2_impl; [| exact HZ].
    simpl. intros s row [Hsb [Hrl Hrf]]. split.
    + rewrite dup_at_length; lia.
    + unfold dup_at. apply Forall_app. split.
      * now apply Forall_firstn.
      * now apply Forall_skipn.
Qed.

Lemma duplicate_seam_spec (dt : dtype) (H W C : nat)
  (c : list (list (list Q))) (seam : list Z) :
  wf3 H W C c -> 1 <= H -> length seam = H -> in_bounds W seam ->
  duplicate_seam (mkarr dt (T3 c)) seam = Ok (mkarr float64 (T3 (dup_rows seam c))).
Proof.
  intros Hwf HH Hs Hb. unfold duplicate_seam, unpack3. simpl bind.
  pose proof (wf3_hd Hwf HH) as Hhd.
  assert (HW : length (hd [] c) = W) by apply Hhd.
  destruct Hwf as [Hl HF]. rewrite HW.
  pose proof (Forall2_zip (xs := seam) (ys := c) ltac:(lia) Hb HF) as HZ.
  rewrite (for_rows_ok _ (fun s row => dup_at (Z.to_nat s) (firstn W row))).
  - simpl bind. rewrite zip_with_map_r. unfold dup_rows.
    do 3 f_equal. apply zip_with_ext.
    eapply Forall2_impl; [| exact HZ]. simpl. intros s row [_ [Hrl _]].
    rewrite <- Hrl. replace (length row) with (length row + 0) by lia.
    rewrite firstn_app_2. simpl. now rewrite app_nil_r.
  - apply Forall2_map_r.
    eapply Forall2_impl; [| exact HZ]. simpl. intros s row [Hsb [Hrl _]].
    rewrite <- Hrl. replace (length row) with (length row + 0) at 3 by lia.
    rewrite firstn_app_2. simpl firstn. rewrite app_nil_r.
    rewrite <- (Z2Nat.id s) at 1 2 by lia.
    apply dup_row. lia.
Qed.

(** Reading the cells of a row after removal or duplication. *)
Lemma remove_at_nth {A : Type} (s j : nat) (row : list A) :
  s < length row ->
  nth_error (remove_at s row) j
  = if j <? s then nth_error row j else nth_error row (S j).
Proof.
  intros Hs. unfold remove_at. destruct (Nat.ltb_spec j s) as [Hj|Hj].
  - rewrite nth_error_app1 by (rewrite length_firstn; lia).
    rewrite nth_error_firstn.
    now destruct (Nat.ltb_spec j s); [|lia].
  - rewrite nth_error_app2 by (rewrite length_firstn; lia).
    rewrite length_firstn, nth_error_skipn. f_equal. lia.
Qed.

Lemma dup_at_nth {A : Type} (s j : nat) (row : list A) :
  s < length row ->
  nth_error (dup_at s row) j
  = if j <=? s then nth_error row j else nth_error row (j - 1).
Proof.
  intros Hs. unfold dup_at. destruct (Nat.leb_spec j s) as [Hj|Hj].
  - rewrite nth_error_app1 by (rewrite length_firstn; lia).
    rewrite nth_error_firstn.
    now destruct (Nat.ltb_spec j (S s)); [|lia].
  - rewrite nth_error_app2 by (rewrite length_firstn; lia).
    rewrite length_firstn, nth_error_skipn. f_equal. lia.
Qed.

(** ** Cost Accumulator: the row recurrence behind the loop *)

Unset Implicit Arguments.

Lemma pad_length (r : list xfloat) : length (pad r) = length r + 2.
Proof. unfold pad. simpl. rewrite length_app. simpl. lia. Qed.

Lemma slice_length {A : Type} (a b : nat) (l : list A) :
  a <= b <= length l -> length (slice (Z.of_nat a) (Z.of_nat b) l) = b - a.
Proof.
  intros Hab. rewrite slice_nat, length_firstn, length_skipn. lia.
Qed.

Lemma columns3_length {A : Type} (s0 s1 s2 : list A) (W : nat) :
  length s0 = W -> length s1 = W -> length s2 = W ->
  length (columns3 s0 s1 s2) = W.
Proof.
  intros H0 H1 H2. unfold columns3. rewrite length_map, !length_combine. lia.
Qed.

Lemma stack_lengths (W : nat) (prev : list xfloat) :
  length prev = W ->
  length (slice 0 (Z.of_nat W) (pad prev)) = W
  /\ length (slice 1 (Z.of_nat W + 1) (pad prev)) = W
  /\ length (slice 2 (Z.of_nat W + 2) (pad prev)) = W.
Proof.
  intros Hp.
  change 0%Z with (Z.of_nat 0). change 1%Z with (Z.of_nat 1).
  change 2%Z with (Z.of_nat 2). rewrite <- !Nat2Z.inj_add.
  rewrite !slice_length by (rewrite pad_length; lia). lia.
Qed.

Lemma cost_step_lengths (W : nat) (prev : list xfloat) (e : list Q) :
  length prev = W -> length e = W ->
  length (fst (cost_step W prev e)) = W /\ length (snd (cost_step W prev e)) = W.
Proof.
  intros Hp He. destruct (stack_lengths W prev Hp) as (H0 & H1 & H2).
  unfold cost_step, amin_axis0, argmin_axis0. simpl. split.
  - rewrite zip_with_length, !length_map, (columns3_length _ _ _ W H0 H1 H2). lia.
  - now rewrite !length_map, (columns3_length _ _ _ W H0 H1 H2).
Qed.

Lemma cost_scan_wf (W : nat) (es : list (list Q)) :
  Forall (fun e => length e = W) es ->
  forall prev, length prev = W ->
  Forall (fun r => length (fst r) = W /\ length (snd r) = W) (cost_scan W prev es).
Proof.
  induction 1 as [|e es He _ IH]; intros prev Hp; simpl; constructor.
  - now apply cost_step_lengths.
  - apply IH. now apply cost_step_lengths.
Qed.

Lemma cost_scan_length (W : nat) (es : list (list Q)) (prev : list xfloat) :
  length (cost_scan W prev es) = length es.
Proof. revert prev. induction es; intros; simpl; auto. Qed.

Lemma pad_assign (W : nat) (z new : list xfloat) :
  length z = W -> length new = W ->
  assign_slice 1 (Z.of_nat W + 1) (pad z) new = Ok (pad new).
Proof.
  intros Hz Hn. change 1%Z with (Z.of_nat 1) at 1. 
  replace (Z.of_nat W + 1)%Z with (Z.of_nat (W + 1)) by lia.
  rewrite assign_slice_nat.
  - unfold pad. simpl firstn. replace (W + 1) with (S W) by lia.
    simpl skipn. rewrite skipn_app, Hz, Nat.sub_diag.
    rewrite skipn_all2 by lia. reflexivity.
  - rewrite pad_length. lia.
  - lia.
Qed.

Lemma pad_unslice (W : nat) (r : list xfloat) :
  length r = W -> slice 1 (Z.of_nat W + 1) (pad r) = r.
Proof.
  intros Hr. change 1%Z with (Z.of_nat 1) at 1.
  replace (Z.of_nat W + 1)%Z with (Z.of_nat (W + 1)) by lia.
  rewrite slice_nat, pad_length, Hr.
  replace (Nat.min (W + 2) 1) with 1 by lia.
  replace (Nat.min (W + 2) (W + 1) - 1) with W by lia.
  unfold pad. simpl skipn. rewrite <- Hr at 1.
  replace (length r) with (length r + 0) by lia.
  rewrite firstn_app_2. simpl. now rewrite app_nil_r.
Qed.

Section CostLoop.

Variable energy : list (list Q).
Variable W : nat.

Let body := fun (i : nat) (st : cost_t * paths_t) =>
  let (cost_padded, paths) := st in
  prev <- item cost_padded (Z.of_nat i - 1) ;;
  let stack0 := slice 0 (Z.of_nat W) prev in
  let stack1 := slice 1 (Z.of_nat W + 1) prev in
  let stack2 := slice 2 (Z.of_nat W + 2) prev in
  ei <- item energy (Z.of_nat i) ;;
  row <- item cost_padded (Z.of_nat i) ;;
  row' <- assign_slice 1 (Z.of_nat W + 1) row
            (zip_with xadd (amin_axis0 stack0 stack1 stack2) (map Fin ei)) ;;
  Ok (upd i row' cost_padded,
      upd i (map (fun k => Z.of_nat k - 1)%Z
               (argmin_axis0 stack0 stack1 stack2)) paths).

Lemma cost_body_step (i : nat) (dc rc : cost_t) (dp rp : paths_t)
  (de es : list (list Q)) (prev z : list xfloat) (zp : list Z) (e : list Q) :
  energy = de ++ e :: es ->
  length de = i -> length dp = i -> S (length dc) = i ->
  length prev = W -> length z = W -> length e = W ->
  body i (map pad dc ++ pad prev :: pad z :: rc, dp ++ zp :: rp)
  = Ok (map pad dc ++ pad prev :: pad (fst (cost_step W prev e)) :: rc,
        dp ++ snd (cost_step W prev e) :: rp).
Proof.
  intros He Hde Hdp Hdc Hp Hz Hel. unfold body.
  replace (Z.of_nat i - 1)%Z with (Z.of_nat (length (map pad dc)))
    by (rewrite length_map; lia).
  rewrite item_app_mid. cbn [bind].
  rewrite He, <- Hde, item_app_mid. cbn [bind].
  replace (map pad dc ++ pad prev :: pad z :: rc)
    with ((map pad dc ++ [pad prev]) ++ pad z :: rc)
    by (now rewrite <- app_assoc).
  replace (length de) with (length (map pad dc ++ [pad prev]))
    by (rewrite length_app, length_map; simpl; lia).
  rewrite item_app_mid. cbn [bind].
  pose proof (cost_step_lengths W prev e Hp Hel) as [Hc1 Hc2].
  change (zip_with xadd _ (map Fin e)) with (fst (cost_step W prev e)).
  rewrite (pad_assign W) by assumption.
  cbn [bind]. rewrite upd_app_mid.
  replace (length (map pad dc ++ [pad prev])) with (length dp)
    by (rewrite length_app, length_map; simpl; lia).
  rewrite upd_app_mid. rewrite <- app_assoc. reflexivity.
Qed.

Lemma for_each_cons {S X : Type} (x : X) (xs : list X)
  (f : X -> S -> result S) (s : S) :
  for_each (x :: xs) f s = bind (f x s) (for_each xs f).
Proof. reflexivity. Qed.

Lemma cost_loop :
  forall (es de : list (list Q)) (dc : cost_t) (dp : paths_t) (prev : list xfloat),
    energy = de ++ es ->
    length de = S (length dc) -> length dp = S (length dc) ->
    length prev = W -> Forall (fun e => length e = W) es ->
    for_each (seq (S (length dc)) (length es)) body
      (map pad (dc ++ [prev]) ++ repeat (pad (repeat (Fin 0%Q) W)) (length es),
       dp ++ repeat (repeat 0%Z W) (length es))
    = Ok (map pad (dc ++ [prev] ++ map fst (cost_scan W prev es)),
          dp ++ map snd (cost_scan W prev es)).
Proof.
  induction es as [|e es IH]; intros de dc dp prev He Hde Hdp Hp HF.
  - simpl. now rewrite !app_nil_r.
  - inversion HF as [|e' es' Hel HF']; subst e' es'.
    change (length (e :: es)) with (S (length es)).
    change (seq (S (length dc)) (S (length es)))
      with (S (length dc) :: seq (S (S (length dc))) (length es)).
    rewrite for_each_cons.
    change (repeat (pad (repeat (Fin 0%Q) W)) (S (length es)))
      with (pad (repeat (Fin 0%Q) W) :: repeat (pad (repeat (Fin 0%Q) W)) (length es)).
    change (repeat (repeat 0%Z W) (S (length es)))
      with (repeat 0%Z W :: repeat (repeat 0%Z W) (length es)).
    rewrite map_app. change (map pad [prev]) with [pad prev].
    rewrite <- app_assoc. change ([pad prev] ++ ?l) with (pad prev :: l).
    rewrite (cost_body_step (S (length dc)) dc _ dp _ de es prev _ _ e);
      auto using repeat_length.
    cbn [bind].
    specialize (IH (de ++ [e]) (dc ++ [prev]) (dp ++ [snd (cost_step W prev e)])
                  (fst (cost_step W prev e))).
    pose proof (cost_step_lengths W prev e Hp Hel) as [Hc1 Hc2].
    rewrite !length_app in IH. cbn [length] in IH.
    replace (length dc + 1) with (S (length dc)) in IH by lia.
    rewrite !map_app in IH. cbn [map] in IH.
    rewrite <- !app_assoc in IH. cbn [app] in IH.
    rewrite IH; auto; try lia.
    cbn [cost_scan map]. rewrite !map_app. cbn [map app]. reflexivity.
Qed.

End CostLoop.

(** ** The order on floats and the left-most minimum *)

Lemma xltb_iff (a b : xfloat) : xltb a b = true <-> xlt a b.
Proof.
  destruct a as [x|], b as [y|]; simpl; try tauto; try (split; congruence).
  - rewrite negb_true_iff. split.
    + intros E. apply Qnot_le_lt. intros Hle.
      apply Qle_bool_iff in Hle. congruence.
    + intros Hlt. destruct (Qle_bool y x) eqn:E; [|reflexivity].
      apply Qle_bool_iff in E. exfalso. now apply (Qlt_not_le x y).
  - split; [discriminate | tauto].
  - split; [discriminate | tauto].
Qed.

Lemma xltb_false_iff (a b : xfloat) : xltb a b = false <-> ~ xlt a b.
Proof.
  rewrite <- xltb_iff. destruct (xltb a b); split; congruence.
Qed.

Lemma xlt_irrefl (a : xfloat) : ~ xlt a a.
Proof. destruct a as [x|]; simpl; [apply Qlt_irrefl | tauto]. Qed.

Lemma xlt_trans (a b c : xfloat) : xlt a b -> xlt b c -> xlt a c.
Proof.
  destruct a as [x|], b as [y|], c as [z|]; simpl; try tauto.
  apply Qlt_trans.
Qed.

Lemma xlt_le_trans (a b c : xfloat) : xlt a b -> ~ xlt c b -> xlt a c.
Proof.
  destruct a as [x|], b as [y|], c as [z|]; simpl; try tauto.
  intros Hxy Hzy. apply Qnot_lt_le in Hzy. eapply Qlt_le_trans; eauto.
Qed.

Lemma min_scan_spec :
  forall (l pre : list xfloat) (best : xfloat) (bi : nat),
    bi < length pre -> nth bi pre Inf = best ->
    (forall k, k < length pre -> ~ xlt (nth k pre Inf) best) ->
    (forall k, k < bi -> xlt best (nth k pre Inf)) ->
    leftmost_argmin (pre ++ l) (fst (min_scan best bi (length pre) l))
    /\ snd (min_scan best bi (length pre) l)
       = nth (fst (min_scan best bi (length pre) l)) (pre ++ l) Inf.
Proof.
  induction l as [|x t IH]; intros pre best bi Hbi Hbest Hmin Hleft.
  - simpl. rewrite app_nil_r. repeat split; auto.
    + intros k' Hk'. rewrite Hbest. auto.
    + intros k' Hk'. rewrite Hbest. auto.
  - cbn [min_scan].
    replace (pre ++ x :: t) with ((pre ++ [x]) ++ t) by (now rewrite <- app_assoc).
    replace (S (length pre)) with (length (pre ++ [x]))
      by (rewrite length_app; simpl; lia).
    assert (Hnth : forall k, k < length pre -> nth k (pre ++ [x]) Inf = nth k pre Inf)
      by (intros; now apply app_nth1).
    assert (Hx : nth (length pre) (pre ++ [x]) Inf = x)
      by (rewrite app_nth2, Nat.sub_diag; [reflexivity | lia]).
    destruct (xltb x best) eqn:E.
    + apply xltb_iff in E. apply IH.
      * rewrite length_app. simpl. lia.
      * exact Hx.
      * intros k Hk. rewrite length_app in Hk. simpl in Hk.
        destruct (Nat.eq_dec k (length pre)) as [->|Hne].
        -- rewrite Hx. apply xlt_irrefl.
        -- rewrite Hnth by lia. intros Hlt.
           apply (Hmin k ltac:(lia)). eapply xlt_trans; eauto.
      * intros k Hk. rewrite Hnth by lia.
        eapply xlt_le_trans; [exact E | apply Hmin; lia].
    + apply xltb_false_iff in E. apply IH.
      * rewrite length_app. simpl. lia.
      * rewrite Hnth by lia. exact Hbest.
      * intros k Hk. rewrite length_app in Hk. simpl in Hk.
        destruct (Nat.eq_dec k (length pre)) as [->|Hne].
        -- now rewrite Hx.
        -- rewrite Hnth by lia. apply Hmin. lia.
      * intros k Hk. rewrite Hnth by lia. now apply Hleft.
Qed.

Lemma argmin_amin_spec (l : list xfloat) :
  l <> [] ->
  leftmost_argmin l (fst (argmin_amin l))
  /\ snd (argmin_amin l) = nth (fst (argmin_amin l)) l Inf.
Proof.
  destruct l as [|x t]; [congruence|]. intros _. unfold argmin_amin.
  apply (min_scan_spec t [x] x 0); simpl; auto.
  - intros k Hk. replace k with 0 by lia. apply xlt_irrefl.
  - intros k Hk. lia.
Qed.

Lemma argmin_in_range (l : list xfloat) (e : Z) :
  argmin l = Ok e -> (0 <= e < Z.of_nat (length l))%Z.
Proof.
  destruct l as [|x t]; [discriminate|]. unfold argmin. intros E.
  injection E as <-.
  destruct (argmin_amin_spec (x :: t) ltac:(discriminate)) as [[Hk _] _].
  split; [lia | now apply Nat2Z.inj_lt].
Qed.

Lemma argmin_ok (l : list xfloat) :
  l <> [] -> exists e, argmin l = Ok e /\ (0 <= e < Z.of_nat (length l))%Z.
Proof.
  intros Hl. destruct l as [|x t]; [congruence|].
  eexists. split; [reflexivity|]. now apply argmin_in_range.
Qed.

(** ** Cost Accumulator: the candidates of a cell *)

Lemma pad_nth (prev : list xfloat) (k : nat) :
  nth k (pad prev) Inf = neighbour prev (Z.of_nat k - 1).
Proof.
  unfold pad, neighbour. destruct k as [|k].
  - reflexivity.
  - replace (Z.of_nat (S k) - 1)%Z with (Z.of_nat k) by lia.
    rewrite Nat2Z.id. cbn [nth].
    destruct (Nat.lt_ge_cases k (length prev)) as [Hk|Hk].
    + rewrite app_nth1 by assumption.
      destruct (Z.leb_spec 0 (Z.of_nat k)); [|lia].
      destruct (Z.ltb_spec (Z.of_nat k) (Z.of_nat (length prev))); [|lia].
      reflexivity.
    + destruct (Z.leb_spec 0 (Z.of_nat k)); [|lia].
      destruct (Z.ltb_spec (Z.of_nat k) (Z.of_nat (length prev))); [lia|].
      cbn [andb]. rewrite app_nth2 by assumption.
      destruct (k - length prev) as [|[|m]]; reflexivity.
Qed.

Lemma slice_nth {A : Type} (a b j : nat) (l : list A) (d : A) :
  a + j < b -> b <= length l ->
  nth j (slice (Z.of_nat a) (Z.of_nat b) l) d = nth (a + j) l d.
Proof.
  intros Hj Hb. apply nth_error_nth. rewrite slice_nat.
  replace (Nat.min (length l) b) with b by lia.
  replace (Nat.min (length l) a) with a by lia.
  rewrite nth_error_firstn.
  destruct (Nat.ltb_spec j (b - a)); [|lia].
  rewrite nth_error_skipn. apply nth_error_nth'. lia.
Qed.

Lemma columns3_nth {A : Type} (d : A) :
  forall (s0 s1 s2 : list A) (j : nat),
    j < length s0 -> j < length s1 -> j < length s2 ->
    nth j (columns3 s0 s1 s2) [] = [nth j s0 d; nth j s1 d; nth j s2 d].
Proof.
  unfold columns3.
  induction s0 as [|x0 s0 IH]; intros [|x1 s1] [|x2 s2] j H0 H1 H2;
    simpl in *; try lia.
  destruct j as [|j]; [reflexivity|]. apply IH; lia.
Qed.

Lemma stack_column (W : nat) (prev : list xfloat) (j : nat) :
  length prev = W -> j < W ->
  nth j (columns3 (slice 0 (Z.of_nat W) (pad prev))
           (slice 1 (Z.of_nat W + 1) (pad prev))
           (slice 2 (Z.of_nat W + 2) (pad prev))) []
  = candidates prev j.
Proof.
  intros Hp Hj. destruct (stack_lengths W prev Hp) as (H0 & H1 & H2).
  rewrite (columns3_nth Inf) by lia.
  change 0%Z with (Z.of_nat 0). change 1%Z with (Z.of_nat 1).
  change 2%Z with (Z.of_nat 2). rewrite <- !Nat2Z.inj_add.
  rewrite !slice_nth by (rewrite ?pad_length; lia).
  rewrite !pad_nth. unfold candidates.
  replace (Z.of_nat (0 + j) - 1)%Z with (Z.of_nat j - 1)%Z by lia.
  replace (Z.of_nat (1 + j) - 1)%Z with (Z.of_nat j) by lia.
  replace (Z.of_nat (2 + j) - 1)%Z with (Z.of_nat j + 1)%Z by lia.
  reflexivity.
Qed.

Lemma zip_with_nth {A B C : Type} (f : A -> B -> C) (dx : A) (dy : B) (d : C) :
  forall (xs : list A) (ys : list B) (j : nat),
    j < length xs -> j < length ys ->
    nth j (zip_with f xs ys) d = f (nth j xs dx) (nth j ys dy).
Proof.
  unfold zip_with.
  induction xs as [|x xs IH]; intros [|y ys] j Hx Hy; simpl in *; try lia.
  destruct j as [|j]; [reflexivity|]. apply IH; lia.
Qed.

Lemma map_nth_in {A B : Type} (f : A -> B) (l : list A) (j : nat) (d : A) (d' : B) :
  j < length l -> nth j (map f l) d' = f (nth j l d).
Proof.
  intros Hj. rewrite (nth_indep _ d' (f d)) by (now rewrite length_map).
  apply map_nth.
Qed.

Lemma cost_step_nth (W : nat) (prev : list xfloat) (e : list Q) (j : nat) :
  length prev = W -> length e = W -> j < W ->
  nth j (snd (cost_step W prev e)) 0%Z
  = (Z.of_nat (fst (argmin_amin (candidates prev j))) - 1)%Z
  /\ nth j (fst (cost_step W prev e)) Inf
     = xadd (snd (argmin_amin (candidates prev j))) (Fin (nth j e 0%Q)).
Proof.
  intros Hp He Hj. destruct (stack_lengths W prev Hp) as (H0 & H1 & H2).
  pose proof (columns3_length _ _ _ W H0 H1 H2) as Hc.
  unfold cost_step, argmin_axis0, amin_axis0. cbn [fst snd]. split.
  - rewrite (map_nth_in _ _ _ 0) by (rewrite length_map; lia).
    rewrite (map_nth_in _ _ _ []) by lia.
    now rewrite stack_column.
  - rewrite (zip_with_nth _ Inf (Fin 0%Q)) by (rewrite !length_map; lia).
    rewrite (map_nth_in _ _ _ []) by lia.
    rewrite (map_nth_in _ _ _ 0%Q) by lia.
    now rewrite stack_column.
Qed.

Lemma candidates_choice (prev : list xfloat) (j : nat) :
  Forall finite prev -> j < length prev ->
  let k := fst (argmin_amin (candidates prev j)) in
  k < 3
  /\ finite (snd (argmin_amin (candidates prev j)))
  /\ (0 <= Z.of_nat j + (Z.of_nat k - 1) < Z.of_nat (length prev))%Z.
Proof.
  intros Hfin Hj k.
  destruct (argmin_amin_spec (candidates prev j) ltac:(discriminate))
    as [(Hk & Hmin & _) Hv].
  fold k in Hk, Hmin, Hv. cbn [candidates length] in Hk.
  assert (Hmid : finite (neighbour prev (Z.of_nat j))).
  { unfold neighbour.
    destruct (Z.leb_spec 0 (Z.of_nat j)); [|lia].
    destruct (Z.ltb_spec (Z.of_nat j) (Z.of_nat (length prev))); [|lia].
    cbn [andb]. rewrite Nat2Z.id.
    apply (proj1 (Forall_forall _ _) Hfin). now apply nth_In. }
  assert (Hfk : finite (nth k (candidates prev j) Inf)).
  { specialize (Hmin 1 ltac:(simpl; lia)).
    change (nth 1 (candidates prev j) Inf) with (neighbour prev (Z.of_nat j)) in Hmin.
    destruct Hmid as [q Hq]. rewrite Hq in Hmin.
    destruct (nth k (candidates prev j) Inf) as [v|] eqn:E; [now exists v|].
    exfalso. apply Hmin. exact I. }
  split; [exact Hk|]. split; [now rewrite Hv|].
  destruct Hfk as [v Hv'].
  assert (Hnb : forall z, neighbour prev z = Fin v ->
                          (0 <= z < Z.of_nat (length prev))%Z).
  { intros z. unfold neighbour.
    destruct (Z.leb_spec 0 z); destruct (Z.ltb_spec z (Z.of_nat (length prev)));
      cbn [andb]; try discriminate. lia. }
  destruct k as [|[|[|k]]]; cbn [candidates nth] in Hv'; try lia;
    apply Hnb in Hv'; lia.
Qed.

(** ** Cost Accumulator: [compute_cost] along the width *)

Lemma argmin3_lt (col : list xfloat) :
  length col = 3 -> fst (argmin_amin col) < 3.
Proof.
  intros Hl. destruct col as [|x t]; [discriminate|].
  destruct (argmin_amin_spec (x :: t) ltac:(discriminate)) as [[Hk _] _].
  now rewrite Hl in Hk.
Qed.

Lemma columns3_cols {A : Type} (s0 s1 s2 : list A) :
  Forall (fun col => length col = 3) (columns3 s0 s1 s2).
Proof.
  unfold columns3. apply Forall_forall. intros col Hin.
  apply in_map_iff in Hin. destruct Hin as (p & <- & _). reflexivity.
Qed.

Lemma cost_step_dirs (W : nat) (prev : list xfloat) (e : list Q) :
  forallb dir_ok (snd (cost_step W prev e)) = true.
Proof.
  unfold cost_step, argmin_axis0. cbn [snd]. apply forallb_forall.
  intros d Hin. apply in_map_iff in Hin. destruct Hin as (k & <- & Hin).
  apply in_map_iff in Hin. destruct Hin as (col & <- & Hin).
  pose proof (proj1 (Forall_forall _ _) (columns3_cols _ _ _) col Hin) as Hl.
  pose proof (argmin3_lt col Hl) as Hk. unfold dir_ok.
  destruct (fst (argmin_amin col)) as [|[|[|k]]]; try lia; reflexivity.
Qed.

Lemma cost_scan_dirs (W : nat) (es : list (list Q)) :
  forall prev, forallb (forallb dir_ok) (map snd (cost_scan W prev es)) = true.
Proof.
  induction es as [|e es IH]; intros prev; [reflexivity|].
  cbn [cost_scan map forallb]. now rewrite cost_step_dirs, IH.
Qed.

Lemma path_rows_ok (W : nat) (e0 : list Q) (es : list (list Q)) :
  paths_ok (path_rows W e0 es) = true.
Proof.
  unfold paths_ok, path_rows. cbn [forallb].
  change (fun d : Z => ((d =? 1) || (d =? 0) || (d =? -1))%Z) with dir_ok.
  rewrite cost_scan_dirs, andb_true_r.
  apply forallb_forall. intros d Hin. apply repeat_spec in Hin. now subst.
Qed.

Lemma map_id_on {A : Type} (f : A -> A) (l : list A) :
  Forall (fun x => f x = x) l -> map f l = l.
Proof. induction 1 as [|x l E _ IH]; simpl; [reflexivity | now rewrite E, IH]. Qed.

Lemma cost_rows_wf (W : nat) (e0 : list Q) (es : list (list Q)) :
  Forall (fun e => length e = W) (e0 :: es) ->
  wf2 (S (length es)) W (cost_rows W e0 es)
  /\ wf2 (S (length es)) W (path_rows W e0 es).
Proof.
  intros HF. inversion HF as [|e' es' He0 Hes]; subst e' es'.
  pose proof (cost_scan_wf W es Hes (map Fin e0) ltac:(now rewrite length_map))
    as Hwf.
  unfold wf2, cost_rows, path_rows. cbn [length].
  rewrite !length_map, cost_scan_length. repeat split; auto.
  - constructor; [now rewrite length_map|].
    apply Forall_map. eapply Forall_impl; [|exact Hwf]. simpl. tauto.
  - constructor; [now rewrite repeat_length|].
    apply Forall_map. eapply Forall_impl; [|exact Hwf]. simpl. tauto.
Qed.

Lemma compute_cost_scan (image : ndarray) (W : nat) (e0 : list Q)
  (es : list (list Q)) :
  Forall (fun e => length e = W) (e0 :: es) ->
  compute_cost image (e0 :: es) 1 = Ok (cost_rows W e0 es, path_rows W e0 es).
Proof.
  intros HF. inversion HF as [|e' es' He0 Hes]; subst e' es'.
  unfold compute_cost. change (1 =? 0)%Z with false. cbv iota.
  change (hd [] (e0 :: es)) with e0. rewrite He0.
  change (length (e0 :: es)) with (S (length es)).
  change 0%Z with (Z.of_nat 0) at 1.
  rewrite (@item_nth _ (e0 :: es) 0 e0 eq_refl). cbn [bind].
  cbn [repeat upd map]. rewrite map_repeat.
  replace (S (length es) - 1) with (length es) by lia.
  pose proof (cost_loop (e0 :: es) W es [e0] [] [repeat 0%Z W] (map Fin e0)
                eq_refl eq_refl eq_refl ltac:(now rewrite length_map) Hes) as HL.
  match goal with
  | |- bind ?x _ = _ =>
      assert (E : x = Ok (map pad (cost_rows W e0 es), path_rows W e0 es))
        by exact HL;
      rewrite E
  end.
  cbn [bind].
  rewrite path_rows_ok. cbn [py_assert bind].
  rewrite map_map, map_id_on; [reflexivity|].
  destruct (cost_rows_wf W e0 es HF) as [[_ Hrows] _].
  eapply Forall_impl; [|exact Hrows]. intros r Hr. now apply pad_unslice.
Qed.

Lemma cost_scan_nth (W : nat) :
  forall (es : list (list Q)) (prev : list xfloat) (i : nat),
    i < length es ->
    nth i (cost_scan W prev es) ([], [])
    = cost_step W (nth i (prev :: map fst (cost_scan W prev es)) []) (nth i es []).
Proof.
  induction es as [|e es IH]; intros prev i Hi; simpl in Hi; [lia|].
  destruct i as [|i]; [reflexivity|].
  cbn [cost_scan nth map]. apply IH. lia.
Qed.

Lemma cost_rows_step (W : nat) (e0 : list Q) (es : list (list Q)) (i : nat) :
  1 <= i <= length es ->
  let prev := nth (i - 1) (cost_rows W e0 es) [] in
  let e := nth i (e0 :: es) [] in
  nth i (cost_rows W e0 es) [] = fst (cost_step W prev e)
  /\ nth i (path_rows W e0 es) [] = snd (cost_step W prev e).
Proof.
  intros Hi. destruct i as [|i]; [lia|].
  replace (S i - 1) with i by lia. cbn zeta.
  unfold cost_rows, path_rows. cbn [nth].
  rewrite (map_nth_in fst _ _ ([], [])) by (rewrite cost_scan_length; lia).
  rewrite (map_nth_in snd _ _ ([], [])) by (rewrite cost_scan_length; lia).
  rewrite cost_scan_nth by lia. split; reflexivity.
Qed.

Lemma cost_step_finite (W : nat) (prev : list xfloat) (e : list Q) :
  length prev = W -> length e = W -> Forall finite prev ->
  Forall finite (fst (cost_step W prev e)).
Proof.
  intros Hp He Hfin. apply Forall_nth. intros j d Hj.
  destruct (cost_step_lengths W prev e Hp He) as [Hl _]. rewrite Hl in Hj.
  rewrite (nth_indep _ d Inf) by lia.
  destruct (cost_step_nth W prev e j Hp He Hj) as [_ ->].
  destruct (candidates_choice prev j Hfin ltac:(lia)) as (_ & [q ->] & _).
  simpl. eexists. reflexivity.
Qed.

Lemma cost_scan_finite (W : nat) (es : list (list Q)) :
  Forall (fun e => length e = W) es ->
  forall prev, length prev = W -> Forall finite prev ->
  Forall (Forall finite) (map fst (cost_scan W prev es)).
Proof.
  induction 1 as [|e es He _ IH]; intros prev Hp Hfin; cbn [cost_scan map];
    constructor.
  - now apply cost_step_finite.
  - apply IH.
    + now apply cost_step_lengths.
    + now apply cost_step_finite.
Qed.

Lemma cost_rows_finite (W : nat) (e0 : list Q) (es : list (list Q)) :
  Forall (fun e => length e = W) (e0 :: es) ->
  Forall (Forall finite) (cost_rows W e0 es).
Proof.
  intros HF. inversion HF as [|e' es' He0 Hes]; subst e' es'.
  assert (Hf0 : Forall finite (map Fin e0)).
  { apply Forall_map, Forall_forall. intros q _. now exists q. }
  unfold cost_rows. constructor; [exact Hf0|].
  apply cost_scan_finite; auto. now rewrite length_map.
Qed.

(** The cells of the two grids returned by [compute_cost] along the width. *)
Lemma compute_cost_cells (image : ndarray) (H W : nat) (energy : list (list Q)) :
  wf2 H W energy -> 1 <= H ->
  exists (cost : cost_t) (paths : paths_t),
    compute_cost image energy 1 = Ok (cost, paths)
    /\ wf2 H W cost /\ wf2 H W paths
    /\ Forall (Forall finite) cost
    /\ nth 0 cost [] = map Fin (nth 0 energy [])
    /\ forall i j, 1 <= i < H -> j < W ->
         let cands := candidates (nth (i - 1) cost []) j in
         nth j (nth i paths []) 0%Z = (Z.of_nat (fst (argmin_amin cands)) - 1)%Z
         /\ nth j (nth i cost []) Inf
            = xadd (snd (argmin_amin cands)) (Fin (nth j (nth i energy []) 0%Q)).
Proof.
  intros [Hl HF] HH. destruct energy as [|e0 es]; simpl in Hl; [lia|].
  exists (cost_rows W e0 es), (path_rows W e0 es).
  destruct (cost_rows_wf W e0 es HF) as [Hwc Hwp].
  replace (S (length es)) with H in Hwc, Hwp by lia.
  refine (conj _ (conj Hwc (conj Hwp (conj _ (conj eq_refl _))))).
  - now apply compute_cost_scan.
  - now apply cost_rows_finite.
  - intros i j Hi Hj.
    destruct (cost_rows_step W e0 es i ltac:(lia)) as [Ec Ep].
    cbn zeta in Ec, Ep. cbn zeta. rewrite Ec, Ep.
    assert (Hprev : length (nth (i - 1) (cost_rows W e0 es) []) = W).
    { destruct Hwc as [Hlc Hrows].
      apply (proj1 (Forall_forall _ _) Hrows). apply nth_In. lia. }
    assert (Hei : length (nth i (e0 :: es) []) = W).
    { apply (proj1 (Forall_forall _ _) HF). apply nth_In. simpl. lia. }
    apply cost_step_nth; auto.
Qed.

(** ** Seam Tracer *)

Lemma item_in_range {A : Type} (l : list A) (z : Z) (d : A) :
  (0 <= z < Z.of_nat (length l))%Z -> item l z = Ok (nth (Z.to_nat z) l d).
Proof.
  intros Hz. rewrite <- (Z2Nat.id z) at 1 by lia.
  apply item_nth. apply nth_error_nth'. lia.
Qed.

Lemma nth_pred_last {A : Type} (l : list A) (d : A) :
  nth (length l - 1) l d = last l d.
Proof.
  induction l as [|x [|y t] IH]; try reflexivity.
  cbn [length] in *. replace (S (S (length t)) - 1) with (S (length t)) by lia.
  replace (S (length t) - 1) with (length t) in IH by lia.
  cbn [nth last] in *. exact IH.
Qed.

Section Backtrack.

Variables (H W : nat) (paths : paths_t).
Hypothesis Hwf : wf2 H W paths.
Hypothesis Hdirs : dirs_in_grid H W paths.

Let body := fun (i : nat) (seam : list Z) =>
  s <- item seam (Z.of_nat i + 1) ;;
  row <- item paths (Z.of_nat i + 1) ;;
  d <- item row s ;;
  Ok (upd i (s + d)%Z seam).

Lemma paths_row_length (i : nat) : i < H -> length (nth i paths []) = W.
Proof.
  intros Hi. destruct Hwf as [Hl HF].
  apply (proj1 (Forall_forall _ _) HF). apply nth_In. lia.
Qed.

Lemma backtrack_loop :
  forall (n : nat) (tail : list Z),
    n + length tail = H -> tail <> [] -> in_bounds W tail ->
    for_each (rev (seq 0 n)) body (repeat (-1)%Z n ++ tail)
    = Ok (extend paths n tail).
Proof.
  induction n as [|n IH]; intros tail Hlen Hne Hb; [reflexivity|].
  rewrite seq_S, rev_app_distr. cbn [rev app plus].
  rewrite for_each_cons. unfold body at 1.
  destruct tail as [|s t]; [congruence|]. cbn [length] in Hlen.
  assert (Hs : (0 <= s < Z.of_nat W)%Z) by now inversion Hb.
  (* seam[i+1] *)
  replace (Z.of_nat n + 1)%Z with (Z.of_nat (length (repeat (-1)%Z (S n))))
    by (rewrite repeat_length; lia).
  rewrite item_app_mid. cbn [bind]. rewrite repeat_length.
  (* paths[i+1, seam[i+1]] *)
  rewrite (item_in_range paths (Z.of_nat (S n)) [])
    by (destruct Hwf as [Hl _]; lia).
  cbn [bind]. rewrite Nat2Z.id.
  rewrite (item_in_range (nth (S n) paths []) s 0%Z)
    by (rewrite paths_row_length; lia).
  cbn [bind].
  (* seam[i] = ... *)
  replace (repeat (-1)%Z (S n)) with (repeat (-1)%Z n ++ [(-1)%Z])
    by (now rewrite <- repeat_cons).
  rewrite <- app_assoc. cbn [app].
  pose proof (upd_app_mid (repeat (-1)%Z n) (s :: t) (-1)%Z
                (s + nth (Z.to_nat s) (nth (S n) paths []) 0)%Z) as HU.
  rewrite repeat_length in HU. rewrite HU.
  rewrite IH.
  - reflexivity.
  - cbn [length]. lia.
  - discriminate.
  - constructor; [|exact Hb].
    destruct (Hdirs (S n) (Z.to_nat s) ltac:(lia) ltac:(lia)) as [_ Hin].
    cbn zeta in Hin. rewrite Z2Nat.id in Hin by lia. exact Hin.
Qed.

(** What [extend] builds: a seam that follows the arrows. *)
Definition follows (n : nat) (seam : list Z) : Prop :=
  forall k, S k < length seam ->
    let s := nth (S k) seam 0%Z in
    nth k seam 0%Z = (s + nth (Z.to_nat s) (nth (n + S k) paths []) 0)%Z.

Lemma extend_spec :
  forall (n : nat) (tail : list Z),
    n + length tail = H -> tail <> [] -> in_bounds W tail -> follows n tail ->
    length (extend paths n tail) = H
    /\ in_bounds W (extend paths n tail)
    /\ follows 0 (extend paths n tail)
    /\ nth (H - 1) (extend paths n tail) 0%Z = last tail 0%Z.
Proof.
  induction n as [|n IH]; intros tail Hlen Hne Hb Hf.
  - cbn [extend]. simpl in Hlen. repeat split; auto.
    rewrite <- Hlen. apply nth_pred_last.
  - cbn [extend]. destruct tail as [|s t]; [congruence|]. cbn [hd].
    cbn [length] in Hlen.
    assert (Hs : (0 <= s < Z.of_nat W)%Z) by now inversion Hb.
    set (s' := (s + nth (Z.to_nat s) (nth (S n) paths []) 0)%Z).
    destruct (IH (s' :: s :: t)) as (Hl & Hib & Hfo & Hla).
    + cbn [length]. lia.
    + discriminate.
    + constructor; [|exact Hb].
      destruct (Hdirs (S n) (Z.to_nat s) ltac:(lia) ltac:(lia)) as [_ Hin].
      cbn zeta in Hin. rewrite Z2Nat.id in Hin by lia. exact Hin.
    + intros k Hk. destruct k as [|k].
      * cbn [nth]. replace (n + 1) with (S n) by lia. reflexivity.
      * unfold follows in Hf. cbn [nth length] in *.
        specialize (Hf k ltac:(lia)). cbn zeta in Hf.
        rewrite Hf. replace (n + S (S k)) with (S (n + S k)) by lia. reflexivity.
    + repeat split; auto.
Qed.

End Backtrack.

Lemma forallb_in_bounds (W : nat) (seam : list Z) :
  in_bounds W seam ->
  forallb (fun s => (0 <=? s) && (s <? Z.of_nat W))%Z seam = true.
Proof.
  intros Hb. apply forallb_forall. intros s Hin.
  pose proof (proj1 (Forall_forall _ _) Hb s Hin) as Hs. cbv beta in Hs.
  apply andb_true_iff. split; [apply Z.leb_le | apply Z.ltb_lt]; lia.
Qed.

Lemma backtrack_seam_extend (H W : nat) (paths : paths_t) (end_ : Z) :
  wf2 H W paths -> 1 <= H -> dirs_in_grid H W paths ->
  (0 <= end_ < Z.of_nat W)%Z ->
  backtrack_seam paths end_ = Ok (extend paths (H - 1) [end_]).
Proof.
  intros Hwf HH Hdirs Hend. unfold backtrack_seam.
  pose proof (wf2_hd Hwf HH) as HW. destruct Hwf as [Hl HF]. rewrite Hl, HW.
  replace (Z.of_nat H - 1)%Z with (Z.of_nat (H - 1)) by lia.
  rewrite py_index_nat by lia. cbn [bind].
  assert (Hinit : upd (H - 1) end_ (repeat (-1)%Z H)
                  = repeat (-1)%Z (H - 1) ++ [end_]).
  { replace H with (S (H - 1)) at 2 by lia.
    replace (repeat (-1)%Z (S (H - 1))) with (repeat (-1)%Z (H - 1) ++ [(-1)%Z])
      by (now rewrite <- repeat_cons).
    pose proof (upd_app_mid (repeat (-1)%Z (H - 1)) [] (-1)%Z end_) as HU.
    now rewrite repeat_length in HU. }
  rewrite Hinit.
  assert (Hb : in_bounds W [end_]) by (constructor; [exact Hend | constructor]).
  rewrite (backtrack_loop H W paths (conj Hl HF) Hdirs (H - 1) [end_]);
    [| simpl; lia | discriminate | exact Hb].
  cbn [bind].
  destruct (extend_spec H W paths Hdirs (H - 1) [end_]) as (_ & Hib & _).
  - simpl. lia.
  - discriminate.
  - exact Hb.
  - intros k Hk. simpl in Hk. lia.
  - rewrite (forallb_in_bounds W _ Hib). reflexivity.
Qed.

Lemma compute_cost_dirs (image : ndarray) (H W : nat) (energy : list (list Q))
  (cost : cost_t) (paths : paths_t) :
  wf2 H W energy -> 1 <= H ->
  compute_cost image energy 1 = Ok (cost, paths) ->
  dirs_in_grid H W paths.
Proof.
  intros Hwf HH E.
  destruct (compute_cost_cells image H W energy Hwf HH)
    as (cost' & paths' & E' & Hwc & _ & Hfin & _ & Hcells).
  rewrite E in E'. injection E' as <- <-.
  intros i j Hi Hj. cbn zeta.
  destruct (Hcells i j Hi Hj) as [Hd _]. cbn zeta in Hd. rewrite Hd.
  destruct Hwc as [Hlc Hrows].
  assert (Hin : In (nth (i - 1) cost []) cost) by (apply nth_In; lia).
  pose proof (proj1 (Forall_forall _ _) Hrows _ Hin) as Hlen. cbv beta in Hlen.
  pose proof (proj1 (Forall_forall _ _) Hfin _ Hin) as Hf.
  destruct (candidates_choice (nth (i - 1) cost []) j Hf ltac:(lia))
    as (Hk & _ & Hrange).
  rewrite Hlen in Hrange. split; [lia | exact Hrange].
Qed.

Lemma backtrack_seam_spec (H W : nat) (paths : paths_t) (end_ : Z) :
  wf2 H W paths -> 1 <= H -> dirs_in_grid H W paths ->
  (0 <= end_ < Z.of_nat W)%Z ->
  exists seam,
    backtrack_seam paths end_ = Ok seam
    /\ length seam = H
    /\ nth (H - 1) seam 0%Z = end_
    /\ (forall i, S i < H ->
          nth i seam 0%Z
          = (nth (S i) seam 0 + nth (Z.to_nat (nth (S i) seam 0)) (nth (S i) paths []) 0)%Z)
    /\ (forall i, S i < H -> (Z.abs (nth i seam 0 - nth (S i) seam 0) <= 1)%Z)
    /\ in_bounds W seam.
Proof.
  intros Hwf HH Hdirs Hend.
  exists (extend paths (H - 1) [end_]).
  destruct (extend_spec H W paths Hdirs (H - 1) [end_]) as (Hl & Hib & Hfo & Hla).
  - simpl. lia.
  - discriminate.
  - constructor; [exact Hend | constructor].
  - intros k Hk. simpl in Hk. lia.
  - assert (Hstep : forall i, S i < H ->
              nth i (extend paths (H - 1) [end_]) 0%Z
              = (nth (S i) (extend paths (H - 1) [end_]) 0
                 + nth (Z.to_nat (nth (S i) (extend paths (H - 1) [end_]) 0))
                     (nth (S i) paths []) 0)%Z).
    { intros i Hi. apply (Hfo i). lia. }
    refine (conj _ (conj Hl (conj Hla (conj Hstep (conj _ Hib))))).
    + now apply (backtrack_seam_extend H W).
    + intros i Hi. rewrite (Hstep i Hi).
      set (s := nth (S i) (extend paths (H - 1) [end_]) 0%Z).
      assert (Hs : (0 <= s < Z.of_nat W)%Z).
      { apply (proj1 (Forall_forall _ _) Hib). apply nth_In. lia. }
      destruct (Hdirs (S i) (Z.to_nat s) ltac:(lia) ltac:(lia)) as [Hd _].
      cbn zeta in Hd. lia.
Qed.

(** ** Loops with an invariant *)

Lemma for_each_seq_inv {St : Type} (body : nat -> St -> result St)
  (P : nat -> St -> Prop) :
  forall (n a : nat) (s : St),
    P a s ->
    (forall i s, a <= i < a + n -> P i s -> exists s', body i s = Ok s' /\ P (1 + i) s') ->
    exists s', for_each (seq a n) body s = Ok s' /\ P (a + n) s'.
Proof.
  induction n as [|n IH]; intros a s HP Hstep.
  - exists s. rewrite Nat.add_0_r. split; [reflexivity | exact HP].
  - cbn [seq]. rewrite for_each_cons.
    destruct (Hstep a s ltac:(lia) HP) as (s1 & E1 & HP1). rewrite E1. cbn [bind].
    destruct (IH (S a) s1 HP1) as (s2 & E2 & HP2).
    + intros i s' Hi. apply Hstep. lia.
    + exists s2. split; [exact E2|]. now replace (a + S n) with (S a + n) by lia.
Qed.

Lemma nth_upd_eq {A : Type} (i : nat) (x d : A) (l : list A) :
  i < length l -> nth i (upd i x l) d = x.
Proof.
  revert i. induction l as [|h t IH]; intros [|i] Hi; simpl in *; try lia; auto.
  apply IH. lia.
Qed.

Lemma nth_upd_neq {A : Type} (i k : nat) (x d : A) (l : list A) :
  i <> k -> nth k (upd i x l) d = nth k l d.
Proof.
  revert i k. induction l as [|h t IH]; intros [|i] [|k] Hne; simpl; auto; try lia.
Qed.

Lemma Forall_upd {A : Type} (P : A -> Prop) (i : nat) (x : A) (l : list A) :
  P x -> Forall P l -> Forall P (upd i x l).
Proof.
  intros Hx. revert i. induction l as [|h t IH]; intros [|i] HF; simpl; auto;
    inversion HF; subst; constructor; auto.
Qed.

Lemma wf2_upd {A : Type} (H W i : nat) (row : list A) (m : list (list A)) :
  length row = W -> wf2 H W m -> wf2 H W (upd i row m).
Proof.
  intros Hr [Hl HF]. split; [now rewrite upd_length | now apply Forall_upd].
Qed.

Lemma wf2_nth {A : Type} (H W i : nat) (m : list (list A)) :
  wf2 H W m -> i < H -> length (nth i m []) = W.
Proof.
  intros [Hl HF] Hi. apply (proj1 (Forall_forall _ _) HF). apply nth_In. lia.
Qed.

Lemma item2_nat {A : Type} (H W i j : nat) (m : list (list A)) (d : A) :
  wf2 H W m -> i < H -> j < W ->
  item2 m (Z.of_nat i) (Z.of_nat j) = Ok (nth j (nth i m []) d).
Proof.
  intros Hwf Hi Hj. unfold item2.
  rewrite (item_in_range m (Z.of_nat i) []) by (destruct Hwf; lia).
  cbn [bind]. rewrite Nat2Z.id.
  rewrite (item_in_range _ (Z.of_nat j) d)
    by (rewrite (wf2_nth H W i m Hwf Hi); lia).
  now rewrite Nat2Z.id.
Qed.

Lemma argmin_axis0_dirs (s0 s1 s2 : list xfloat) :
  forallb dir_ok (map (fun k => Z.of_nat k - 1)%Z (argmin_axis0 s0 s1 s2)) = true.
Proof.
  unfold argmin_axis0. apply forallb_forall.
  intros d Hin. apply in_map_iff in Hin. destruct Hin as (k & <- & Hin).
  apply in_map_iff in Hin. destruct Hin as (col & <- & Hin).
  pose proof (proj1 (Forall_forall _ _) (columns3_cols _ _ _) col Hin) as Hl.
  pose proof (argmin3_lt col Hl) as Hk. unfold dir_ok.
  destruct (fst (argmin_amin col)) as [|[|[|k]]]; try lia; reflexivity.
Qed.

Lemma forallb_upd {A : Type} (f : A -> bool) (i : nat) (x : A) (l : list A) :
  f x = true -> forallb f l = true -> forallb f (upd i x l) = true.
Proof.
  intros Hx. revert i. induction l as [|h t IH]; intros [|i] HF; simpl in *; auto.
  - apply andb_true_iff in HF. destruct HF as [_ Ht]. now rewrite Hx.
  - apply andb_true_iff in HF. destruct HF as [Hh Ht]. now rewrite Hh, IH.
Qed.

(** ** Cost Accumulator, forward variant: the candidates of a cell *)

Lemma forward_column_ok (image : list (list Q)) (cost : cost_t)
  (H W i j : nat) (s0 s1 s2 : list xfloat) :
  wf2 H W image -> wf2 H W cost -> 2 <= W -> 1 <= i < H -> j < W ->
  let c := fwd_candidates image (nth (i - 1) cost []) W i j in
  forward_column image cost W (Z.of_nat i) (Z.of_nat j) (s0, s1, s2)
  = Ok (upd j (nth 0 c Inf) s0, upd j (nth 1 c Inf) s1, upd j (nth 2 c Inf) s2).
Proof.
  intros Hwi Hwc HW Hi Hj. cbn zeta.
  unfold forward_column, fwd_candidates.
  replace (Z.of_nat i - 1)%Z with (Z.of_nat (i - 1)) by lia.
  replace (Z.of_nat j + 1)%Z with (Z.of_nat (j + 1)) by lia.
  rewrite Nat2Z.id.
  destruct (Nat.eq_dec j 0) as [Hj0|Hj0];
    [|destruct (Nat.eq_dec j (W - 1)) as [HjW|HjW]].
  - (* left border *)
    subst j.
    destruct (Z.ltb_spec 0 (Z.of_nat 0)); [lia|].
    destruct (Z.eqb_spec (Z.of_nat 0) 0); [|lia].
    destruct (Z.eqb_spec (Z.of_nat 0) (Z.of_nat W - 1)); [lia|].
    cbn [andb bind Nat.ltb Nat.leb Nat.eqb].
    rewrite (item2_nat H W (i - 1) 0 cost Inf) by (auto; lia).
    rewrite (item2_nat H W (i - 1) (0 + 1) cost Inf) by (auto; lia).
    rewrite (item2_nat H W (i - 1) 0 image 0%Q) by (auto; lia).
    rewrite (item2_nat H W i (0 + 1) image 0%Q) by (auto; lia).
    reflexivity.
  - (* right border *)
    replace (Z.of_nat j - 1)%Z with (Z.of_nat (j - 1)) by lia.
    destruct (Z.ltb_spec (Z.of_nat j) (Z.of_nat W - 1)); [lia|].
    destruct (Z.eqb_spec (Z.of_nat j) 0); [lia|].
    destruct (Z.eqb_spec (Z.of_nat j) (Z.of_nat W - 1)); [|lia].
    rewrite andb_false_r.
    destruct (Nat.ltb_spec j (W - 1)); [lia|].
    destruct (Nat.eqb_spec j 0); [lia|].
    rewrite andb_false_r. cbn [bind].
    rewrite (item2_nat H W (i - 1) (j - 1) cost Inf) by (auto; lia).
    rewrite (item2_nat H W (i - 1) j image 0%Q) by (auto; lia).
    rewrite (item2_nat H W i (j - 1) image 0%Q) by (auto; lia).
    rewrite (item2_nat H W (i - 1) j cost Inf) by (auto; lia).
    reflexivity.
  - (* interior *)
    replace (Z.of_nat j - 1)%Z with (Z.of_nat (j - 1)) by lia.
    destruct (Z.ltb_spec 0 (Z.of_nat j)); [|lia].
    destruct (Z.ltb_spec (Z.of_nat j) (Z.of_nat W - 1)); [|lia].
    destruct (Z.eqb_spec (Z.of_nat j) 0); [lia|].
    destruct (Z.eqb_spec (Z.of_nat j) (Z.of_nat W - 1)); [lia|].
    destruct (Nat.ltb_spec 0 j); [|lia].
    destruct (Nat.ltb_spec j (W - 1)); [|lia].
    cbn [andb bind].
    rewrite (item2_nat H W (i - 1) (j - 1) cost Inf) by (auto; lia).
    rewrite (item2_nat H W (i - 1) j cost Inf) by (auto; lia).
    rewrite (item2_nat H W (i - 1) (j + 1) cost Inf) by (auto; lia).
    rewrite (item2_nat H W i (j + 1) image 0%Q) by (auto; lia).
    rewrite (item2_nat H W i (j - 1) image 0%Q) by (auto; lia).
    rewrite (item2_nat H W (i - 1) j image 0%Q) by (auto; lia).
    reflexivity.
Qed.

Lemma fwd_candidates_length (image : list (list Q)) (prev : list xfloat)
  (W i j : nat) : length (fwd_candidates image prev W i j) = 3.
Proof.
  unfold fwd_candidates.
  destruct ((0 <? j) && (j <? W - 1)); [reflexivity|].
  destruct (j =? 0); reflexivity.
Qed.

Lemma list3_eta {A : Type} (l : list A) (d : A) :
  length l = 3 -> [nth 0 l d; nth 1 l d; nth 2 l d] = l.
Proof.
  destruct l as [|a [|b [|c [|x t]]]]; simpl; intros E; try discriminate.
  reflexivity.
Qed.

(** The loop over the columns fills the three rows of [stack]. *)
Lemma forward_stack (image : list (list Q)) (cost : cost_t) (H W i : nat)
  (stack : stack_t) :
  wf2 H W image -> wf2 H W cost -> W <> 1 -> 1 <= i < H ->
  (let '(s0, s1, s2) := stack in
   length s0 = W /\ length s1 = W /\ length s2 = W) ->
  exists s0 s1 s2,
    for_each (seq 0 W)
      (fun j st => forward_column image cost W (Z.of_nat i) (Z.of_nat j) st) stack
    = Ok (s0, s1, s2)
    /\ length s0 = W /\ length s1 = W /\ length s2 = W
    /\ forall j, j < W ->
         nth j (columns3 s0 s1 s2) []
         = fwd_candidates image (nth (i - 1) cost []) W i j.
Proof.
  intros Hwi Hwc HW Hi Hst.
  pose (P := fun (n : nat) (st : stack_t) =>
    let '(s0, s1, s2) := st in
    length s0 = W /\ length s1 = W /\ length s2 = W
    /\ forall j, j < n ->
         [nth j s0 Inf; nth j s1 Inf; nth j s2 Inf]
         = fwd_candidates image (nth (i - 1) cost []) W i j).
  destruct (for_each_seq_inv
              (fun j st => forward_column image cost W (Z.of_nat i) (Z.of_nat j) st)
              P W 0 stack) as (st' & E & HP).
  - destruct stack as [[s0 s1] s2]. destruct Hst as (H0 & H1 & H2).
    repeat split; auto. intros j Hj. lia.
  - intros j [[s0 s1] s2] Hj (H0 & H1 & H2 & Hcols).
    rewrite (forward_column_ok image cost H W i j s0 s1 s2) by (auto; lia).
    eexists. split; [reflexivity|]. cbn [P].
    rewrite !upd_length. repeat split; auto.
    intros k Hk. destruct (Nat.eq_dec k j) as [->|Hne].
    + rewrite !nth_upd_eq by lia. apply list3_eta, fwd_candidates_length.
    + rewrite !nth_upd_neq by lia. apply Hcols. lia.
  - destruct st' as [[s0 s1] s2]. destruct HP as (H0 & H1 & H2 & Hcols).
    exists s0, s1, s2. repeat split; auto.
    intros j Hj. rewrite (columns3_nth Inf) by lia. apply Hcols. lia.
Qed.

Lemma forward_row0 (image : list (list Q)) (H W : nat) (e0 : list Q)
  (cost : cost_t) :
  wf2 H W image -> wf2 H W cost -> 1 <= H -> length e0 = W ->
  nth 0 cost [] = map Fin e0 ->
  exists cost',
    for_each (seq 0 W)
      (fun j cost =>
         if (0 <? j) && (j <? W - 1) then
           c <- item2 cost 0%Z (Z.of_nat j) ;;
           right <- item2 image 0%Z (Z.of_nat j + 1) ;;
           left <- item2 image 0%Z (Z.of_nat j - 1) ;;
           row <- item cost 0%Z ;;
           Ok (upd 0 (upd j (xadd c (Fin (Qabs (right - left)))) row) cost)
         else Ok cost)
      cost = Ok cost'
    /\ wf2 H W cost'
    /\ (forall j, j < W -> nth j (nth 0 cost' []) Inf = fwd_row0 image e0 W j)
    /\ (forall r, 1 <= r -> nth r cost' [] = nth r cost []).
Proof.
  intros Hwi Hwc HH He0 Hrow.
  pose (P := fun (n : nat) (c : cost_t) =>
    wf2 H W c
    /\ (forall j, j < W ->
          nth j (nth 0 c []) Inf
          = if j <? n then fwd_row0 image e0 W j else Fin (nth j e0 0%Q))
    /\ (forall r, 1 <= r -> nth r c [] = nth r cost [])).
  destruct (for_each_seq_inv
              (fun j cost =>
                 if (0 <? j) && (j <? W - 1) then
                   c <- item2 cost 0%Z (Z.of_nat j) ;;
                   right <- item2 image 0%Z (Z.of_nat j + 1) ;;
                   left <- item2 image 0%Z (Z.of_nat j - 1) ;;
                   row <- item cost 0%Z ;;
                   Ok (upd 0 (upd j (xadd c (Fin (Qabs (right - left)))) row) cost)
                 else Ok cost)
              P W 0 cost) as (cost' & E & Hw & Hcells & Hrest).
  - repeat split; try apply Hwc; auto.
    intros j Hj. rewrite Hrow. cbn [Nat.ltb Nat.leb].
    now rewrite (map_nth_in Fin e0 j 0%Q Inf) by lia.
  - intros j c Hj (Hw & Hcells & Hrest).
    destruct ((0 <? j) && (j <? W - 1)) eqn:Eint.
    + apply andb_true_iff in Eint. destruct Eint as [E1 E2].
      apply Nat.ltb_lt in E1, E2.
      change 0%Z with (Z.of_nat 0).
      replace (Z.of_nat j + 1)%Z with (Z.of_nat (j + 1)) by lia.
      replace (Z.of_nat j - 1)%Z with (Z.of_nat (j - 1)) by lia.
      rewrite (item2_nat H W 0 j c Inf) by (auto; lia).
      rewrite (item2_nat H W 0 (j + 1) image 0%Q) by (auto; lia).
      rewrite (item2_nat H W 0 (j - 1) image 0%Q) by (auto; lia).
      rewrite (item_in_range c (Z.of_nat 0) []) by (destruct Hw; lia).
      cbn [bind]. rewrite Nat2Z.id.
      eexists. split; [reflexivity|].
      assert (Hl0 : length (nth 0 c []) = W) by (apply (wf2_nth H W); auto; lia).
      split; [|split].
      * apply wf2_upd; auto. now rewrite upd_length.
      * intros k Hk. rewrite nth_upd_eq by (destruct Hw; lia).
        destruct (Nat.eq_dec k j) as [->|Hne].
        -- rewrite nth_upd_eq by lia. rewrite (Hcells j Hk).
           destruct (Nat.ltb_spec j j); [lia|].
           destruct (Nat.ltb_spec j (1 + j)); [|lia].
           unfold fwd_row0.
           destruct (Nat.ltb_spec 0 j); [|lia].
           destruct (Nat.ltb_spec j (W - 1)); [|lia]. reflexivity.
        -- rewrite nth_upd_neq by lia. rewrite (Hcells k Hk).
           destruct (Nat.ltb_spec k j); destruct (Nat.ltb_spec k (1 + j));
             try lia; reflexivity.
      * intros r Hr. rewrite nth_upd_neq by lia. now apply Hrest.
    + exists c. split; [reflexivity|]. split; [exact Hw|]. split; [|exact Hrest].
      intros k Hk. rewrite (Hcells k Hk).
      destruct (Nat.ltb_spec k j); destruct (Nat.ltb_spec k (1 + j));
        try lia; try reflexivity.
      assert (k = j) by lia. subst k. unfold fwd_row0. now rewrite Eint.
  - exists cost'. repeat split; try apply Hw; auto.
    intros j Hj. rewrite (Hcells j Hj).
    destruct (Nat.ltb_spec j (0 + W)); [reflexivity | lia].
Qed.

Lemma item_0 {A : Type} (l : list A) (d : A) :
  1 <= length l -> item l 0%Z = Ok (nth 0 l d).
Proof. intros Hl. apply (item_in_range l 0%Z d). lia. Qed.

Lemma compute_forward_cost_cells (rgb2gray : ndarray -> result (list (list Q)))
  (image : ndarray) (gray energy : list (list Q)) (H W : nat) :
  rgb2gray image = Ok gray ->
  wf2 H W gray -> wf2 H W energy -> 1 <= H -> H = 1 \/ W <> 1 ->
  exists (cost : cost_t) (paths : paths_t),
    compute_forward_cost rgb2gray image energy = Ok (cost, paths)
    /\ wf2 H W cost /\ wf2 H W paths
    /\ (forall j, j < W ->
          nth j (nth 0 cost []) Inf = fwd_row0 gray (nth 0 energy []) W j)
    /\ fwd_cells gray energy H W H cost paths.
Proof.
  intros Eg Hwg Hwe HH HW. unfold compute_forward_cost. rewrite Eg. cbn [bind].
  pose proof (wf2_hd Hwg HH) as HWg. destruct Hwg as [Hlg HFg].
  rewrite Hlg, HWg.
  assert (Hwz : wf2 H W (repeat (repeat (Fin 0%Q) W) H)).
  { split; [apply repeat_length|]. apply Forall_forall. intros r Hr.
    apply repeat_spec in Hr. subst r. apply repeat_length. }
  assert (Hwzp : wf2 H W (repeat (repeat 0%Z W) H)).
  { split; [apply repeat_length|]. apply Forall_forall. intros r Hr.
    apply repeat_spec in Hr. subst r. apply repeat_length. }
  assert (He0 : length (nth 0 energy []) = W) by (apply (wf2_nth H W); auto).
  rewrite (item_0 energy []) by (destruct Hwe; lia).
  cbn [bind].
  rewrite (item_0 (repeat (repeat (Fin 0%Q) W) H) [])
    by (rewrite repeat_length; lia).
  cbn [bind]. change 0%Z with (Z.of_nat 0) at 1.
  rewrite assign_slice_nat;
    [| rewrite (wf2_nth H W 0 _ Hwz) by lia; lia
     | rewrite length_map; lia].
  cbn [bind firstn app].
  rewrite skipn_all2 by (rewrite (wf2_nth H W 0 _ Hwz) by lia; lia).
  rewrite app_nil_r.
  set (cost0 := upd 0 (map Fin (nth 0 energy [])) (repeat (repeat (Fin 0%Q) W) H)).
  assert (Hw0 : wf2 H W cost0)
    by (apply wf2_upd; auto; now rewrite length_map).
  assert (Hr0 : nth 0 cost0 [] = map Fin (nth 0 energy []))
    by (unfold cost0; apply nth_upd_eq; rewrite repeat_length; lia).
  destruct (forward_row0 gray H W (nth 0 energy []) cost0 (conj Hlg HFg) Hw0 HH
              He0 Hr0) as (cost1 & E1 & Hw1 & Hrow0 & _).
  rewrite E1. cbn [bind].
  set (paths0 := upd 0 (repeat 0%Z W) (repeat (repeat 0%Z W) H)).
  assert (Hwp0 : wf2 H W paths0)
    by (apply wf2_upd; auto; apply repeat_length).
  assert (Hpok : paths_ok paths0 = true).
  { unfold paths_ok, paths0. apply forallb_upd.
    - apply forallb_forall. intros d Hd. apply repeat_spec in Hd. now subst.
    - apply forallb_forall. intros r Hr. apply repeat_spec in Hr. subst r.
      apply forallb_forall. intros d Hd. apply repeat_spec in Hd. now subst. }
  pose (R := fun (n : nat) (st : cost_t * paths_t * stack_t) =>
    let '(cost, paths, stack) := st in
    wf2 H W cost /\ wf2 H W paths /\ paths_ok paths = true
    /\ (let '(s0, s1, s2) := stack in
        length s0 = W /\ length s1 = W /\ length s2 = W)
    /\ nth 0 cost [] = nth 0 cost1 []
    /\ fwd_cells gray energy H W n cost paths).
  match goal with
  | |- context [for_each (seq 1 (H - 1)) ?body ?init] =>
      destruct (for_each_seq_inv body R (H - 1) 1 init) as (st & E2 & HR)
  end.
  - cbn [R]. rewrite !repeat_length.
    refine (conj Hw1 (conj Hwp0 (conj Hpok (conj _ (conj eq_refl _))))).
    + auto.
    + intros i j Hi. lia.
  - intros i [[cost paths] stack] Hi (Hwc & Hwp & Hok & Hst & H0 & Hcells).
    destruct HW as [HW|HW]; [lia|].
    destruct (forward_stack gray cost H W i stack (conj Hlg HFg) Hwc HW
                ltac:(lia) Hst) as (s0 & s1 & s2 & Es & L0 & L1 & L2 & Hcols).
    rewrite Es. cbn [bind].
    rewrite (item_in_range energy (Z.of_nat i) []) by (destruct Hwe; lia).
    cbn [bind]. rewrite Nat2Z.id.
    eexists. split; [reflexivity|]. cbn [R].
    pose proof (columns3_length s0 s1 s2 W L0 L1 L2) as Hc.
    assert (Hei : length (nth i energy []) = W)
      by (apply (wf2_nth H W); auto; lia).
    refine (conj _ (conj _ (conj _ (conj (conj L0 (conj L1 L2)) (conj _ _))))).
    + apply wf2_upd; auto.
      unfold amin_axis0. rewrite zip_with_length, !length_map, Hc. lia.
    + apply wf2_upd; auto. unfold argmin_axis0. now rewrite !length_map.
    + unfold paths_ok. apply forallb_upd; auto. apply argmin_axis0_dirs.
    + rewrite nth_upd_neq by lia. exact H0.
    + intros r j Hr Hj. cbn zeta.
      destruct (Nat.eq_dec r i) as [->|Hne].
      * rewrite !nth_upd_eq by (destruct Hwc, Hwp; lia).
        rewrite nth_upd_neq by lia.
        unfold argmin_axis0, amin_axis0. split.
        -- rewrite (map_nth_in _ _ _ 0) by (rewrite length_map; lia).
           rewrite (map_nth_in _ _ _ []) by lia.
           now rewrite Hcols.
        -- rewrite (zip_with_nth _ Inf (Fin 0%Q)) by (rewrite !length_map; lia).
           rewrite (map_nth_in _ _ _ []) by lia.
           rewrite (map_nth_in _ _ _ 0%Q) by lia.
           now rewrite Hcols.
      * rewrite !nth_upd_neq by lia. apply Hcells; lia.
  - rewrite E2. cbn [bind]. destruct st as [[cost paths] stack].
    destruct HR as (Hwc & Hwp & Hok & _ & H0 & Hcells).
    rewrite Hok. cbn [py_assert bind].
    exists cost, paths. split; [reflexivity|].
    refine (conj Hwc (conj Hwp (conj _ _))).
    + intros j Hj. rewrite H0. now apply Hrow0.
    + now replace (1 + (H - 1)) with H in Hcells by lia.
Qed.

(** ** The tie scenario: columns 1 and 2 share the minimum of every row *)

Lemma Qle_bool_false (x y : Q) : (y < x)%Q -> Qle_bool x y = false.
Proof.
  intros Hlt. destruct (Qle_bool x y) eqn:E; [|reflexivity].
  apply Qle_bool_iff in E. exfalso. now apply (Qlt_not_le y x).
Qed.

Lemma Qle_bool_true (x y : Q) : (x <= y)%Q -> Qle_bool x y = true.
Proof. intros Hle. now apply Qle_bool_iff. Qed.

Lemma tied_step (x0 x1 x2 x3 e0 e1 e2 e3 : Q) :
  tied4 x0 x1 x2 x3 ->
  cost_step 4 [Fin x0; Fin x1; Fin x2; Fin x3] [e0; e1; e2; e3]
  = ([Fin (x1 + e0); Fin (x1 + e1); Fin (x1 + e2); Fin (x2 + e3)],
     [1; 0; -1; -1]%Z).
Proof.
  intros (H12 & H10 & H13).
  assert (B1 : Qle_bool x0 x1 = false) by (apply Qle_bool_false; lra).
  assert (B2 : Qle_bool x1 x2 = true) by (apply Qle_bool_true; lra).
  assert (B3 : Qle_bool x1 x3 = true) by (apply Qle_bool_true; lra).
  assert (B4 : Qle_bool x2 x3 = true) by (apply Qle_bool_true; lra).
  assert (Hcols :
    columns3 (slice 0 (Z.of_nat 4) (pad [Fin x0; Fin x1; Fin x2; Fin x3]))
      (slice 1 (Z.of_nat 4 + 1) (pad [Fin x0; Fin x1; Fin x2; Fin x3]))
      (slice 2 (Z.of_nat 4 + 2) (pad [Fin x0; Fin x1; Fin x2; Fin x3]))
    = [[Inf; Fin x0; Fin x1]; [Fin x0; Fin x1; Fin x2];
       [Fin x1; Fin x2; Fin x3]; [Fin x2; Fin x3; Inf]]) by reflexivity.
  unfold cost_step, amin_axis0, argmin_axis0. rewrite Hcols.
  cbn [map argmin_amin min_scan xltb].
  rewrite B1, B2, B3, B4. reflexivity.
Qed.

Lemma tied_step_tied (x0 x1 x2 x3 e0 e1 e2 e3 : Q) :
  tied4 x0 x1 x2 x3 -> tied4 e0 e1 e2 e3 ->
  tied4 (x1 + e0) (x1 + e1) (x1 + e2) (x2 + e3).
Proof.
  unfold tied4. intros (H12 & H10 & H13) (E12 & E10 & E13).
  repeat split; lra.
Qed.

Lemma tied_argmin (x0 x1 x2 x3 : Q) :
  tied4 x0 x1 x2 x3 -> argmin [Fin x0; Fin x1; Fin x2; Fin x3] = Ok 1%Z.
Proof.
  intros (H12 & H10 & H13).
  assert (B1 : Qle_bool x0 x1 = false) by (apply Qle_bool_false; lra).
  assert (B2 : Qle_bool x1 x2 = true) by (apply Qle_bool_true; lra).
  assert (B3 : Qle_bool x1 x3 = true) by (apply Qle_bool_true; lra).
  unfold argmin. cbn [argmin_amin min_scan xltb].
  rewrite B1. cbn [negb]. rewrite B2. cbn [negb]. now rewrite B3.
Qed.

Lemma tied_grid_seam (image : ndarray) (energy : list (list Q)) :
  tied_grid energy ->
  exists cost paths last,
    compute_cost image energy 1 = Ok (cost, paths)
    /\ item cost (3 - 1)%Z = Ok last
    /\ argmin last = Ok 1%Z
    /\ backtrack_seam paths 1 = Ok [1; 1; 1]%Z.
Proof.
  intros (a0 & m0 & n0 & b0 & a1 & m1 & n1 & b1 & a2 & m2 & n2 & b2
          & -> & T0 & T1 & T2).
  rewrite (compute_cost_scan image 4) by (repeat constructor).
  unfold cost_rows, path_rows. cbn [cost_scan map].
  rewrite (tied_step a0 m0 n0 b0 a1 m1 n1 b1 T0). cbn [fst snd].
  pose proof (tied_step_tied _ _ _ _ _ _ _ _ T0 T1) as T01.
  rewrite (tied_step _ _ _ _ a2 m2 n2 b2 T01). cbn [fst snd].
  pose proof (tied_step_tied _ _ _ _ _ _ _ _ T01 T2) as T012.
  do 3 eexists. split; [reflexivity|]. split; [reflexivity|].
  split; [now apply tied_argmin | reflexivity].
Qed.

(** ** Forward variant: finite costs and arrows inside the grid *)

Lemma finite_nth (l : list xfloat) (j : nat) :
  Forall finite l -> j < length l -> finite (nth j l Inf).
Proof.
  intros HF Hj. apply (proj1 (Forall_forall _ _) HF). now apply nth_In.
Qed.

Lemma finite_xadd (a : xfloat) (q : Q) : finite a -> finite (xadd a (Fin q)).
Proof. intros [x ->]. simpl. eexists. reflexivity. Qed.

Lemma fwd_candidates_choice (gray : list (list Q)) (prev : list xfloat)
  (W i j : nat) :
  length prev = W -> Forall finite prev -> W <> 1 -> j < W ->
  let k := fst (argmin_amin (fwd_candidates gray prev W i j)) in
  k < 3
  /\ finite (snd (argmin_amin (fwd_candidates gray prev W i j)))
  /\ (0 <= Z.of_nat j + (Z.of_nat k - 1) < Z.of_nat W)%Z.
Proof.
  intros Hp Hfin HW Hj k.
  pose proof (fwd_candidates_length gray prev W i j) as Hlen.
  assert (Hne : fwd_candidates gray prev W i j <> [])
    by (intros E; rewrite E in Hlen; discriminate).
  destruct (argmin_amin_spec _ Hne) as [(Hk & Hmin & _) Hv].
  fold k in Hk, Hmin, Hv. rewrite Hlen in Hk.
  assert (Hmid : finite (nth 1 (fwd_candidates gray prev W i j) Inf)).
  { unfold fwd_candidates.
    destruct ((0 <? j) && (j <? W - 1)); [|destruct (j =? 0)]; cbn [nth];
      try apply finite_xadd; apply finite_nth; auto; lia. }
  assert (Hfk : finite (nth k (fwd_candidates gray prev W i j) Inf)).
  { specialize (Hmin 1 ltac:(lia)). destruct Hmid as [q Hq]. rewrite Hq in Hmin.
    destruct (nth k (fwd_candidates gray prev W i j) Inf) as [v|] eqn:E;
      [now exists v|].
    exfalso. apply Hmin. exact I. }
  split; [exact Hk|]. split; [now rewrite Hv|].
  destruct Hfk as [v Hv']. unfold fwd_candidates in Hv'.
  destruct (Nat.ltb_spec 0 j); destruct (Nat.ltb_spec j (W - 1));
    cbn [andb] in Hv'; [lia | | | ].
  - destruct (Nat.eqb_spec j 0); [lia|].
    destruct k as [|[|[|k]]]; cbn [nth] in Hv'; try discriminate; lia.
  - destruct (Nat.eqb_spec j 0); [|lia].
    destruct k as [|[|[|k]]]; cbn [nth] in Hv'; try discriminate; lia.
  - lia.
Qed.

Lemma fwd_cells_finite (gray energy : list (list Q)) (H W : nat)
  (cost : cost_t) (paths : paths_t) :
  wf2 H W cost -> W <> 1 ->
  (forall j, j < W -> finite (nth j (nth 0 cost []) Inf)) ->
  fwd_cells gray energy H W H cost paths ->
  forall i, i < H -> Forall finite (nth i cost []).
Proof.
  intros Hwc HW H0 Hcells. induction i as [|i IH]; intros Hi.
  - apply Forall_nth. intros j d Hj.
    rewrite (wf2_nth H W 0 cost Hwc Hi) in Hj.
    rewrite (nth_indep _ d Inf) by (rewrite (wf2_nth H W 0 cost Hwc Hi); lia).
    now apply H0.
  - apply Forall_nth. intros j d Hj.
    rewrite (wf2_nth H W (S i) cost Hwc Hi) in Hj.
    rewrite (nth_indep _ d Inf) by (rewrite (wf2_nth H W (S i) cost Hwc Hi); lia).
    destruct (Hcells (S i) j ltac:(lia) Hj) as [_ Ec]. cbn zeta in Ec. rewrite Ec.
    replace (S i - 1) with i by lia.
    destruct (fwd_candidates_choice gray (nth i cost []) W (S i) j
                (wf2_nth H W i cost Hwc ltac:(lia)) (IH ltac:(lia)) HW Hj)
      as (_ & Hf & _).
    now apply finite_xadd.
Qed.

Lemma compute_forward_cost_one_column
  (rgb2gray : ndarray -> result (list (list Q))) (image : ndarray)
  (gray energy : list (list Q)) (H : nat) :
  rgb2gray image = Ok gray -> wf2 H 1 gray -> wf2 H 1 energy -> 2 <= H ->
  compute_forward_cost rgb2gray image energy = Raise IndexError.
Proof.
  intros Eg Hwg [Hle HFe] HH. unfold compute_forward_cost. rewrite Eg. cbn [bind].
  rewrite (wf2_hd Hwg ltac:(lia)). destruct Hwg as [Hlg _]. rewrite Hlg.
  destruct H as [|[|n]]; [lia | lia |].
  destruct energy as [|e0 [|e1 rest]]; simpl in Hle; try lia.
  inversion HFe as [|x l He0 HFe']; subst x l.
  destruct e0 as [|q0 [|q1 e0]]; simpl in He0; try lia.
  reflexivity.
Qed.

Lemma compute_forward_cost_dirs (rgb2gray : ndarray -> result (list (list Q)))
  (image : ndarray) (gray energy : list (list Q)) (H W : nat)
  (cost : cost_t) (paths : paths_t) :
  rgb2gray image = Ok gray -> wf2 H W gray -> wf2 H W energy -> 1 <= H ->
  compute_forward_cost rgb2gray image energy = Ok (cost, paths) ->
  wf2 H W paths /\ dirs_in_grid H W paths.
Proof.
  intros Eg Hwg Hwe HH E.
  assert (HW : H = 1 \/ W <> 1).
  { destruct (Nat.eq_dec H 1) as [H1|H1]; [now left | right].
    intros ->.
    rewrite (compute_forward_cost_one_column rgb2gray image gray energy H)
      in E by (auto; lia).
    discriminate. }
  destruct (compute_forward_cost_cells rgb2gray image gray energy H W Eg Hwg Hwe
              HH HW) as (c & p & E' & Hwc & Hwp & Hrow0 & Hcells).
  rewrite E in E'. injection E' as <- <-.
  split; [exact Hwp|].
  intros i j Hi Hj. cbn zeta.
  destruct HW as [H1|HW]; [lia|].
  assert (Hfin : forall i, i < H -> Forall finite (nth i cost [])).
  { apply (fwd_cells_finite gray energy H W cost paths Hwc HW); auto.
    intros k Hk. rewrite (Hrow0 k Hk). unfold fwd_row0.
    destruct ((0 <? k) && (k <? W - 1)); eexists; reflexivity. }
  destruct (Hcells i j Hi Hj) as [Ed _]. cbn zeta in Ed. rewrite Ed.
  destruct (fwd_candidates_choice gray (nth (i - 1) cost []) W i j
              (wf2_nth H W (i - 1) cost Hwc ltac:(lia)) (Hfin (i - 1) ltac:(lia))
              HW Hj) as (Hk & _ & Hr).
  split; [lia | exact Hr].
Qed.

(** * The claims *)

(** C1.  In both cost accumulators the direction of a cell is the first
    (left-most) minimum of its three candidates: the chosen candidate is a
    minimum, and every candidate to its left is strictly larger, so on a
    tie -1 wins over 0 and 0 over +1.  The forward accumulator returns
    grids unless the image has a single column and several rows.  On a
    3 x 4 energy grid whose columns 1 and 2 share the strict minimum of
    every row, the seam ending at the argmin of the last cost row is
    column 1 in every row. *)
Theorem tie_break_leftmost (rgb2gray : ndarray -> result (list (list Q)))
  (image : ndarray) (gray energy : list (list Q)) (H W : nat) :
  wf2 H W energy -> 1 <= H ->
  (exists cost paths,
      compute_cost image energy 1 = Ok (cost, paths)
      /\ picks_leftmost H W (fun c i j => candidates (nth (i - 1) c []) j)
           cost paths)
  /\ (rgb2gray image = Ok gray -> wf2 H W gray -> H = 1 \/ W <> 1 ->
      exists cost paths,
        compute_forward_cost rgb2gray image energy = Ok (cost, paths)
        /\ picks_leftmost H W
             (fun c i j => fwd_candidates gray (nth (i - 1) c []) W i j)
             cost paths)
  /\ (tied_grid energy ->
      exists cost paths last,
        compute_cost image energy 1 = Ok (cost, paths)
        /\ item cost 2%Z = Ok last
        /\ argmin last = Ok 1%Z
        /\ backtrack_seam paths 1 = Ok [1; 1; 1]%Z).
Proof.
  intros Hwe HH. split; [|split].
  - destruct (compute_cost_cells image H W energy Hwe HH)
      as (cost & paths & E & _ & _ & _ & _ & Hcells).
    exists cost, paths. split; [exact E|].
    intros i j Hi Hj. cbn zeta.
    destruct (Hcells i j Hi Hj) as [Ed _]. cbn zeta in Ed. rewrite Ed.
    destruct (argmin_amin_spec (candidates (nth (i - 1) cost []) j)
                ltac:(discriminate)) as [Hl _].
    pose proof (proj1 Hl) as Hk. cbn [candidates length] in Hk.
    split; [lia|].
    now replace (Z.to_nat (Z.of_nat (fst (argmin_amin
                  (candidates (nth (i - 1) cost []) j))) - 1 + 1))
      with (fst (argmin_amin (candidates (nth (i - 1) cost []) j))) by lia.
  - intros Eg Hwg HW.
    destruct (compute_forward_cost_cells rgb2gray image gray energy H W Eg Hwg Hwe
                HH HW) as (cost & paths & E & _ & _ & _ & Hcells).
    exists cost, paths. split; [exact E|].
    intros i j Hi Hj. cbn zeta.
    destruct (Hcells i j Hi Hj) as [Ed _]. cbn zeta in Ed. rewrite Ed.
    pose proof (fwd_candidates_length gray (nth (i - 1) cost []) W i j) as Hlen.
    assert (Hne : fwd_candidates gray (nth (i - 1) cost []) W i j <> [])
      by (intros E0; rewrite E0 in Hlen; discriminate).
    destruct (argmin_amin_spec _ Hne) as [Hl _].
    pose proof (proj1 Hl) as Hk. rewrite Hlen in Hk.
    split; [lia|].
    now replace (Z.to_nat (Z.of_nat (fst (argmin_amin
                  (fwd_candidates gray (nth (i - 1) cost []) W i j))) - 1 + 1))
      with (fst (argmin_amin (fwd_candidates gray (nth (i - 1) cost []) W i j)))
      by lia.
  - intros Ht. now apply tied_grid_seam.
Qed.

Lemma energy34_tied : tied_grid energy34.
Proof.
  exists 5%Q, 1%Q, 1%Q, 5%Q, 5%Q, 1%Q, 1%Q, 5%Q, 5%Q, 1%Q, 1%Q, 5%Q.
  split; [reflexivity|]. repeat split; reflexivity.
Defined.

Lemma energy34_wf : wf2 3 4 energy34.
Proof. split; [reflexivity | repeat constructor]. Defined.

Lemma gray34_wf : wf2 3 4 gray34.
Proof. split; [reflexivity | repeat constructor]. Defined.

Lemma tie_break_leftmost_witness :
  (exists cost paths,
      compute_cost image34 energy34 1 = Ok (cost, paths)
      /\ picks_leftmost 3 4 (fun c i j => candidates (nth (i - 1) c []) j)
           cost paths)
  /\ (exists cost paths,
        compute_forward_cost luma image34 energy34 = Ok (cost, paths)
        /\ picks_leftmost 3 4
             (fun c i j => fwd_candidates gray34 (nth (i - 1) c []) 4 i j)
             cost paths)
  /\ (exists cost paths last,
        compute_cost image34 energy34 1 = Ok (cost, paths)
        /\ item cost 2%Z = Ok last
        /\ argmin last = Ok 1%Z
        /\ backtrack_seam paths 1 = Ok [1; 1; 1]%Z).
Proof.
  destruct (tie_break_leftmost luma image34 gray34 energy34 3 4 energy34_wf
              ltac:(lia)) as (A & B & C).
  split; [exact A|]. split.
  - apply B; [reflexivity | exact gray34_wf | right; lia].
  - apply C. exact energy34_tied.
Defined.

(** C4, amended.  Row 0 of the cost grid of [compute_cost] (along the
    width) is row 0 of the energy grid exactly.  Row 0 of the cost grid of
    [compute_forward_cost] is the energy at the two border columns, and
    the energy plus [|gray[0][j+1] - gray[0][j-1]|] at every interior
    column [j]. *)
Theorem cost_row0 (rgb2gray : ndarray -> result (list (list Q)))
  (image : ndarray) (gray energy : list (list Q)) (H W : nat) :
  wf2 H W energy -> 1 <= H ->
  (exists cost paths,
      compute_cost image energy 1 = Ok (cost, paths)
      /\ nth 0 cost [] = map Fin (nth 0 energy []))
  /\ (rgb2gray image = Ok gray -> wf2 H W gray -> H = 1 \/ W <> 1 ->
      exists cost paths,
        compute_forward_cost rgb2gray image energy = Ok (cost, paths)
        /\ length (nth 0 cost []) = W
        /\ forall j, j < W ->
             nth j (nth 0 cost []) Inf
             = if (0 <? j) && (j <? W - 1)
               then Fin (nth j (nth 0 energy []) 0
                         + Qabs (nth (j + 1) (nth 0 gray []) 0
                                 - nth (j - 1) (nth 0 gray []) 0))%Q
               else Fin (nth j (nth 0 energy []) 0%Q)).
Proof.
  intros Hwe HH. split.
  - destruct (compute_cost_cells image H W energy Hwe HH)
      as (cost & paths & E & _ & _ & _ & Hrow0 & _).
    now exists cost, paths.
  - intros Eg Hwg HW.
    destruct (compute_forward_cost_cells rgb2gray image gray energy H W Eg Hwg Hwe
                HH HW) as (cost & paths & E & Hwc & _ & Hrow0 & _).
    exists cost, paths. split; [exact E|]. split.
    + apply (wf2_nth H W); auto.
    + exact Hrow0.
Qed.

Lemma cost_row0_witness :
  (exists cost paths,
      compute_cost image34 energy34 1 = Ok (cost, paths)
      /\ nth 0 cost [] = map Fin (nth 0 energy34 []))
  /\ (exists cost paths,
        compute_forward_cost luma image34 energy34 = Ok (cost, paths)
        /\ length (nth 0 cost []) = 4
        /\ forall j, j < 4 ->
             nth j (nth 0 cost []) Inf
             = if (0 <? j) && (j <? 4 - 1)
               then Fin (nth j (nth 0 energy34 []) 0
                         + Qabs (nth (j + 1) (nth 0 gray34 []) 0
                                 - nth (j - 1) (nth 0 gray34 []) 0))%Q
               else Fin (nth j (nth 0 energy34 []) 0%Q)).
Proof.
  destruct (cost_row0 luma image34 gray34 energy34 3 4 energy34_wf ltac:(lia))
    as (A & B).
  split; [exact A|].
  apply B; [reflexivity | exact gray34_wf | right; lia].
Defined.

(** C4 as stated fails for the forward accumulator: on [image34] the cost
    at row 0, column 1 is the energy 1 plus the luminance difference 1. *)
Lemma forward_cost_row0_differs :
  exists cost paths c,
    compute_forward_cost luma image34 energy34 = Ok (cost, paths)
    /\ nth 1 (nth 0 cost []) Inf = Fin c
    /\ (c == 2)%Q
    /\ ~ (c == nth 1 (nth 0 energy34 []) 0)%Q.
Proof.
  eexists. eexists. eexists. split; [vm_compute; reflexivity|].
  split; [vm_compute; reflexivity|].
  split; [reflexivity | discriminate].
Qed.

(** C6.  On the direction grid of either cost accumulator, for every end
    column inside the grid, [backtrack_seam] returns a seam of [H] columns
    that ends at [end], follows the arrows upwards, moves by at most one
    column per row and stays inside the grid. *)
Theorem backtrack_seam_traces (rgb2gray : ndarray -> result (list (list Q)))
  (image : ndarray) (gray energy : list (list Q)) (H W : nat)
  (cost : cost_t) (paths : paths_t) (end_ : Z) :
  wf2 H W energy -> 1 <= H ->
  compute_cost image energy 1 = Ok (cost, paths)
  \/ (rgb2gray image = Ok gray /\ wf2 H W gray
      /\ compute_forward_cost rgb2gray image energy = Ok (cost, paths)) ->
  (0 <= end_ < Z.of_nat W)%Z ->
  exists seam,
    backtrack_seam paths end_ = Ok seam
    /\ length seam = H
    /\ nth (H - 1) seam 0%Z = end_
    /\ (forall i, S i < H ->
          nth i seam 0%Z
          = (nth (S i) seam 0
             + nth (Z.to_nat (nth (S i) seam 0)) (nth (S i) paths []) 0)%Z)
    /\ (forall i, S i < H -> (Z.abs (nth i seam 0 - nth (S i) seam 0) <= 1)%Z)
    /\ (forall i, i < H -> (0 <= nth i seam 0 < Z.of_nat W)%Z).
Proof.
  intros Hwe HH Hcp Hend.
  assert (Hp : wf2 H W paths /\ dirs_in_grid H W paths).
  { destruct Hcp as [E | (Eg & Hwg & E)].
    - split; [|now apply (compute_cost_dirs image H W energy cost)].
      destruct (compute_cost_cells image H W energy Hwe HH)
        as (c & p & E' & _ & Hwp & _).
      rewrite E in E'. now injection E' as <- <-.
    - now apply (compute_forward_cost_dirs rgb2gray image gray energy H W cost). }
  destruct Hp as [Hwp Hdirs].
  destruct (backtrack_seam_spec H W paths end_ Hwp HH Hdirs Hend)
    as (seam & E & Hl & Hlast & Hstep & Hadj & Hib).
  exists seam. repeat split; auto.
  - apply (proj1 (Forall_forall _ _) Hib). apply nth_In. lia.
  - apply (proj1 (Forall_forall _ _) Hib). apply nth_In. lia.
Qed.

Lemma backtrack_seam_traces_witness :
  exists seam,
    backtrack_seam paths34 2 = Ok seam
    /\ length seam = 3
    /\ nth (3 - 1) seam 0%Z = 2%Z
    /\ (forall i, S i < 3 ->
          nth i seam 0%Z
          = (nth (S i) seam 0
             + nth (Z.to_nat (nth (S i) seam 0)) (nth (S i) paths34 []) 0)%Z)
    /\ (forall i, S i < 3 -> (Z.abs (nth i seam 0 - nth (S i) seam 0) <= 1)%Z)
    /\ (forall i, i < 3 -> (0 <= nth i seam 0 < Z.of_nat 4)%Z).
Proof.
  apply (backtrack_seam_traces luma image34 gray34 energy34 3 4 cost34 paths34 2
           energy34_wf ltac:(lia) (or_introl eq_refl)).
  simpl. lia.
Defined.

(** C3, amended.  [reduce] along the width rejects every target size that
    is not strictly between 0 and the current width [W] -- the size [W]
    itself included -- with an assertion error, whatever the injected
    functions are: none of them is run. *)
Theorem reduce_rejects (image : ndarray) (H W : nat) (size : Z)
  (efunc : efunc_t) (cfunc : cfunc_t) (bfunc : bfunc_t) (rfunc : rfunc_t) :
  shape_at image 0 = Ok H -> shape_at image 1 = Ok W ->
  (Z.of_nat W <= size \/ size <= 0)%Z ->
  exists msg,
    reduce image size 1 efunc cfunc bfunc rfunc = Raise (AssertionError msg).
Proof.
  intros EH EW Hsize. unfold reduce. change (1 =? 0)%Z with false. cbv iota.
  cbn [bind]. rewrite EH, EW. cbn [bind].
  destruct (Z.ltb_spec size (Z.of_nat W)) as [Hlt|Hge].
  - cbn [py_assert bind].
    destruct (Z.ltb_spec 0 size) as [Hpos|Hneg]; [lia|].
    cbn [py_assert bind]. eexists. reflexivity.
  - cbn [py_assert bind]. eexists. reflexivity.
Qed.

Lemma reduce_rejects_witness :
  exists msg,
    reduce image22 2 1 (energy_function luma) (fun im e => compute_cost im e 1)
      backtrack_seam remove_seam = Raise (AssertionError msg).
Proof.
  apply (reduce_rejects image22 2 2 2 (energy_function luma)
           (fun im e => compute_cost im e 1) backtrack_seam remove_seam
           eq_refl eq_refl).
  left. reflexivity.
Defined.

(** C3 as stated fails: a target size equal to the current width is
    rejected, the grid is not returned. *)
Lemma reduce_to_same_width_raises :
  reduce image22 2 1 (energy_function luma) (fun im e => compute_cost im e 1)
    backtrack_seam remove_seam
  = Raise (AssertionError "Size must be smaller than %d")
  /\ reduce image22 2 1 (energy_function luma) (fun im e => compute_cost im e 1)
       backtrack_seam remove_seam <> Ok image22.
Proof. split; [reflexivity | discriminate]. Qed.

(** C5.  On a grid of width two the result of [remove_seam] has lost its
    column axis: [np.squeeze] made the 2 x 1 x 3 result a 2 x 3 array. *)
Theorem remove_seam_squeezes_unit_width :
  remove_seam image22 [0; 0]%Z
  = Ok (mkarr uint8 (T2 [[2; 2; 2]; [4; 4; 4]]%Q))
  /\ shape (T2 [[2; 2; 2]; [4; 4; 4]]%Q) = [2; 3].
Proof. split; reflexivity. Qed.

(** C2.  Doubling the width passes the two guards of [enlarge] and is then
    rejected by the guard [W > k] of [find_seams], whatever the injected
    functions are. *)
Theorem enlarge_double_width_raises (image : ndarray)
  (c : list (list (list Q))) (W : nat) (efunc : efunc_t) (cfunc : cfunc_t)
  (dfunc : rfunc_t) (bfunc : bfunc_t) (rfunc : rfunc_t) :
  tensor_of image = T3 c -> length (hd [] c) = W -> 1 <= W ->
  enlarge image (2 * Z.of_nat W) 1 efunc cfunc dfunc bfunc rfunc
  = Raise (AssertionError "k must be smaller than %d").
Proof.
  intros Et HW H1. unfold enlarge, find_seams, unpack3.
  change (1 =? 0)%Z with false. cbv iota. cbn [bind]. rewrite Et. cbn [bind].
  rewrite HW.
  destruct (Z.ltb_spec (Z.of_nat W) (2 * Z.of_nat W)); [|lia].
  destruct (Z.leb_spec (2 * Z.of_nat W) (2 * Z.of_nat W)); [|lia].
  cbn [py_assert bind].
  destruct (Z.ltb_spec (2 * Z.of_nat W - Z.of_nat W) (Z.of_nat W)); [lia|].
  reflexivity.
Qed.

Lemma enlarge_double_width_raises_witness :
  enlarge image22 (2 * Z.of_nat 2) 1 (energy_function luma)
    (fun im e => compute_cost im e 1) duplicate_seam backtrack_seam remove_seam
  = Raise (AssertionError "k must be smaller than %d").
Proof.
  apply (enlarge_double_width_raises image22
           [[[1; 1; 1]; [2; 2; 2]]; [[3; 3; 3]; [4; 4; 4]]]%Q 2).
  - reflexivity.
  - reflexivity.
  - lia.
Defined.

(** A target beyond twice the width is rejected by the guard of [enlarge]. *)
Lemma enlarge_rejects_larger (image : ndarray) (c : list (list (list Q)))
  (W : nat) (size : Z) (efunc : efunc_t) (cfunc : cfunc_t) (dfunc : rfunc_t)
  (bfunc : bfunc_t) (rfunc : rfunc_t) :
  tensor_of image = T3 c -> length (hd [] c) = W -> (2 * Z.of_nat W < size)%Z ->
  enlarge image size 1 efunc cfunc dfunc bfunc rfunc
  = Raise (AssertionError "size must be smaller than %d").
Proof.
  intros Et HW Hs. unfold enlarge, unpack3.
  change (1 =? 0)%Z with false. cbv iota. cbn [bind]. rewrite Et. cbn [bind].
  rewrite HW.
  destruct (Z.ltb_spec (Z.of_nat W) size); [|lia].
  destruct (Z.leb_spec size (2 * Z.of_nat W)); [lia|].
  reflexivity.
Qed.

(** ** Removal followed by duplication *)

Lemma dup_row_ext {A : Type} (s : nat) (row : list A) (z : A) :
  s <= length row ->
  assign_slice (Z.of_nat s + 1) (Z.of_nat (length row + 1)) (row ++ [z])
    (slice (Z.of_nat s) (Z.of_nat (length row + 1) - 1) (row ++ [z]))
  = Ok (dup_ext z s row).
Proof.
  intros Hs. set (n := length row).
  replace (Z.of_nat (n + 1) - 1)%Z with (Z.of_nat n) by lia.
  replace (Z.of_nat s + 1)%Z with (Z.of_nat (S s)) by lia.
  rewrite slice_nat. rewrite length_app. simpl length. fold n.
  replace (Nat.min (n + 1) n - Nat.min (n + 1) s) with (n - s) by lia.
  replace (Nat.min (n + 1) s) with s by lia.
  rewrite skipn_app. replace (s - length row) with 0 by (fold n; lia).
  simpl skipn. rewrite firstn_app, length_skipn. fold n.
  replace (n - s - (n - s)) with 0 by lia. simpl firstn. rewrite app_nil_r.
  rewrite firstn_all2 by (rewrite length_skipn; fold n; lia).
  rewrite assign_slice_nat.
  - unfold dup_ext.
    rewrite (@skipn_all2 _ (n + 1) (row ++ [z]))
      by (rewrite length_app; simpl; fold n; lia).
    now rewrite app_nil_r.
  - rewrite length_app. simpl. fold n. lia.
  - rewrite length_skipn. fold n. lia.
Qed.

Lemma duplicate_seam_ext (dt : dtype) (H W C : nat)
  (c : list (list (list Q))) (seam : list Z) :
  wf3 H W C c -> 1 <= H -> 1 <= W -> length seam = H -> in_bounds (W + 1) seam ->
  duplicate_seam (mkarr dt (T3 c)) seam
  = Ok (mkarr float64
          (T3 (zip_with (fun s row => dup_ext (repeat 0%Q C) (Z.to_nat s) row)
                 seam c))).
Proof.
  intros Hwf HH HW1 Hs Hb. unfold duplicate_seam, unpack3. cbn [bind tensor_of].
  pose proof (wf3_hd Hwf HH) as Hhd.
  assert (HW : length (hd [] c) = W) by apply Hhd.
  assert (HC : length (hd [] (hd [] c)) = C) by (apply (wf2_hd Hhd); lia).
  destruct Hwf as [Hl HF]. rewrite HW, HC.
  pose proof (Forall2_zip (xs := seam) (ys := c) ltac:(lia) Hb HF) as HZ.
  rewrite (for_rows_ok _
             (fun s row => dup_ext (repeat 0%Q C) (Z.to_nat s) (firstn W row))).
  - cbn [bind]. rewrite zip_with_map_r.
    do 3 f_equal. apply zip_with_ext.
    eapply Forall2_impl; [| exact HZ]. cbv beta. intros s row [_ [Hrl _]].
    rewrite <- Hrl. replace (length row) with (length row + 0) by lia.
    rewrite firstn_app_2. simpl. now rewrite app_nil_r.
  - apply Forall2_map_r.
    eapply Forall2_impl; [| exact HZ]. cbv beta. intros s row [Hsb [Hrl _]].
    rewrite <- Hrl. replace (length row) with (length row + 0) at 3 by lia.
    rewrite firstn_app_2. simpl firstn. rewrite app_nil_r.
    rewrite <- (Z2Nat.id s) at 1 2 by lia.
    apply dup_row_ext. lia.
Qed.

(** Removing cell [s] of a row and duplicating at [s] again puts the right
    neighbour of the removed cell in its place, or [z] in the last column. *)
Lemma dup_ext_remove_at {A : Type} (z : A) (s : nat) (row : list A) :
  s < length row ->
  dup_ext z s (remove_at s row) = upd s (nth (S s) row z) row.
Proof.
  intros Hs. destruct (nth_split row z Hs) as (l1 & l2 & E & Hl1).
  set (x := nth s row z) in E. clearbody x. subst row s.
  rewrite app_nth2 by lia.
  replace (S (length l1) - length l1) with 1 by lia. cbn [nth].
  rewrite upd_app_mid.
  assert (Hrem : remove_at (length l1) (l1 ++ x :: l2) = l1 ++ l2).
  { unfold remove_at.
    replace (length l1) with (length l1 + 0) at 1 by lia.
    rewrite firstn_app_2. cbn [firstn]. rewrite app_nil_r.
    rewrite skipn_app. replace (S (length l1) - length l1) with 1 by lia.
    rewrite (skipn_all2 l1) by lia. reflexivity. }
  rewrite Hrem. unfold dup_ext.
  rewrite <- app_assoc.
  replace (S (length l1)) with (length l1 + 1) by lia.
  rewrite firstn_app_2.
  rewrite skipn_app, Nat.sub_diag, skipn_all. cbn [skipn app].
  rewrite <- app_assoc. f_equal.
  destruct l2 as [|y l2]; reflexivity.
Qed.

Lemma squeeze3_keep (H W C : nat) (c : list (list (list Q))) :
  H <> 1 -> W <> 1 -> C <> 1 -> squeeze3 H W C c = T3 c.
Proof.
  intros HH HW HC. unfold squeeze3.
  destruct (Nat.eqb_spec H 1); [lia|].
  destruct (Nat.eqb_spec W 1); [lia|].
  destruct (Nat.eqb_spec C 1); [lia|]. reflexivity.
Qed.

Lemma zip_with_zip_with {A B C : Type} (f : A -> C -> C) (g : A -> B -> C) :
  forall (xs : list A) (ys : list B),
    zip_with f xs (zip_with g xs ys) = zip_with (fun x y => f x (g x y)) xs ys.
Proof.
  unfold zip_with. induction xs as [|x xs IH]; intros [|y ys]; simpl; auto.
  now rewrite IH.
Qed.

Lemma zip_with_id {A B : Type} (f : A -> B -> B) (xs : list A) (ys : list B) :
  Forall2 (fun x y => f x y = y) xs ys -> zip_with f xs ys = ys.
Proof.
  unfold zip_with. induction 1 as [|x y xs ys E _ IH]; simpl; [reflexivity|].
  now rewrite E, IH.
Qed.

Lemma Forall2_nth {A B : Type} (P : A -> B -> Prop) (dx : A) (dy : B) :
  forall (xs : list A) (ys : list B),
    length xs = length ys ->
    (forall i, i < length xs -> P (nth i xs dx) (nth i ys dy)) ->
    Forall2 P xs ys.
Proof.
  induction xs as [|x xs IH]; intros [|y ys] Hl Hp; simpl in Hl; try discriminate;
    constructor.
  - apply (Hp 0). simpl. lia.
  - apply IH; [lia|]. intros i Hi. apply (Hp (S i)). simpl. lia.
Qed.

Lemma upd_nth_id {A : Type} (s : nat) (row : list A) (d : A) :
  upd s (nth s row d) row = row.
Proof.
  revert s. induction row as [|x row IH]; intros [|s]; simpl; auto.
  now rewrite IH.
Qed.

(** C8, amended.  On a grid with at least two rows, three columns and two
    channels, removing an in-bounds seam and duplicating at the same
    positions returns a [float64] grid of the original shape that agrees
    with the original except at the seam cells: cell [(i, seam[i])] now
    holds the original right neighbour [(i, seam[i]+1)], or zeros when the
    seam is in the last column.  The samples are those of the original
    exactly when every removed pixel equals that value. *)
Theorem remove_then_duplicate (dt : dtype) (H W C : nat)
  (c : list (list (list Q))) (seam : list Z) :
  wf3 H W C c -> 2 <= H -> 3 <= W -> 2 <= C ->
  length seam = H -> in_bounds W seam ->
  exists out,
    (r <- remove_seam (mkarr dt (T3 c)) seam ;; duplicate_seam r seam) = Ok out
    /\ dtype_of out = float64
    /\ tensor_of out = T3 (roundtrip_rows C seam c)
    /\ wf3 H W C (roundtrip_rows C seam c)
    /\ (forall i j, i < H -> j < W ->
          nth j (nth i (roundtrip_rows C seam c) []) []
          = if j =? Z.to_nat (nth i seam 0%Z)
            then nth (S j) (nth i c []) (repeat 0%Q C)
            else nth j (nth i c []) [])
    /\ ((forall i, i < H ->
           nth (Z.to_nat (nth i seam 0%Z)) (nth i c []) []
           = nth (S (Z.to_nat (nth i seam 0%Z))) (nth i c []) (repeat 0%Q C)) ->
        roundtrip_rows C seam c = c).
Proof.
  intros Hwf HH HW HC Hs Hb.
  rewrite (@remove_seam_core (mkarr dt (T3 c)) H W C c seam eq_refl Hwf
             ltac:(lia) Hs Hb).
  cbn [bind dtype_of]. rewrite squeeze3_keep by lia.
  pose proof (@remove_rows_wf _ H W C seam c Hwf Hs Hb) as Hwr.
  rewrite (duplicate_seam_ext dt H (W - 1) C (remove_rows seam c) seam Hwr)
    by (auto; try lia; now replace (W - 1 + 1) with W by lia).
  destruct Hwf as [Hl HF].
  pose proof (Forall2_zip (xs := seam) (ys := c) ltac:(lia) Hb HF) as HZ.
  assert (Erows :
    zip_with (fun s row => dup_ext (repeat 0%Q C) (Z.to_nat s) row) seam
      (remove_rows seam c) = roundtrip_rows C seam c).
  { unfold remove_rows, roundtrip_rows. rewrite zip_with_zip_with.
    apply zip_with_ext. eapply Forall2_impl; [|exact HZ]. cbv beta.
    intros s row [Hsb [Hrl _]]. apply dup_ext_remove_at. lia. }
  rewrite Erows.
  assert (Hcell : forall i, i < H ->
            nth i (roundtrip_rows C seam c) []
            = upd (Z.to_nat (nth i seam 0%Z))
                (nth (S (Z.to_nat (nth i seam 0%Z))) (nth i c []) (repeat 0%Q C))
                (nth i c [])).
  { intros i Hi. unfold roundtrip_rows.
    now rewrite (zip_with_nth _ 0%Z []) by lia. }
  assert (Hrow : forall i, i < H -> length (nth i c []) = W /\
                                    (0 <= nth i seam 0 < Z.of_nat W)%Z).
  { intros i Hi. split.
    - apply (wf2_nth H W i c); [|lia]. split; [exact Hl|].
      eapply Forall_impl; [|exact HF]. intros r Hr. apply Hr.
    - apply (proj1 (Forall_forall _ _) Hb). apply nth_In. lia. }
  eexists. split; [reflexivity|]. split; [reflexivity|]. split; [reflexivity|].
  split; [|split].
  - split.
    + unfold roundtrip_rows. rewrite zip_with_length. lia.
    + apply zip_with_Forall. eapply Forall2_impl; [|exact HZ]. cbv beta.
      intros s row [Hsb [Hrl Hrf]]. split.
      * now rewrite upd_length.
      * apply Forall_upd; [|exact Hrf].
        destruct (Nat.lt_ge_cases (S (Z.to_nat s)) (length row)) as [Hlt|Hge].
        -- apply (proj1 (Forall_forall _ _) Hrf). now apply nth_In.
        -- rewrite nth_overflow by lia. apply repeat_length.
  - intros i j Hi Hj. rewrite (Hcell i Hi).
    destruct (Hrow i Hi) as [Hrl Hsb].
    destruct (Nat.eqb_spec j (Z.to_nat (nth i seam 0%Z))) as [->|Hne].
    + apply nth_upd_eq. lia.
    + apply nth_upd_neq. lia.
  - intros Hsame. unfold roundtrip_rows. apply zip_with_id.
    apply (Forall2_nth _ 0%Z []); [lia|].
    intros i Hi. rewrite <- (Hsame i ltac:(lia)). apply upd_nth_id.
Qed.

Lemma remove_then_duplicate_witness :
  exists out,
    (r <- remove_seam image23 [1; 2]%Z ;; duplicate_seam r [1; 2]%Z) = Ok out
    /\ dtype_of out = float64
    /\ tensor_of out
       = T3 (roundtrip_rows 2 [1; 2]%Z
               [[[1; 1]; [2; 2]; [3; 3]]; [[4; 4]; [5; 5]; [6; 6]]]%Q)
    /\ wf3 2 3 2
         (roundtrip_rows 2 [1; 2]%Z
            [[[1; 1]; [2; 2]; [3; 3]]; [[4; 4]; [5; 5]; [6; 6]]]%Q)
    /\ (forall i j, i < 2 -> j < 3 ->
          nth j (nth i (roundtrip_rows 2 [1; 2]%Z
                          [[[1; 1]; [2; 2]; [3; 3]]; [[4; 4]; [5; 5]; [6; 6]]]%Q)
                   []) []
          = if j =? Z.to_nat (nth i [1; 2]%Z 0%Z)
            then nth (S j)
                   (nth i [[[1; 1]; [2; 2]; [3; 3]]; [[4; 4]; [5; 5]; [6; 6]]]%Q [])
                   (repeat 0%Q 2)
            else nth j
                   (nth i [[[1; 1]; [2; 2]; [3; 3]]; [[4; 4]; [5; 5]; [6; 6]]]%Q [])
                   [])
    /\ ((forall i, i < 2 ->
           nth (Z.to_nat (nth i [1; 2]%Z 0%Z))
             (nth i [[[1; 1]; [2; 2]; [3; 3]]; [[4; 4]; [5; 5]; [6; 6]]]%Q []) []
           = nth (S (Z.to_nat (nth i [1; 2]%Z 0%Z)))
               (nth i [[[1; 1]; [2; 2]; [3; 3]]; [[4; 4]; [5; 5]; [6; 6]]]%Q [])
               (repeat 0%Q 2)) ->
        roundtrip_rows 2 [1; 2]%Z
          [[[1; 1]; [2; 2]; [3; 3]]; [[4; 4]; [5; 5]; [6; 6]]]%Q
        = [[[1; 1]; [2; 2]; [3; 3]]; [[4; 4]; [5; 5]; [6; 6]]]%Q).
Proof.
  apply (remove_then_duplicate uint8 2 3 2
           [[[1; 1]; [2; 2]; [3; 3]]; [[4; 4]; [5; 5]; [6; 6]]]%Q [1; 2]%Z).
  - split; [reflexivity|]. repeat constructor.
  - lia.
  - lia.
  - lia.
  - reflexivity.
  - repeat constructor; simpl; lia.
Defined.

(** C8 as stated fails: after the round trip the seam cells hold the right
    neighbour (3 instead of 2) or zero (instead of 6), and the samples are
    [float64], not the 8-bit integers of the input. *)
Lemma roundtrip_changes_grid :
  (r <- remove_seam image23 [1; 2]%Z ;; duplicate_seam r [1; 2]%Z)
  = Ok (mkarr float64 (T3 [[[1; 1]; [3; 3]; [3; 3]]; [[4; 4]; [5; 5]; [0; 0]]]%Q))
  /\ ~ (3 == 2)%Q /\ ~ (0 == 6)%Q /\ float64 <> dtype_of image23.
Proof.
  split; [reflexivity|]. repeat split; discriminate.
Qed.

(** ** Energy Estimator: shapes *)

Lemma mapM_Forall {A B : Type} (f : A -> result B) (P : B -> Prop) (l : list A) :
  Forall (fun x => exists y, f x = Ok y /\ P y) l ->
  exists ys, mapM f l = Ok ys /\ length ys = length l /\ Forall P ys.
Proof.
  induction 1 as [|x l (y & E & Hy) _ (ys & Es & Hl & HP)].
  - exists []. repeat split; constructor.
  - exists (y :: ys). cbn [mapM]. rewrite E. cbn [bind]. rewrite Es. cbn [bind].
    repeat split; [simpl; lia | now constructor].
Qed.

Lemma mapM_Forall2 {A B : Type} (f : A -> result B) (xs : list A) (ys : list B) :
  Forall2 (fun x y => f x = Ok y) xs ys -> mapM f xs = Ok ys.
Proof.
  induction 1 as [|x y xs ys E _ IH]; [reflexivity|].
  cbn [mapM]. rewrite E. cbn [bind]. rewrite IH. reflexivity.
Qed.

Lemma transpose_aux_wf {A : Type} (W : nat) (m : list (list A)) :
  Forall (fun r => length r = W) m -> wf2 W (length m) (transpose_aux W m).
Proof.
  induction 1 as [|r m Hr _ [IHl IHF]]; cbn [transpose_aux length].
  - split; [apply repeat_length|]. apply Forall_forall. intros x Hx.
    apply repeat_spec in Hx. now subst.
  - split.
    + rewrite length_map, length_combine. lia.
    + apply Forall_map. apply Forall_forall. intros [a col] Hin. cbn [fst snd length].
      f_equal. apply in_combine_r in Hin.
      apply (proj1 (Forall_forall _ _) IHF col Hin).
Qed.

Lemma transpose_wf {A : Type} (H W : nat) (m : list (list A)) :
  wf2 H W m -> 1 <= H -> wf2 W H (transpose m).
Proof.
  intros Hwf HH. unfold transpose. rewrite (wf2_hd Hwf HH).
  destruct Hwf as [<- HF]. now apply transpose_aux_wf.
Qed.

Lemma gradient1_ok (f : list Q) :
  2 <= length f -> exists g, gradient1 f = Ok g /\ length g = length f.
Proof.
  intros Hf. unfold gradient1.
  destruct (Nat.ltb_spec (length f) 2); [lia|].
  eexists. split; [reflexivity|]. now rewrite length_map, length_seq.
Qed.

Lemma gradient_axis1_ok (H W : nat) (g : list (list Q)) :
  wf2 H W g -> 2 <= W -> exists d, gradient_axis1 g = Ok d /\ wf2 H W d.
Proof.
  intros [Hl HF] HW. unfold gradient_axis1.
  destruct (mapM_Forall gradient1 (fun r => length r = W) g) as (d & E & Ed & HP).
  - eapply Forall_impl; [|exact HF]. cbv beta. intros r Hr.
    destruct (gradient1_ok r ltac:(lia)) as (gr & Eg & Hg).
    exists gr. split; [exact Eg | lia].
  - exists d. split; [exact E|]. split; [lia | exact HP].
Qed.

Lemma gradient_axis0_ok (H W : nat) (g : list (list Q)) :
  wf2 H W g -> 2 <= H -> 1 <= W -> exists d, gradient_axis0 g = Ok d /\ wf2 H W d.
Proof.
  intros Hwf HH HW. unfold gradient_axis0.
  pose proof (transpose_wf H W g Hwf ltac:(lia)) as Hwt.
  destruct (gradient_axis1_ok W H (transpose g) Hwt HH) as (t & Et & Hw).
  unfold gradient_axis1 in Et. rewrite Et. cbn [bind].
  eexists. split; [reflexivity|]. now apply transpose_wf.
Qed.

Lemma zip_with_wf2 {A B C : Type} (f : A -> B -> C) (H W : nat)
  (a : list (list A)) (b : list (list B)) :
  wf2 H W a -> wf2 H W b -> wf2 H W (zip_with (zip_with f) a b).
Proof.
  intros [Ha HFa] [Hb HFb]. split.
  - rewrite zip_with_length. lia.
  - apply zip_with_Forall.
    pose proof (Forall2_zip (xs := a) (ys := b) ltac:(lia) HFa HFb) as HZ.
    eapply Forall2_impl; [|exact HZ]. cbv beta. intros x y [Hx Hy].
    rewrite zip_with_length. lia.
Qed.

Lemma map_map_wf2 {A B : Type} (f : A -> B) (H W : nat) (a : list (list A)) :
  wf2 H W a -> wf2 H W (map (map f) a).
Proof.
  intros [Ha HFa]. split; [now rewrite length_map|].
  apply Forall_map. eapply Forall_impl; [|exact HFa]. cbv beta.
  intros r Hr. now rewrite length_map.
Qed.

Lemma energy_function_ok (rgb2gray : ndarray -> result (list (list Q)))
  (H C : nat) :
  gray_ok rgb2gray H C -> 2 <= H -> energy_ok (energy_function rgb2gray) H C.
Proof.
  intros Hg HH dt c W Hwf HW. unfold energy_function, unpack3. cbn [tensor_of bind].
  destruct (Hg dt c W Hwf) as (g & Eg & Hwg). rewrite Eg. cbn [bind].
  destruct (gradient_axis0_ok H W g Hwg HH ltac:(lia)) as (g0 & E0 & Hw0).
  destruct (gradient_axis1_ok H W g Hwg HW) as (g1 & E1 & Hw1).
  rewrite E0, E1. cbn [bind]. eexists. split; [reflexivity|].
  apply zip_with_wf2; now apply map_map_wf2.
Qed.

(** ** One pass: the optimal seam of the current grid *)

Lemma seam_of_energy_ok (image : ndarray) (H W : nat) (energy : list (list Q)) :
  wf2 H W energy -> 1 <= H -> 1 <= W ->
  exists cost paths last end_ seam,
    compute_cost image energy 1 = Ok (cost, paths)
    /\ item cost (Z.of_nat H - 1) = Ok last
    /\ argmin last = Ok end_
    /\ backtrack_seam paths end_ = Ok seam
    /\ length seam = H /\ in_bounds W seam.
Proof.
  intros Hwe HH HW.
  destruct (compute_cost_cells image H W energy Hwe HH)
    as (cost & paths & E & Hwc & Hwp & _).
  pose proof (compute_cost_dirs image H W energy cost paths Hwe HH E) as Hdirs.
  assert (Hlast : item cost (Z.of_nat H - 1) = Ok (nth (H - 1) cost [])).
  { replace (Z.of_nat H - 1)%Z with (Z.of_nat (H - 1)) by lia.
    rewrite (item_in_range cost (Z.of_nat (H - 1)) []) by (destruct Hwc; lia).
    now rewrite Nat2Z.id. }
  assert (Hll : length (nth (H - 1) cost []) = W)
    by (apply (wf2_nth H W); auto; lia).
  destruct (argmin_ok (nth (H - 1) cost [])) as (end_ & Ea & Hend).
  { intros E0. rewrite E0 in Hll. simpl in Hll. lia. }
  rewrite Hll in Hend.
  destruct (backtrack_seam_spec H W paths end_ Hwp HH Hdirs Hend)
    as (seam & Eb & Hl & _ & _ & _ & Hib).
  exists cost, paths, (nth (H - 1) cost []), end_, seam. auto 10.
Qed.

Lemma optimal_seam_ok (efunc : efunc_t) (H W C : nat) (dt : dtype)
  (c : list (list (list Q))) :
  energy_ok efunc H C -> wf3 H W C c -> 1 <= H -> 2 <= W ->
  exists seam,
    optimal_seam efunc (fun im e => compute_cost im e 1) backtrack_seam H
      (mkarr dt (T3 c)) = Ok seam
    /\ length seam = H /\ in_bounds W seam.
Proof.
  intros He Hwf HH HW. unfold optimal_seam.
  destruct (He dt c W Hwf HW) as (e & Ee & Hwe). rewrite Ee. cbn [bind].
  destruct (seam_of_energy_ok (mkarr dt (T3 c)) H W e Hwe HH ltac:(lia))
    as (cost & paths & last & end_ & seam & E1 & E2 & E3 & E4 & Hl & Hb).
  rewrite E1. cbn [bind]. rewrite E2. cbn [bind]. rewrite E3. cbn [bind].
  exists seam. auto.
Qed.

(** Removing a seam from a grid that keeps all its axes. *)
Lemma remove_seam_grid (dt : dtype) (H W C : nat) (c : list (list (list Q)))
  (seam : list Z) :
  wf3 H W C c -> 2 <= H -> 3 <= W -> 2 <= C ->
  length seam = H -> in_bounds W seam ->
  remove_seam (mkarr dt (T3 c)) seam = Ok (mkarr dt (T3 (remove_rows seam c)))
  /\ wf3 H (W - 1) C (remove_rows seam c).
Proof.
  intros Hwf HH HW HC Hs Hb. split.
  - rewrite (@remove_seam_core (mkarr dt (T3 c)) H W C c seam eq_refl Hwf
               ltac:(lia) Hs Hb).
    cbn [dtype_of]. now rewrite squeeze3_keep by lia.
  - exact (@remove_rows_wf _ H W C seam c Hwf Hs Hb).
Qed.

(** Removing a seam from a two-dimensional array, such as the index map. *)
Lemma expand_dims_wf (H W : nat) (m : list (list Q)) :
  wf2 H W m -> wf3 H W 1 (expand_dims m).
Proof.
  intros [Hl HF]. split; [unfold expand_dims; now rewrite length_map|].
  unfold expand_dims. apply Forall_map. eapply Forall_impl; [|exact HF].
  cbv beta. intros r Hr. split; [now rewrite length_map|].
  apply Forall_map, Forall_forall. reflexivity.
Qed.

Lemma remove_at_map {A B : Type} (f : A -> B) (s : nat) (row : list A) :
  remove_at s (map f row) = map f (remove_at s row).
Proof. unfold remove_at. now rewrite map_app, firstn_map, skipn_map. Qed.

Lemma remove_rows_map {A B : Type} (f : A -> B) (seam : list Z)
  (m : list (list A)) :
  remove_rows seam (map (map f) m) = map (map f) (remove_rows seam m).
Proof.
  unfold remove_rows, zip_with. revert m.
  induction seam as [|s seam IH]; intros [|r m]; simpl; auto.
  now rewrite remove_at_map, IH.
Qed.

Lemma remove_seam_matrix (dt : dtype) (H W : nat) (m : list (list Q))
  (seam : list Z) :
  wf2 H W m -> 2 <= H -> 3 <= W -> length seam = H -> in_bounds W seam ->
  remove_seam (mkarr dt (T2 m)) seam = Ok (mkarr dt (T2 (remove_rows seam m))).
Proof.
  intros Hwf HH HW Hs Hb.
  rewrite (@remove_seam_core (mkarr dt (T2 m)) H W 1 (expand_dims m) seam eq_refl
             (expand_dims_wf H W m Hwf) ltac:(lia) Hs Hb).
  cbn [dtype_of]. unfold squeeze3.
  destruct (Nat.eqb_spec H 1); [lia|].
  destruct (Nat.eqb_spec (W - 1) 1); [lia|]. cbn [Nat.eqb].
  unfold expand_dims. rewrite remove_rows_map.
  rewrite map_map. do 3 f_equal. rewrite <- (map_id (remove_rows seam m)) at 2.
  apply map_ext. intros r. rewrite map_map. rewrite <- (map_id r) at 2.
  apply map_ext. reflexivity.
Qed.

(** ** Multi-Seam Extractor: one row of the bookkeeping *)

Lemma count_occ_upd (o : nat) (v x d : Z) (l : list Z) :
  o < length l ->
  count_occ Z.eq_dec (upd o v l) x + (if Z.eq_dec (nth o l d) x then 1 else 0)
  = count_occ Z.eq_dec l x + (if Z.eq_dec v x then 1 else 0).
Proof.
  revert o. induction l as [|h t IH]; intros [|o] Ho; simpl in Ho; try lia.
  - cbn [upd nth count_occ].
    destruct (Z.eq_dec v x), (Z.eq_dec h x); lia.
  - cbn [upd nth count_occ]. specialize (IH o ltac:(lia)).
    destruct (Z.eq_dec h x); lia.
Qed.

Lemma remove_at_split {A : Type} (l1 l2 : list A) (x : A) :
  remove_at (length l1) (l1 ++ x :: l2) = l1 ++ l2.
Proof.
  unfold remove_at.
  replace (length l1) with (length l1 + 0) at 1 by lia.
  rewrite firstn_app_2. cbn [firstn]. rewrite app_nil_r.
  rewrite skipn_app. replace (S (length l1) - length l1) with 1 by lia.
  rewrite (skipn_all2 l1) by lia. reflexivity.
Qed.

Lemma stamp_row (W0 n s : nat) (idx : list nat) (srow : list Z) :
  row_inv W0 n idx srow -> s < length idx ->
  let o := nth s idx 0 in
  o < W0 /\ nth o srow 0%Z = 0%Z
  /\ row_inv W0 (S n) (remove_at s idx) (upd o (Z.of_nat n + 1)%Z srow).
Proof.
  intros (Hl & Hnd & Hlt & Hzero & Hrange & Hcount) Hs o.
  assert (Hin : In o idx) by (now apply nth_In).
  assert (Ho : o < W0) by (now apply Hlt).
  assert (Hz : nth o srow 0%Z = 0%Z) by (now apply Hzero).
  split; [exact Ho|]. split; [exact Hz|].
  destruct (nth_split idx 0 Hs) as (l1 & l2 & E & Hl1). fold o in E.
  assert (Erem : remove_at s idx = l1 ++ l2)
    by (rewrite E, <- Hl1; apply remove_at_split).
  rewrite E in Hnd. apply NoDup_remove in Hnd. destruct Hnd as [Hnd' Hnotin].
  assert (Hiff : forall j, In j (l1 ++ l2) <-> In j idx /\ j <> o).
  { intros j. rewrite E. rewrite !in_app_iff. cbn [In]. split.
    - intros Hj. split; [tauto|]. intros ->. apply Hnotin.
      apply in_app_iff. tauto.
    - intros [[Hj|[Hj|Hj]] Hne]; [tauto | congruence | tauto]. }
  rewrite Erem. unfold row_inv. rewrite upd_length.
  split; [exact Hl|]. split; [exact Hnd'|]. split; [|split; [|split]].
  - intros j Hj. apply Hlt. now apply Hiff.
  - intros j Hj. rewrite Hiff. destruct (Nat.eq_dec j o) as [->|Hne].
    + rewrite nth_upd_eq by lia. split; [lia | tauto].
    + rewrite nth_upd_neq by lia. rewrite (Hzero j Hj). tauto.
  - apply Forall_upd; [lia|]. eapply Forall_impl; [|exact Hrange].
    cbv beta. intros v Hv. lia.
  - intros l Hlr.
    pose proof (count_occ_upd o (Z.of_nat n + 1) l 0 srow ltac:(lia)) as Hc.
    rewrite Hz in Hc.
    destruct (Z.eq_dec 0 l) as [E0|_]; [lia|].
    destruct (Z.eq_dec (Z.of_nat n + 1) l) as [En|Hn].
    + assert (H0 : count_occ Z.eq_dec srow l = 0).
      { apply count_occ_not_In. intros Hl_in.
        pose proof (proj1 (Forall_forall _ _) Hrange l Hl_in) as Hb.
        cbv beta in Hb. lia. }
      lia.
    + rewrite (Hcount l) in Hc by lia. lia.
Qed.

(** ** Fancy indexing *)

Lemma broadcast2_same {A B : Type} (xs : list A) (ys : list B) :
  length xs = length ys -> broadcast2 xs ys = Ok (combine xs ys).
Proof. intros E. unfold broadcast2. now rewrite E, Nat.eqb_refl. Qed.

Lemma fancy_get_ok {A : Type} (a : list (list A)) (H w : nat) (cols : list Z)
  (d : A) :
  wf2 H w a -> length cols = H -> in_bounds w cols ->
  fancy_get a H cols
  = Ok (zip_with (fun row c => nth (Z.to_nat c) row d) a cols).
Proof.
  intros Hwf Hc Hb. unfold fancy_get.
  rewrite broadcast2_same by (now rewrite length_seq). cbn [bind].
  apply mapM_Forall2.
  apply (Forall2_nth _ (0, 0%Z) d).
  - rewrite length_combine, length_seq, zip_with_length. destruct Hwf. lia.
  - intros i Hi. rewrite length_combine, length_seq in Hi.
    rewrite combine_nth by (now rewrite length_seq).
    rewrite seq_nth by lia. cbn [fst snd plus].
    rewrite (zip_with_nth _ [] 0%Z) by (destruct Hwf; lia).
    assert (Hci : (0 <= nth i cols 0 < Z.of_nat w)%Z).
    { apply (proj1 (Forall_forall _ _) Hb). apply nth_In. lia. }
    rewrite <- (Z2Nat.id (nth i cols 0%Z)) at 1 by lia.
    apply (item2_nat H w); auto; lia.
Qed.

Lemma fancy_set_gen {A : Type} (w : nat) (x : A) :
  forall (rest done : list (list A)) (cols : list Z),
    length cols = length rest ->
    Forall (fun r => length r = w) rest -> in_bounds w cols ->
    for_each (combine (seq (length done) (length rest)) cols)
      (fun p a =>
         r <- py_index (length a) (Z.of_nat (fst p)) ;;
         row <- item a (Z.of_nat (fst p)) ;;
         c <- py_index (length row) (snd p) ;;
         Ok (upd r (upd c x row) a))
      (done ++ rest)
    = Ok (done ++ zip_with (fun row c => upd (Z.to_nat c) x row) rest cols).
Proof.
  induction rest as [|row rest IH]; intros done cols Hc HF Hb.
  - destruct cols; [reflexivity | discriminate].
  - destruct cols as [|c cols]; [discriminate|].
    inversion HF as [|r0 l0 Hrow HF']; subst r0 l0.
    inversion Hb as [|c0 l0 Hcb Hb']; subst c0 l0.
    cbn [length seq combine]. rewrite for_each_cons. cbn [fst snd].
    rewrite py_index_nat by (rewrite length_app; simpl; lia). cbn [bind].
    rewrite item_app_mid. cbn [bind].
    rewrite <- (Z2Nat.id c) at 1 by lia.
    rewrite py_index_nat by lia. cbn [bind].
    rewrite upd_app_mid.
    replace (S (length done)) with (length (done ++ [upd (Z.to_nat c) x row]))
      by (rewrite length_app; simpl; lia).
    replace (done ++ upd (Z.to_nat c) x row :: rest)
      with ((done ++ [upd (Z.to_nat c) x row]) ++ rest)
      by (now rewrite <- app_assoc).
    rewrite IH; auto.
    + rewrite <- app_assoc. reflexivity.
Qed.

Lemma fancy_set_ok {A : Type} (a : list (list A)) (H w : nat) (cols : list Z)
  (x : A) :
  wf2 H w a -> length cols = H -> in_bounds w cols ->
  fancy_set a H cols x
  = Ok (zip_with (fun row c => upd (Z.to_nat c) x row) a cols).
Proof.
  intros [Hl HF] Hc Hb. unfold fancy_set.
  rewrite broadcast2_same by (now rewrite length_seq). cbn [bind].
  rewrite <- Hl.
  exact (fancy_set_gen w x a [] cols ltac:(lia) HF Hb).
Qed.

(** ** Multi-Seam Extractor: the loop *)

Lemma as_int_index_q (j : nat) : as_int (index_q j) = Z.of_nat j.
Proof. unfold as_int, index_q. apply Qfloor_Z. Qed.

Lemma zip_with_map_l {A B C D : Type} (f : C -> B -> D) (g : A -> C)
  (xs : list A) (ys : list B) :
  zip_with f (map g xs) ys = zip_with (fun x y => f (g x) y) xs ys.
Proof.
  unfold zip_with. revert ys. induction xs as [|x xs IH]; intros [|y ys]; simpl; auto.
  now rewrite IH.
Qed.

Lemma zip_with_swap {A B C : Type} (f : A -> B -> C) (xs : list A) (ys : list B) :
  zip_with f xs ys = zip_with (fun y x => f x y) ys xs.
Proof.
  unfold zip_with. revert ys. induction xs as [|x xs IH]; intros [|y ys]; simpl; auto.
  now rewrite IH.
Qed.

Lemma remove_rows_wf2 {A : Type} (H W : nat) (seam : list Z) (m : list (list A)) :
  wf2 H W m -> length seam = H -> in_bounds W seam ->
  wf2 H (W - 1) (remove_rows seam m).
Proof.
  intros [Hl HF] Hs Hb. split.
  - unfold remove_rows. rewrite zip_with_length. lia.
  - apply zip_with_Forall.
    pose proof (Forall2_zip (xs := seam) (ys := m) ltac:(lia) Hb HF) as HZ.
    eapply Forall2_impl; [| exact HZ]. cbv beta. intros s row [Hsb Hrl].
    rewrite remove_at_length; lia.
Qed.

Lemma original_columns_ok (H w : nat) (idx : list (list nat)) (seam : list Z) :
  wf2 H w idx -> length seam = H -> in_bounds w seam ->
  original_columns (mkarr int64 (T2 (map (map index_q) idx))) H seam
  = Ok (originals idx seam).
Proof.
  intros Hwf Hs Hb. unfold original_columns. cbn [tensor_of].
  rewrite (fancy_get_ok _ H w seam 0%Q (map_map_wf2 index_q H w idx Hwf) Hs Hb).
  cbn [bind]. f_equal. rewrite zip_with_map_l. unfold originals.
  apply map_zip_with_ext.
  destruct Hwf as [Hl HF].
  pose proof (Forall2_zip (xs := idx) (ys := seam) ltac:(lia) HF Hb) as HZ.
  eapply Forall2_impl; [|exact HZ]. cbv beta. intros row s [Hrl Hsb].
  rewrite (map_nth_in index_q row (Z.to_nat s) 0 0%Q) by lia.
  apply as_int_index_q.
Qed.

Section FindSeams.

Variables (efunc : efunc_t) (H W0 C : nat) (k : nat).
Hypothesis Hefunc : energy_ok efunc H C.
Hypothesis HH : 2 <= H.
Hypothesis HC : 2 <= C.
Hypothesis Hk : k < W0.

Let body := fun (i : nat) (st : ndarray * ndarray * list (list Z)) =>
  let '(image, indices, seams) := st in
  seam <- optimal_seam efunc (fun im e => compute_cost im e 1) backtrack_seam H
            image ;;
  image <- remove_seam image seam ;;
  orig <- original_columns indices H seam ;;
  old <- fancy_get seams H orig ;;
  _ <- py_assert (forallb (Z.eqb 0) old) "we are overwriting seams" ;;
  seams <- fancy_set seams H orig (Z.of_nat i + 1)%Z ;;
  indices <- remove_seam indices seam ;;
  Ok (image, indices, seams).

(** The loop invariant after [n] seams: the label grid and the (ghost)
    index map agree row by row, and while seams remain to be extracted the
    working image and the index array have the current width. *)
Definition extracting (n : nat) (st : ndarray * ndarray * list (list Z)) : Prop :=
  let '(image, indices, seams) := st in
  exists idx : list (list nat),
    wf2 H W0 seams /\ wf2 H (W0 - n) idx
    /\ (forall r, r < H -> row_inv W0 n (nth r idx []) (nth r seams []))
    /\ (n < k ->
        exists dt c,
          image = mkarr dt (T3 c) /\ wf3 H (W0 - n) C c
          /\ indices = mkarr int64 (T2 (map (map index_q) idx))).

Lemma find_seams_step (n : nat) (st : ndarray * ndarray * list (list Z)) :
  n < k -> extracting n st ->
  exists st', body n st = Ok st' /\ extracting (1 + n) st'.
Proof.
  intros Hn. destruct st as [[image indices] seams].
  intros (idx & Hws & Hwi & Hrows & Hshape).
  destruct (Hshape Hn) as (dt & c & -> & Hwc & ->).
  unfold body.
  destruct (optimal_seam_ok efunc H (W0 - n) C dt c Hefunc Hwc ltac:(lia)
              ltac:(lia)) as (seam & Es & Hsl & Hsb).
  rewrite Es. cbn [bind].
  rewrite (@remove_seam_core (mkarr dt (T3 c)) H (W0 - n) C c seam eq_refl Hwc
             ltac:(lia) Hsl Hsb).
  cbn [bind].
  rewrite (original_columns_ok H (W0 - n) idx seam Hwi Hsl Hsb). cbn [bind].
  (* the rows, one by one *)
  assert (Hrow : forall r, r < H ->
            let s := Z.to_nat (nth r seam 0%Z) in
            s < length (nth r idx [])
            /\ nth r (originals idx seam) 0%Z = Z.of_nat (nth s (nth r idx []) 0)).
  { intros r Hr. cbn zeta. split.
    - rewrite (wf2_nth H (W0 - n) r idx Hwi Hr).
      assert (Hb : (0 <= nth r seam 0 < Z.of_nat (W0 - n))%Z).
      { apply (proj1 (Forall_forall _ _) Hsb). apply nth_In. lia. }
      lia.
    - unfold originals.
      now rewrite (zip_with_nth _ [] 0%Z) by (destruct Hwi; lia). }
  assert (Hol : length (originals idx seam) = H).
  { unfold originals. rewrite zip_with_length. destruct Hwi. lia. }
  assert (Hob : in_bounds W0 (originals idx seam)).
  { apply Forall_nth. intros r d Hr. rewrite Hol in Hr.
    rewrite (nth_indep _ d 0%Z) by lia.
    destruct (Hrow r Hr) as [Hs Eo]. cbn zeta in Hs, Eo. rewrite Eo.
    destruct (stamp_row W0 n _ _ _ (Hrows r Hr) Hs) as (Ho & _). lia. }
  rewrite (fancy_get_ok seams H W0 (originals idx seam) 0%Z Hws Hol Hob).
  cbn [bind].
  assert (Hold : forallb (Z.eqb 0)
                   (zip_with (fun row c0 => nth (Z.to_nat c0) row 0%Z) seams
                      (originals idx seam)) = true).
  { apply forallb_forall. intros v Hv.
    apply (In_nth _ _ 1%Z) in Hv. destruct Hv as (r & Hr & <-).
    rewrite zip_with_length in Hr.
    rewrite (zip_with_nth _ [] 0%Z) by lia.
    assert (Hr' : r < H) by (destruct Hws; lia).
    destruct (Hrow r Hr') as [Hs Eo]. cbn zeta in Hs, Eo. rewrite Eo, Nat2Z.id.
    destruct (stamp_row W0 n _ _ _ (Hrows r Hr') Hs) as (_ & -> & _).
    reflexivity. }
  rewrite Hold. cbn [py_assert bind].
  rewrite (fancy_set_ok seams H W0 (originals idx seam) (Z.of_nat n + 1)%Z
             Hws Hol Hob).
  cbn [bind].
  rewrite (@remove_seam_core (mkarr int64 (T2 (map (map index_q) idx))) H
             (W0 - n) 1 (expand_dims (map (map index_q) idx)) seam eq_refl
             (expand_dims_wf H (W0 - n) _ (map_map_wf2 index_q H (W0 - n) idx Hwi))
             ltac:(lia) Hsl Hsb).
  cbn [bind]. eexists. split; [reflexivity|].
  cbn [extracting]. exists (remove_rows seam idx).
  split; [|split; [|split]].
  - destruct Hws as [Hl HF]. split; [rewrite zip_with_length; lia|].
    apply zip_with_Forall.
    pose proof (Forall2_zip (xs := seams) (ys := originals idx seam) ltac:(lia)
                  HF Hob) as HZ.
    eapply Forall2_impl; [|exact HZ]. cbv beta. intros row o [Hrl _].
    now rewrite upd_length.
  - replace (W0 - (1 + n)) with (W0 - n - 1) by lia.
    now apply remove_rows_wf2.
  - intros r Hr.
    destruct (Hrow r Hr) as [Hs Eo]. cbn zeta in Hs, Eo.
    unfold remove_rows.
    rewrite (zip_with_nth _ 0%Z []) by (destruct Hwi; lia).
    rewrite (zip_with_nth _ [] 0%Z) by (destruct Hws; lia).
    rewrite Eo, Nat2Z.id.
    destruct (stamp_row W0 n _ _ _ (Hrows r Hr) Hs) as (_ & _ & Hinv).
    exact Hinv.
  - intros Hn'. exists dt, (remove_rows seam c).
    cbn [dtype_of]. rewrite squeeze3_keep by lia.
    split; [reflexivity|]. split.
    + replace (W0 - (1 + n)) with (W0 - n - 1) by lia.
      exact (@remove_rows_wf _ H (W0 - n) C seam c Hwc Hsl Hsb).
    + unfold squeeze3.
      destruct (Nat.eqb_spec H 1); [lia|].
      destruct (Nat.eqb_spec (W0 - n - 1) 1); [lia|]. cbn [Nat.eqb].
      unfold expand_dims. rewrite !remove_rows_map.
      do 2 f_equal. rewrite !map_map.
      apply map_ext. intros row. rewrite !map_map. reflexivity.
Qed.

Lemma find_seams_loop (dt : dtype) (c : list (list (list Q))) :
  wf3 H W0 C c ->
  exists st,
    for_each (seq 0 k) body
      (mkarr dt (T3 c),
       mkarr int64 (T2 (repeat (map (fun j => inject_Z (Z.of_nat j)) (seq 0 W0)) H)),
       repeat (repeat 0%Z W0) H) = Ok st
    /\ extracting k st.
Proof.
  intros Hwc.
  destruct (for_each_seq_inv body extracting k 0
              (mkarr dt (T3 c),
               mkarr int64
                 (T2 (repeat (map (fun j => inject_Z (Z.of_nat j)) (seq 0 W0)) H)),
               repeat (repeat 0%Z W0) H)) as (st & E & HP).
  - cbn [extracting]. exists (repeat (seq 0 W0) H).
    assert (Hrep : forall (A : Type) (x : list A) (n : nat),
              length x = n -> wf2 H n (repeat x H)).
    { intros A x n Hx. split; [apply repeat_length|].
      apply Forall_forall. intros r Hr. apply repeat_spec in Hr. now subst. }
    split; [apply Hrep, repeat_length|].
    split; [rewrite Nat.sub_0_r; apply Hrep, length_seq|].
    split.
    + intros r Hr.
      rewrite (nth_indep _ [] (seq 0 W0)) by (rewrite repeat_length; lia).
      rewrite nth_repeat.
      rewrite (nth_indep _ [] (repeat 0%Z W0)) by (rewrite repeat_length; lia).
      rewrite nth_repeat.
      unfold row_inv. rewrite repeat_length.
      split; [reflexivity|]. split; [apply seq_NoDup|].
      split; [intros j Hj; apply in_seq in Hj; lia|].
      split; [|split].
      * intros j Hj. rewrite in_seq.
        rewrite nth_repeat. split; [lia | reflexivity].
      * apply Forall_forall. intros v Hv. apply repeat_spec in Hv. lia.
      * intros l Hl. lia.
    + intros _. exists dt, c. rewrite Nat.sub_0_r.
      split; [reflexivity|]. split; [exact Hwc|].
      now rewrite map_repeat.
  - intros i st Hi HPi. apply find_seams_step; [lia | exact HPi].
  - exists st. split; [exact E | exact HP].
Qed.

End FindSeams.

Lemma count_occ_concat (l : Z) (rows : list (list Z)) :
  Forall (fun row => count_occ Z.eq_dec row l = 1) rows ->
  count_occ Z.eq_dec (concat rows) l = length rows.
Proof.
  induction 1 as [|row rows E _ IH]; [reflexivity|].
  cbn [concat length]. rewrite count_occ_app, E, IH. reflexivity.
Qed.

Lemma find_seams_ok (efunc : efunc_t) (dt : dtype) (H W C : nat)
  (c : list (list (list Q))) (k : Z) :
  energy_ok efunc H C -> wf3 H W C c -> 2 <= H -> 2 <= C ->
  (0 <= k < Z.of_nat W)%Z ->
  exists seams,
    find_seams (mkarr dt (T3 c)) k 1 efunc (fun im e => compute_cost im e 1)
      backtrack_seam remove_seam
    = Ok (mkarr int64 (T2 (map (map inject_Z) seams)))
    /\ labelled H W k seams.
Proof.
  intros He Hwc HH HC Hk. unfold find_seams.
  change (1 =? 0)%Z with false. cbv iota. cbn [bind unpack3 tensor_of].
  pose proof (wf3_hd Hwc ltac:(lia)) as Hhd.
  assert (HW : length (hd [] c) = W) by apply Hhd.
  assert (HL : length c = H) by apply Hwc.
  rewrite HW, HL.
  destruct (Z.ltb_spec k (Z.of_nat W)); [|lia]. cbn [py_assert bind].
  destruct (find_seams_loop efunc H W C (Z.to_nat k) He HH HC ltac:(lia) dt c Hwc)
    as (st & E & Hst).
  unfold range. rewrite E. cbn [bind].
  destruct st as [[image indices] seams].
  destruct Hst as (idx & Hws & _ & Hrows & _).
  exists seams. split; [reflexivity|].
  split; [exact Hws|]. split.
  - apply Forall_nth. intros r d Hr.
    assert (Hr' : r < H) by (destruct Hws; lia).
    rewrite (nth_indep _ d []) by lia.
    destruct (Hrows r Hr') as (_ & _ & _ & _ & Hrange & _).
    eapply Forall_impl; [|exact Hrange]. cbv beta. intros v Hv. lia.
  - intros l Hl. apply Forall_nth. intros r d Hr.
    assert (Hr' : r < H) by (destruct Hws; lia).
    rewrite (nth_indep _ d []) by lia.
    destruct (Hrows r Hr') as (_ & _ & _ & _ & _ & Hcount).
    apply Hcount. lia.
Qed.

(** ** Enlargement: duplicating the labelled seams *)

Lemma Qeq_bool_inject (x v : Z) :
  Qeq_bool (inject_Z x) (inject_Z v) = if Z.eq_dec x v then true else false.
Proof.
  destruct (Z.eq_dec x v) as [->|Hne].
  - apply Qeq_bool_iff. reflexivity.
  - destruct (Qeq_bool (inject_Z x) (inject_Z v)) eqn:E; [|reflexivity].
    apply Qeq_bool_iff in E. rewrite inject_Z_injective in E. contradiction.
Qed.

Lemma where_row (v : Z) :
  forall (row : list Z) (a : nat),
    let hits :=
      map (fun p => Z.of_nat (fst p))
        (filter (fun p => Qeq_bool (snd p) (inject_Z v))
           (combine (seq a (length (map inject_Z row))) (map inject_Z row))) in
    (count_occ Z.eq_dec row v = 0 -> hits = [])
    /\ (count_occ Z.eq_dec row v = 1 ->
        hits = [Z.of_nat (a + position v row)]
        /\ position v row < length row
        /\ nth (position v row) row 0%Z = v).
Proof.
  induction row as [|x t IH]; intros a; cbn zeta.
  - split; [reflexivity | discriminate].
  - cbn [map length seq combine filter snd count_occ position].
    rewrite Qeq_bool_inject.
    destruct (IH (S a)) as [IH0 IH1]. cbn zeta in IH0, IH1.
    destruct (Z.eq_dec x v) as [->|Hne].
    + split; [discriminate|]. intros E. injection E as E.
      cbn [map fst]. rewrite (IH0 E).
      rewrite Nat.add_0_r. repeat split; simpl; lia.
    + split.
      * intros E. now apply IH0.
      * intros E. destruct (IH1 E) as (Eh & Hp & Hn).
        rewrite Eh. replace (S a + position v t) with (a + S (position v t)) by lia.
        repeat split; [simpl; lia | exact Hn].
Qed.

Lemma where_col_ok (dt : dtype) (v : Z) (rows : list (list Z)) :
  Forall (fun row => count_occ Z.eq_dec row v = 1) rows ->
  where_col (mkarr dt (T2 (map (map inject_Z) rows))) v = Ok (positions v rows).
Proof.
  intros HF. unfold where_col. cbn [tensor_of]. f_equal. unfold positions.
  induction HF as [|row rows E _ IH]; [reflexivity|].
  cbn [map concat]. rewrite IH.
  destruct (where_row v row 0) as [_ H1]. cbn zeta in H1.
  destruct (H1 E) as (-> & _). reflexivity.
Qed.

Lemma positions_bounds (W : nat) (v : Z) (rows : list (list Z)) :
  Forall (fun row => length row = W) rows ->
  Forall (fun row => count_occ Z.eq_dec row v = 1) rows ->
  in_bounds W (positions v rows).
Proof.
  intros HL HF. unfold positions, in_bounds. apply Forall_map.
  apply Forall_forall. intros row Hin.
  pose proof (proj1 (Forall_forall _ _) HL row Hin) as Hl.
  pose proof (proj1 (Forall_forall _ _) HF row Hin) as Hc. cbv beta in Hl, Hc.
  destruct (where_row v row 0) as [_ H1]. cbn zeta in H1.
  destruct (H1 Hc) as (_ & Hp & _). lia.
Qed.

Lemma dup_at_map {A B : Type} (f : A -> B) (s : nat) (row : list A) :
  dup_at s (map f row) = map f (dup_at s row).
Proof. unfold dup_at. now rewrite map_app, firstn_map, skipn_map. Qed.

Lemma dup_rows_map {A B : Type} (f : A -> B) (seam : list Z) (m : list (list A)) :
  dup_rows seam (map (map f) m) = map (map f) (dup_rows seam m).
Proof.
  unfold dup_rows, zip_with. revert m.
  induction seam as [|s seam IH]; intros [|r m]; simpl; auto.
  now rewrite dup_at_map, IH.
Qed.

Lemma dup_rows_wf2 {A : Type} (H W : nat) (seam : list Z) (m : list (list A)) :
  wf2 H W m -> length seam = H -> in_bounds W seam ->
  wf2 H (W + 1) (dup_rows seam m).
Proof.
  intros [Hl HF] Hs Hb. split.
  - unfold dup_rows. rewrite zip_with_length. lia.
  - apply zip_with_Forall.
    pose proof (Forall2_zip (xs := seam) (ys := m) ltac:(lia) Hb HF) as HZ.
    eapply Forall2_impl; [| exact HZ]. cbv beta. intros s row [Hsb Hrl].
    rewrite dup_at_length; lia.
Qed.

Lemma count_occ_dup_at (p : nat) (l : Z) (row : list Z) :
  p < length row -> nth p row 0%Z <> l ->
  count_occ Z.eq_dec (dup_at p row) l = count_occ Z.eq_dec row l.
Proof.
  intros Hp Hne. destruct (nth_split row 0%Z Hp) as (l1 & l2 & E & Hl1).
  set (x := nth p row 0%Z) in *. clearbody x. subst row p.
  unfold dup_at.
  replace (S (length l1)) with (length l1 + 1) by lia.
  rewrite firstn_app_2. cbn [firstn].
  rewrite skipn_app, Nat.sub_diag, skipn_all. cbn [skipn app].
  rewrite !count_occ_app. cbn [count_occ].
  destruct (Z.eq_dec x l); [contradiction | lia].
Qed.

Lemma channel0_expand (m : list (list Q)) :
  mapM (mapM (fun px : list Q => item px 0%Z)) (expand_dims m) = Ok m.
Proof.
  unfold expand_dims. apply mapM_Forall2.
  induction m as [|row m IH]; constructor; [|exact IH].
  apply mapM_Forall2. induction row as [|x row IHr]; constructor; auto.
Qed.

Lemma duplicate_labels (dt : dtype) (H W : nat) (m : list (list Q))
  (col : list Z) :
  wf2 H W m -> 1 <= H -> length col = H -> in_bounds W col ->
  (sm3 <- newaxis2 (mkarr dt (T2 m)) ;;
   sm <- duplicate_seam sm3 col ;;
   channel0 sm) = Ok (mkarr float64 (T2 (dup_rows col m))).
Proof.
  intros Hwf HH Hc Hb. unfold newaxis2. cbn [tensor_of dtype_of bind].
  rewrite (duplicate_seam_spec dt (expand_dims_wf H W m Hwf) HH Hc Hb).
  cbn [bind]. unfold channel0. cbn [tensor_of dtype_of].
  unfold expand_dims at 1. rewrite dup_rows_map. fold (expand_dims (dup_rows col m)).
  rewrite channel0_expand. reflexivity.
Qed.

Section Enlarge.

Variables (H W C : nat) (k : nat).
Hypothesis HH : 1 <= H.

Let body := fun (i : nat) (st : ndarray * ndarray) =>
  let (out, seams_matrix) := st in
  col <- where_col seams_matrix (Z.of_nat i + 1) ;;
  out <- duplicate_seam out col ;;
  sm3 <- newaxis2 seams_matrix ;;
  seams_matrix <- duplicate_seam sm3 col ;;
  seams_matrix <- channel0 seams_matrix ;;
  Ok (out, seams_matrix).

(** After [i] duplications the image and the label grid are [i] columns
    wider, and the labels still to come occupy one cell per row. *)
Definition duplicating (i : nat) (st : ndarray * ndarray) : Prop :=
  let (out, sm) := st in
  exists dt1 c1 dt2 rows,
    out = mkarr dt1 (T3 c1) /\ wf3 H (W + i) C c1
    /\ (1 <= i -> dt1 = float64)
    /\ sm = mkarr dt2 (T2 (map (map inject_Z) rows)) /\ wf2 H (W + i) rows
    /\ forall l, (Z.of_nat i < l <= Z.of_nat k)%Z ->
         Forall (fun row => count_occ Z.eq_dec row l = 1) rows.

Lemma enlarge_step (i : nat) (st : ndarray * ndarray) :
  i < k -> duplicating i st ->
  exists st', body i st = Ok st' /\ duplicating (1 + i) st'.
Proof.
  intros Hi. destruct st as [out sm].
  intros (dt1 & c1 & dt2 & rows & -> & Hwc & _ & -> & Hwr & Hcount).
  unfold body.
  pose proof (Hcount (Z.of_nat i + 1)%Z ltac:(lia)) as Hone.
  rewrite (where_col_ok dt2 _ rows Hone). cbn [bind].
  set (col := positions (Z.of_nat i + 1) rows).
  assert (Hcl : length col = H)
    by (unfold col, positions; rewrite length_map; apply Hwr).
  assert (Hcb : in_bounds (W + i) col)
    by (apply positions_bounds; [apply Hwr | exact Hone]).
  rewrite (duplicate_seam_spec dt1 Hwc HH Hcl Hcb). cbn [bind].
  pose proof (duplicate_labels dt2 H (W + i) (map (map inject_Z) rows) col
                (map_map_wf2 inject_Z H (W + i) rows Hwr) HH Hcl Hcb) as Hdl.
  unfold newaxis2 in Hdl. cbn [tensor_of dtype_of bind] in Hdl.
  unfold newaxis2. cbn [tensor_of dtype_of bind].
  destruct (duplicate_seam _ col) as [sm3|e] eqn:Ed in Hdl; [|discriminate].
  rewrite Ed. cbn [bind] in *. rewrite Hdl. cbn [bind].
  eexists. split; [reflexivity|]. cbn [duplicating].
  exists float64, (dup_rows col c1), float64, (dup_rows col rows).
  replace (W + (1 + i)) with (W + i + 1) by lia.
  split; [reflexivity|].
  split; [exact (@dup_rows_wf _ H (W + i) C col c1 Hwc Hcl Hcb)|].
  split; [reflexivity|].
  split; [now rewrite dup_rows_map|].
  split; [now apply dup_rows_wf2|].
  intros l Hl. apply Forall_nth. intros r d Hr.
  unfold dup_rows in Hr. rewrite zip_with_length in Hr.
  rewrite (nth_indep _ d []) by (unfold dup_rows; rewrite zip_with_length; lia).
  unfold dup_rows. rewrite (zip_with_nth _ 0%Z []) by lia.
  assert (Hrin : In (nth r rows []) rows) by (apply nth_In; lia).
  unfold col, positions.
  rewrite (map_nth_in _ rows r [] 0%Z) by lia. rewrite Nat2Z.id.
  pose proof (proj1 (Forall_forall _ _) Hone _ Hrin) as Hc1. cbv beta in Hc1.
  destruct (where_row (Z.of_nat i + 1) (nth r rows []) 0) as [_ H1].
  cbn zeta in H1. destruct (H1 Hc1) as (_ & Hp & Hn).
  rewrite count_occ_dup_at by (auto; lia).
  apply (proj1 (Forall_forall _ _) (Hcount l ltac:(lia)) _ Hrin).
Qed.

End Enlarge.

Lemma enlarge_ok (efunc : efunc_t) (dt : dtype) (H W C : nat)
  (c : list (list (list Q))) (size : Z) :
  energy_ok efunc H C -> wf3 H W C c -> 2 <= H -> 2 <= C ->
  (Z.of_nat W < size < 2 * Z.of_nat W)%Z ->
  exists c',
    enlarge (mkarr dt (T3 c)) size 1 efunc (fun im e => compute_cost im e 1)
      duplicate_seam backtrack_seam remove_seam
    = Ok (mkarr float64 (T3 c'))
    /\ wf3 H (Z.to_nat size) C c'.
Proof.
  intros He Hwc HH HC Hsize. unfold enlarge.
  change (1 =? 0)%Z with false. cbv iota. cbn [bind unpack3 tensor_of].
  pose proof (wf3_hd Hwc ltac:(lia)) as Hhd.
  assert (HW : length (hd [] c) = W) by apply Hhd. rewrite HW.
  destruct (Z.ltb_spec (Z.of_nat W) size); [|lia].
  destruct (Z.leb_spec size (2 * Z.of_nat W)); [|lia].
  cbn [py_assert bind].
  destruct (find_seams_ok efunc dt H W C c (size - Z.of_nat W) He Hwc HH HC
              ltac:(lia)) as (seams & Ef & Hws & _ & Hcount).
  rewrite Ef. cbn [bind].
  set (k := Z.to_nat (size - Z.of_nat W)).
  destruct (for_each_seq_inv
              (fun (i : nat) (st : ndarray * ndarray) =>
                 let (out, seams_matrix) := st in
                 col <- where_col seams_matrix (Z.of_nat i + 1) ;;
                 out <- duplicate_seam out col ;;
                 sm3 <- newaxis2 seams_matrix ;;
                 seams_matrix <- duplicate_seam sm3 col ;;
                 seams_matrix <- channel0 seams_matrix ;;
                 Ok (out, seams_matrix))
              (duplicating H W C k) k 0
              (mkarr dt (T3 c), mkarr int64 (T2 (map (map inject_Z) seams))))
    as (st & E & Hst).
  - cbn [duplicating]. exists dt, c, int64, seams. rewrite Nat.add_0_r.
    repeat split; auto; try apply Hwc; try apply Hws; try lia.
    intros l Hl. apply Hcount. lia.
  - intros i st Hi Hd. apply (enlarge_step H W C k ltac:(lia) i st); [lia | exact Hd].
  - unfold range. fold k. rewrite E. cbn [bind].
    destruct st as [out sm].
    destruct Hst as (dt1 & c1 & dt2 & rows & -> & Hw1 & Hdt & _).
    rewrite (Hdt ltac:(lia)).
    exists c1. split; [reflexivity|].
    now replace (Z.to_nat size) with (W + (0 + k)) by lia.
Qed.

Lemma luma_ok (H : nat) : gray_ok luma H 3.
Proof.
  intros dt c W [Hl HF]. unfold luma. cbn [tensor_of dtype_of].
  destruct (mapM_Forall
              (mapM (fun px : list Q =>
                       match px with
                       | [r; g; b] =>
                           Ok ((2125 # 10000)
                               * match dt with uint8 => r / 255 | _ => r end
                               + (7154 # 10000)
                                 * match dt with uint8 => g / 255 | _ => g end
                               + (721 # 10000)
                                 * match dt with uint8 => b / 255 | _ => b end)%Q
                       | _ => Raise ValueError
                       end))
              (fun r : list Q => length r = W) c) as (g & E & Eg & HP).
  - eapply Forall_impl; [|exact HF]. cbv beta. intros row [Hrl Hrf].
    destruct (mapM_Forall
                (fun px : list Q =>
                   match px with
                   | [r; g; b] =>
                       Ok ((2125 # 10000)
                           * match dt with uint8 => r / 255 | _ => r end
                           + (7154 # 10000)
                             * match dt with uint8 => g / 255 | _ => g end
                           + (721 # 10000)
                             * match dt with uint8 => b / 255 | _ => b end)%Q
                   | _ => Raise ValueError
                   end) (fun _ : Q => True) row) as (gr & Er & Egr & _).
    + eapply Forall_impl; [|exact Hrf]. cbv beta. intros px Hpx.
      destruct px as [|r [|g [|b [|x px]]]]; simpl in Hpx; try lia.
      eexists. split; [reflexivity | exact I].
    + exists gr. split; [exact Er | lia].
  - exists g. split; [exact E|]. split; [lia | exact HP].
Qed.

(** C7, amended.  On a grid with at least two rows and two channels, with an
    energy function that accepts every working grid, [find_seams] for
    [0 <= k < W] seams returns an [H x W] label grid -- so no stamp ever
    hits a labelled cell -- whose cells hold 0 or a label in [1..k], and in
    which every label [1..k] occupies exactly one cell of every row, [H]
    cells in all. *)
Theorem find_seams_labels (efunc : efunc_t) (dt : dtype) (H W C : nat)
  (c : list (list (list Q))) (k : Z) :
  energy_ok efunc H C -> wf3 H W C c -> 2 <= H -> 2 <= C ->
  (0 <= k < Z.of_nat W)%Z ->
  exists seams,
    find_seams (mkarr dt (T3 c)) k 1 efunc (fun im e => compute_cost im e 1)
      backtrack_seam remove_seam
    = Ok (mkarr int64 (T2 (map (map inject_Z) seams)))
    /\ wf2 H W seams
    /\ Forall (Forall (fun v => (0 <= v <= k)%Z)) seams
    /\ forall l, (1 <= l <= k)%Z ->
         Forall (fun row => count_occ Z.eq_dec row l = 1) seams
         /\ count_occ Z.eq_dec (concat seams) l = H.
Proof.
  intros He Hwc HH HC Hk.
  destruct (find_seams_ok efunc dt H W C c k He Hwc HH HC Hk)
    as (seams & E & Hws & Hrange & Hcount).
  exists seams. split; [exact E|]. split; [exact Hws|]. split; [exact Hrange|].
  intros l Hl. split; [now apply Hcount|].
  rewrite (count_occ_concat l seams (Hcount l Hl)). apply Hws.
Qed.

Lemma cube24_wf : wf3 2 4 3 cube24.
Proof. split; [reflexivity|]. repeat constructor. Defined.

Lemma find_seams_labels_witness :
  exists seams,
    find_seams image24 2 1 (energy_function luma)
      (fun im e => compute_cost im e 1) backtrack_seam remove_seam
    = Ok (mkarr int64 (T2 (map (map inject_Z) seams)))
    /\ wf2 2 4 seams
    /\ Forall (Forall (fun v => (0 <= v <= 2)%Z)) seams
    /\ forall l, (1 <= l <= 2)%Z ->
         Forall (fun row => count_occ Z.eq_dec row l = 1) seams
         /\ count_occ Z.eq_dec (concat seams) l = 2.
Proof.
  apply (find_seams_labels (energy_function luma) uint8 2 4 3 cube24 2).
  - apply energy_function_ok; [apply luma_ok | lia].
  - exact cube24_wf.
  - lia.
  - lia.
  - simpl. lia.
Defined.

(** C7 as stated fails on a grid of a single row: the energy function
    cannot take the gradient across rows, and no label grid is returned. *)
Lemma find_seams_single_row_raises :
  find_seams (grey_image uint8 [[10; 20; 40]]%Z) 1 1 (energy_function luma)
    (fun im e => compute_cost im e 1) backtrack_seam remove_seam
  = Raise ValueError.
Proof. vm_compute. reflexivity. Qed.

(** ** Object removal *)

Lemma mask_energy_ok (H W w : nat) (mask : list (list bool))
  (energy : list (list Q)) :
  wf2 H W mask -> wf2 H w energy -> w <= W ->
  exists e, mask_energy mask energy = Ok e /\ wf2 H w e.
Proof.
  intros Hwm [Hle HFe] Hw. unfold mask_energy.
  destruct (mapM_Forall
              (fun ir : nat * list Q =>
                 mapM (fun je : nat * Q =>
                         m <- item2 mask (Z.of_nat (fst ir)) (Z.of_nat (fst je)) ;;
                         Ok (if (m : bool) then (-100000)%Q else snd je))
                   (combine (seq 0 (length (snd ir))) (snd ir)))
              (fun r : list Q => length r = w)
              (combine (seq 0 (length energy)) energy)) as (e & E & El & HP).
  - apply Forall_forall. intros [i row] Hin. cbn [fst snd].
    pose proof (in_combine_l _ _ _ _ Hin) as Hi. apply in_seq in Hi.
    pose proof (in_combine_r _ _ _ _ Hin) as Hr.
    pose proof (proj1 (Forall_forall _ _) HFe row Hr) as Hrl. cbv beta in Hrl.
    destruct (mapM_Forall
                (fun je : nat * Q =>
                   m <- item2 mask (Z.of_nat i) (Z.of_nat (fst je)) ;;
                   Ok (if (m : bool) then (-100000)%Q else snd je))
                (fun _ : Q => True)
                (combine (seq 0 (length row)) row)) as (r' & Er & Erl & _).
    + apply Forall_forall. intros [j x] Hjx. cbn [fst snd].
      pose proof (in_combine_l _ _ _ _ Hjx) as Hj. apply in_seq in Hj.
      rewrite (item2_nat H W i j mask false) by (auto; lia).
      cbn [bind]. eexists. split; [reflexivity | exact I].
    + exists r'. split; [exact Er|].
      rewrite Erl, length_combine, length_seq. lia.
  - exists e. split; [exact E|]. split; [|exact HP].
    rewrite El, length_combine, length_seq. lia.
Qed.

Lemma mask_counts (H W : nat) (mask : list (list bool)) :
  wf2 H W mask -> 1 <= H ->
  (n <- mapM (fun i => row <- item mask (Z.of_nat i) ;; Ok (count_true row))
          (seq 0 H) ;;
   amax n) = Ok (max_count mask).
Proof.
  intros [Hl HF] HH.
  rewrite (mapM_Forall2 _ (seq 0 H) (map count_true mask)).
  - cbn [bind]. unfold amax, max_count.
    destruct mask as [|r m]; [simpl in Hl; lia | reflexivity].
  - apply (Forall2_nth _ 0 0).
    + now rewrite length_seq, length_map.
    + intros i Hi. rewrite length_seq in Hi. rewrite seq_nth by lia. cbn [plus].
      rewrite (item_in_range mask (Z.of_nat i) []) by lia.
      cbn [bind]. rewrite Nat2Z.id.
      now rewrite (map_nth_in count_true mask i [] 0) by lia.
Qed.

Lemma shape_wf3 (H W C : nat) (c : list (list (list Q))) :
  wf3 H W C c -> 1 <= H -> 1 <= W -> shape (T3 c) = [H; W; C].
Proof.
  intros Hwf HH HW. pose proof (wf3_hd Hwf HH) as Hhd.
  cbn [shape]. f_equal; [apply Hwf|]. f_equal; [apply Hhd|].
  f_equal. apply (wf2_hd Hhd). lia.
Qed.

Lemma remove_object_ok (rgb2gray : ndarray -> result (list (list Q)))
  (dt : dtype) (H W : nat) (c : list (list (list Q))) (mask : list (list bool)) :
  gray_ok rgb2gray H 3 -> wf3 H W 3 c -> 2 <= H -> wf2 H W mask ->
  2 * (max_count mask + 30) < W ->
  exists c',
    remove_object rgb2gray (mkarr dt (T3 c)) mask = Ok (mkarr float64 (T3 c'))
    /\ wf3 H W 3 c'.
Proof.
  intros Hg Hwc HH Hwm Hsize. unfold remove_object.
  pose proof (energy_function_ok rgb2gray H 3 Hg HH) as He.
  cbn [tensor_of].
  rewrite (shape_wf3 H W 3 c Hwc ltac:(lia) ltac:(lia)).
  cbn [firstn].
  assert (Hms : [length mask; length (hd [] mask)] = [H; W]).
  { f_equal; [apply Hwm|]. f_equal. apply (wf2_hd Hwm). lia. }
  rewrite Hms.
  destruct (list_eq_dec Nat.eq_dec [H; W] [H; W]) as [_|Hne]; [|congruence].
  cbn [py_assert bind unpack3 tensor_of].
  pose proof (wf3_hd Hwc ltac:(lia)) as Hhd.
  assert (HW : length (hd [] c) = W) by apply Hhd.
  assert (HL : length c = H) by apply Hwc.
  rewrite HW, HL.
  pose proof (mask_counts H W mask Hwm ltac:(lia)) as Hcounts.
  destruct (mapM _ (seq 0 H)) as [n|e] eqn:En; [|discriminate].
  cbn [bind] in Hcounts. cbn [bind]. rewrite Hcounts. cbn [bind].
  set (passes := max_count mask + 30) in *.
  destruct (for_each_seq_inv
              (fun (_ : nat) (out : ndarray) =>
                 energy <- energy_function rgb2gray out ;;
                 energy <- mask_energy mask energy ;;
                 cp <- compute_cost out energy 1 ;;
                 let (cost, paths) := cp in
                 last <- item cost (Z.of_nat H - 1) ;;
                 end_ <- argmin last ;;
                 seam <- backtrack_seam paths end_ ;;
                 remove_seam out seam)
              (fun (i : nat) (out : ndarray) =>
                 exists ci, out = mkarr dt (T3 ci) /\ wf3 H (W - i) 3 ci)
              passes 0 (mkarr dt (T3 c))) as (out & E & (cw & -> & Hww)).
  - exists c. rewrite Nat.sub_0_r. auto.
  - intros i out Hi (ci & -> & Hwi).
    destruct (He dt ci (W - i) Hwi ltac:(lia)) as (e & Ee & Hwe).
    rewrite Ee. cbn [bind].
    destruct (mask_energy_ok H W (W - i) mask e Hwm Hwe ltac:(lia))
      as (e' & Em & Hwe').
    rewrite Em. cbn [bind].
    destruct (seam_of_energy_ok (mkarr dt (T3 ci)) H (W - i) e' Hwe' ltac:(lia)
                ltac:(lia))
      as (cost & paths & last & end_ & seam & E1 & E2 & E3 & E4 & Hl & Hb).
    rewrite E1. cbn [bind]. rewrite E2. cbn [bind]. rewrite E3. cbn [bind].
    rewrite E4. cbn [bind].
    destruct (remove_seam_grid dt H (W - i) 3 ci seam Hwi HH ltac:(lia)
                ltac:(lia) Hl Hb) as [Er Hwr].
    rewrite Er. eexists. split; [reflexivity|].
    exists (remove_rows seam ci). split; [reflexivity|].
    now replace (W - (1 + i)) with (W - i - 1) by lia.
  - rewrite E. cbn [bind].
    destruct (enlarge_ok (energy_function rgb2gray) dt H (W - (0 + passes)) 3 cw
                (Z.of_nat W) He Hww HH ltac:(lia) ltac:(lia)) as (c' & Ec & Hwc').
    rewrite Ec. cbn [bind]. rewrite Nat2Z.id in Hwc'.
    cbn [tensor_of].
    rewrite (shape_wf3 H W 3 c' Hwc' ltac:(lia) ltac:(lia)).
    destruct (list_eq_dec Nat.eq_dec [H; W; 3] [H; W; 3]) as [_|Hne];
      [|congruence].
    cbn [py_assert bind]. exists c'. auto.
Qed.

Lemma wf2b_ok {A : Type} (H W : nat) (m : list (list A)) :
  wf2b H W m = true -> wf2 H W m.
Proof.
  unfold wf2b. intros E. apply andb_true_iff in E. destruct E as [E1 E2].
  apply Nat.eqb_eq in E1. split; [exact E1|].
  apply Forall_forall. intros r Hr.
  apply Nat.eqb_eq. revert r Hr. now apply forallb_forall.
Defined.

Lemma wf3b_ok {A : Type} (H W C : nat) (c : list (list (list A))) :
  wf3b H W C c = true -> wf3 H W C c.
Proof.
  unfold wf3b. intros E. apply andb_true_iff in E. destruct E as [E1 E2].
  apply Nat.eqb_eq in E1. split; [exact E1|].
  apply Forall_forall. intros r Hr. apply wf2b_ok.
  revert r Hr. now apply forallb_forall.
Defined.

Lemma all_false_mask (H W : nat) :
  wf2 H W (repeat (repeat false W) H)
  /\ (1 <= H -> max_count (repeat (repeat false W) H) = 0).
Proof.
  split.
  - split; [apply repeat_length|]. apply Forall_forall. intros r Hr.
    apply repeat_spec in Hr. subst r. apply repeat_length.
  - intros HH. unfold max_count. rewrite map_repeat.
    assert (E0 : count_true (repeat false W) = 0).
    { unfold count_true. induction W as [|n IH]; [reflexivity | exact IH]. }
    rewrite E0. destruct H as [|n]; [lia|]. cbn [repeat].
    clear. induction n as [|n IH]; [reflexivity | exact IH].
Qed.

(** C9, amended.  On an [H x W x 3] grid with at least two rows and more
    than 60 columns, [remove_object] with an all-false mask returns a
    [float64] grid of the shape of the input: 30 seams are removed and 30
    seams are duplicated, so the samples are in general not those of the
    input. *)
Theorem remove_object_all_false (rgb2gray : ndarray -> result (list (list Q)))
  (dt : dtype) (H W : nat) (c : list (list (list Q))) :
  gray_ok rgb2gray H 3 -> wf3 H W 3 c -> 2 <= H -> 60 < W ->
  exists c',
    remove_object rgb2gray (mkarr dt (T3 c)) (repeat (repeat false W) H)
    = Ok (mkarr float64 (T3 c'))
    /\ wf3 H W 3 c'
    /\ shape (T3 c') = shape (T3 c).
Proof.
  intros Hg Hwc HH HW.
  destruct (all_false_mask H W) as [Hwm Hmax].
  destruct (remove_object_ok rgb2gray dt H W c (repeat (repeat false W) H) Hg Hwc
              HH Hwm) as (c' & E & Hwc').
  - rewrite Hmax by lia. lia.
  - exists c'. split; [exact E|]. split; [exact Hwc'|].
    now rewrite !(shape_wf3 H W 3) by (auto; lia).
Qed.

Lemma remove_object_all_false_witness :
  exists c',
    remove_object luma image61 (repeat (repeat false 61) 2)
    = Ok (mkarr float64 (T3 c'))
    /\ wf3 2 61 3 c'
    /\ shape (T3 c') = shape (T3 cube61).
Proof.
  apply (remove_object_all_false luma float64 2 61 cube61).
  - apply luma_ok.
  - apply wf3b_ok. vm_compute. reflexivity.
  - lia.
  - lia.
Defined.

(** C9 as stated fails.  On a 2 x 2 image the second pass receives a grid
    that [remove_seam] has squeezed to two axes, and the call raises.  On
    [image61] the call returns, but the first cell of the result holds 36
    where the input holds 0. *)
Lemma remove_object_changes_grid :
  remove_object luma image22 (repeat (repeat false 2) 2) = Raise ValueError
  /\ exists out c,
       remove_object luma image61 (repeat (repeat false 61) 2) = Ok out
       /\ tensor_of out = T3 c
       /\ nth 0 (nth 0 (nth 0 c []) []) 0%Q = 36%Q
       /\ nth 0 (nth 0 (nth 0 cube61 []) []) 0%Q = 0%Q
       /\ ~ (36 == 0)%Q.
Proof.
  split; [vm_compute; reflexivity|].
  eexists. eexists. split; [vm_compute; reflexivity|].
  split; [reflexivity|]. split; [reflexivity|]. split; [reflexivity | discriminate].
Qed.

(** ** Element types *)

Lemma for_each_last {St X : Type} (body : X -> St -> result St) (P : St -> Prop) :
  (forall x a b, body x a = Ok b -> P b) ->
  forall (xs : list X) (s s' : St),
    xs <> [] -> for_each xs body s = Ok s' -> P s'.
Proof.
  intros Hstep. induction xs as [|x xs IH]; intros s s' Hne E; [congruence|].
  rewrite for_each_cons in E. apply bind_inv in E. destruct E as (s1 & E1 & E2).
  destruct xs as [|y ys].
  - cbn [for_each] in E2. injection E2 as <-. eapply Hstep; eauto.
  - eapply IH; [discriminate | exact E2].
Qed.

Lemma duplicate_seam_dtype (image : ndarray) (seam : list Z) (out : ndarray) :
  duplicate_seam image seam = Ok out -> dtype_of out = float64.
Proof.
  unfold duplicate_seam. intros E.
  apply bind_inv in E. destruct E as (c & _ & E).
  apply bind_inv in E. destruct E as (rows & _ & E).
  injection E as <-. reflexivity.
Qed.

Lemma transpose102_dtype (a b : ndarray) :
  transpose102 a = Ok b -> dtype_of b = dtype_of a.
Proof.
  unfold transpose102. destruct (tensor_of a); try discriminate.
  intros E. injection E as <-. reflexivity.
Qed.

Lemma py_assert_inv (cond : bool) (msg : string) (u : unit) :
  py_assert cond msg = Ok u -> cond = true.
Proof. destruct cond; [reflexivity | discriminate]. Qed.

Lemma enlarge_dtype (image : ndarray) (size axis : Z) (efunc : efunc_t)
  (cfunc : cfunc_t) (bfunc : bfunc_t) (rfunc : rfunc_t) (out : ndarray) :
  enlarge image size axis efunc cfunc duplicate_seam bfunc rfunc = Ok out ->
  dtype_of out = float64.
Proof.
  unfold enlarge. intros E.
  apply bind_inv in E. destruct E as (out0 & _ & E).
  apply bind_inv in E. destruct E as (c & _ & E).
  apply bind_inv in E. destruct E as (u1 & Ea & E).
  apply py_assert_inv in Ea. apply Z.ltb_lt in Ea.
  apply bind_inv in E. destruct E as (u2 & _ & E).
  apply bind_inv in E. destruct E as (sm & _ & E).
  apply bind_inv in E. destruct E as (st & Eloop & E).
  assert (Hst : dtype_of (fst st) = float64).
  { assert (Hne : range (size - Z.of_nat (length (hd [] c))) <> []).
    { unfold range.
      destruct (Z.to_nat (size - Z.of_nat (length (hd [] c)))) eqn:En;
        [lia | discriminate]. }
    revert Hne Eloop.
    generalize (range (size - Z.of_nat (length (hd [] c)))). intros xs Hne Eloop.
    refine (for_each_last _ (fun st : ndarray * ndarray => dtype_of (fst st) = float64)
              _ xs (out0, sm) st Hne Eloop).
    intros i [o m] b Eb.
    apply bind_inv in Eb. destruct Eb as (col & _ & Eb).
    apply bind_inv in Eb. destruct Eb as (o' & Ed & Eb).
    apply bind_inv in Eb. destruct Eb as (sm3 & _ & Eb).
    apply bind_inv in Eb. destruct Eb as (m' & _ & Eb).
    apply bind_inv in Eb. destruct Eb as (m'' & _ & Eb).
    injection Eb as <-. cbn [fst]. now apply (duplicate_seam_dtype o col). }
  destruct st as [out1 sm1]. cbn [fst] in Hst.
  destruct (axis =? 0)%Z.
  - apply transpose102_dtype in E. congruence.
  - injection E as <-. exact Hst.
Qed.

Lemma remove_object_dtype (rgb2gray : ndarray -> result (list (list Q)))
  (image : ndarray) (mask : list (list bool)) (out : ndarray) :
  remove_object rgb2gray image mask = Ok out -> dtype_of out = float64.
Proof.
  unfold remove_object. intros E.
  apply bind_inv in E. destruct E as (u1 & _ & E).
  apply bind_inv in E. destruct E as (c & _ & E).
  apply bind_inv in E. destruct E as (n & _ & E).
  apply bind_inv in E. destruct E as (rs & _ & E).
  apply bind_inv in E. destruct E as (out1 & _ & E).
  apply bind_inv in E. destruct E as (out2 & Ee & E).
  apply bind_inv in E. destruct E as (u2 & _ & E).
  injection E as <-. now apply enlarge_dtype in Ee.
Qed.

(** C10.  [duplicate_seam] builds its result in a [float64] array: on every
    grid and in-bounds seam it returns, and whatever it returns is
    [float64], whatever the element type of the input; so are the results
    of [enlarge] and of [remove_object], which end with duplications. *)
Theorem duplicate_seam_float64 (efunc : efunc_t) (dt : dtype) (H W C : nat)
  (c : list (list (list Q))) (seam : list Z) (size : Z) :
  wf3 H W C c -> 2 <= H -> 2 <= C -> energy_ok efunc H C ->
  length seam = H -> in_bounds W seam ->
  (Z.of_nat W < size < 2 * Z.of_nat W)%Z ->
  (exists out,
      duplicate_seam (mkarr dt (T3 c)) seam = Ok out /\ dtype_of out = float64)
  /\ (exists out,
        enlarge (mkarr dt (T3 c)) size 1 efunc (fun im e => compute_cost im e 1)
          duplicate_seam backtrack_seam remove_seam = Ok out
        /\ dtype_of out = float64)
  /\ (forall image seam' out,
        duplicate_seam image seam' = Ok out -> dtype_of out = float64)
  /\ (forall image size' axis efunc' cfunc bfunc rfunc out,
        enlarge image size' axis efunc' cfunc duplicate_seam bfunc rfunc = Ok out ->
        dtype_of out = float64)
  /\ (forall rgb2gray image mask out,
        remove_object rgb2gray image mask = Ok out -> dtype_of out = float64).
Proof.
  intros Hwc HH HC He Hsl Hsb Hsize. split; [|split; [|split; [|split]]].
  - eexists. split; [exact (duplicate_seam_spec dt Hwc ltac:(lia) Hsl Hsb)|].
    reflexivity.
  - destruct (enlarge_ok efunc dt H W C c size He Hwc HH HC Hsize) as (c' & E & _).
    eexists. split; [exact E | reflexivity].
  - exact duplicate_seam_dtype.
  - exact enlarge_dtype.
  - exact remove_object_dtype.
Qed.

Lemma duplicate_seam_float64_witness :
  (exists out,
      duplicate_seam image24 [0; 3]%Z = Ok out /\ dtype_of out = float64)
  /\ (exists out,
        enlarge image24 6 1 (energy_function luma)
          (fun im e => compute_cost im e 1)
          duplicate_seam backtrack_seam remove_seam = Ok out
        /\ dtype_of out = float64)
  /\ (forall image seam' out,
        duplicate_seam image seam' = Ok out -> dtype_of out = float64)
  /\ (forall image size' axis efunc' cfunc bfunc rfunc out,
        enlarge image size' axis efunc' cfunc duplicate_seam bfunc rfunc = Ok out ->
        dtype_of out = float64)
  /\ (forall rgb2gray image mask out,
        remove_object rgb2gray image mask = Ok out -> dtype_of out = float64).
Proof.
  apply (duplicate_seam_float64 (energy_function luma) uint8 2 4 3 cube24
           [0; 3]%Z 6).
  - exact cube24_wf.
  - lia.
  - lia.
  - apply energy_function_ok; [apply luma_ok | lia].
  - reflexivity.
  - repeat constructor; simpl; lia.
  - simpl. lia.
Defined.

(** ** Removal, cell by cell *)

(** Where no axis has length one after the removal, [remove_seam] does what
    its docstring says: same element type, one column less, the cells left
    of the seam unchanged and the cells from the seam on shifted left. *)
Lemma remove_seam_cells (dt : dtype) (H W C : nat) (c : list (list (list Q)))
  (seam : list Z) :
  wf3 H W C c -> 2 <= H -> 3 <= W -> 2 <= C ->
  length seam = H -> in_bounds W seam ->
  exists out,
    remove_seam (mkarr dt (T3 c)) seam = Ok (mkarr dt (T3 out))
    /\ wf3 H (W - 1) C out
    /\ forall i j, i < H -> j < W - 1 ->
         nth_error (nth i out []) j
         = if (Z.of_nat j <? nth i seam 0)%Z
           then nth_error (nth i c []) j
           else nth_error (nth i c []) (S j).
Proof.
  intros Hwc HH HW HC Hsl Hsb.
  destruct (remove_seam_grid dt H W C c seam Hwc HH HW HC Hsl Hsb) as [E Hwr].
  exists (remove_rows seam c). split; [exact E|]. split; [exact Hwr|].
  intros i j Hi Hj. unfold remove_rows.
  rewrite (zip_with_nth _ 0%Z []) by (destruct Hwc; lia).
  assert (Hs : (0 <= nth i seam 0 < Z.of_nat W)%Z).
  { apply (proj1 (Forall_forall _ _) Hsb). apply nth_In. lia. }
  assert (Hrl : length (nth i c []) = W).
  { destruct Hwc as [Hl HF].
    apply (proj1 (Forall_forall _ _) HF (nth i c [])). apply nth_In. lia. }
  rewrite remove_at_nth by lia.
  destruct (Nat.ltb_spec j (Z.to_nat (nth i seam 0%Z)));
    destruct (Z.ltb_spec (Z.of_nat j) (nth i seam 0%Z)); try lia; reflexivity.
Qed.

(** * Further properties of the module *)

(** ** The passes find a seam of least energy *)

Lemma path_energy_app (energy : list (list Q)) (p q : list Z) :
  forall i, (path_energy energy i (p ++ q)
             == path_energy energy i p + path_energy energy (i + length p) q)%Q.
Proof.
  induction p as [|a p IH]; intros i; cbn [app path_energy length].
  - rewrite Nat.add_0_r. ring.
  - rewrite IH. replace (i + S (length p)) with (S i + length p) by lia. ring.
Qed.

Lemma connected_snoc (p : list Z) (a b : Z) :
  connected ((p ++ [a]) ++ [b]) <->
  connected (p ++ [a]) /\ (Z.abs (a - b) <= 1)%Z.
Proof.
  induction p as [|x p IH].
  - cbn. tauto.
  - change (((x :: p) ++ [a]) ++ [b]) with (x :: ((p ++ [a]) ++ [b])).
    change ((x :: p) ++ [a]) with (x :: (p ++ [a])).
    cbn [connected]. rewrite IH.
    destruct p as [|y p]; cbn [app]; tauto.
Qed.

Lemma snoc_cases {A : Type} (p : list A) (n : nat) :
  length p = S n -> exists p' a, p = p' ++ [a] /\ length p' = n.
Proof.
  intros Hl. destruct (exists_last (l := p)) as (p' & a & ->).
  - intros ->. discriminate.
  - exists p', a. split; [reflexivity|]. rewrite length_app in Hl. simpl in Hl. lia.
Qed.

Lemma neighbour_in (prev : list xfloat) (z : Z) :
  (0 <= z < Z.of_nat (length prev))%Z ->
  neighbour prev z = nth (Z.to_nat z) prev Inf.
Proof.
  intros Hz. unfold neighbour.
  destruct (Z.leb_spec 0 z); [|lia].
  destruct (Z.ltb_spec z (Z.of_nat (length prev))); [|lia]. reflexivity.
Qed.

Lemma candidates_nth (prev : list xfloat) (j k : nat) :
  k < 3 ->
  nth k (candidates prev j) Inf = neighbour prev (Z.of_nat j + (Z.of_nat k - 1)).
Proof.
  intros Hk. destruct k as [|[|[|k]]]; try lia; cbn [candidates nth];
    f_equal; lia.
Qed.

Lemma path_to_snoc (W i : nat) (j : Z) (p : list Z) :
  path_to W i j p <->
  exists p', p = p' ++ [j] /\ length p' = i
             /\ in_bounds W (p' ++ [j]) /\ connected (p' ++ [j]).
Proof.
  split.
  - intros (Hl & Hlast & Hb & Hc).
    destruct (snoc_cases p i Hl) as (p' & a & -> & Hl').
    rewrite last_last in Hlast. subst a. exists p'. auto.
  - intros (p' & -> & Hl & Hb & Hc). unfold path_to.
    rewrite length_app, last_last, Hl. cbn [length]. repeat split; auto. lia.
Qed.

Lemma connected_nth (p : list Z) :
  (forall i, S i < length p -> (Z.abs (nth i p 0 - nth (S i) p 0) <= 1)%Z) ->
  connected p.
Proof.
  induction p as [|a p IH]; intros Hstep; [exact I|].
  cbn [connected]. split.
  - destruct p as [|b p]; [exact I|]. apply (Hstep 0). simpl. lia.
  - apply IH. intros i Hi. apply (Hstep (S i)). simpl. lia.
Qed.

Lemma firstn_snoc {A : Type} (l : list A) (i : nat) (d : A) :
  i < length l -> firstn (S i) l = firstn i l ++ [nth i l d].
Proof.
  revert i. induction l as [|a l IH]; intros i Hi; [simpl in Hi; lia|].
  destruct i as [|i]; [reflexivity|].
  cbn [firstn nth app]. f_equal. apply IH. simpl in Hi. lia.
Qed.

Section Optimal.

Variables (energy : list (list Q)) (H W : nat) (cost : cost_t) (paths : paths_t).
Hypothesis Hwe : wf2 H W energy.
Hypothesis Hwc : wf2 H W cost.
Hypothesis Hfin : Forall (Forall finite) cost.
Hypothesis Hrow0 : nth 0 cost [] = map Fin (nth 0 energy []).
Hypothesis Hcells :
  forall i j, 1 <= i < H -> j < W ->
    let cands := candidates (nth (i - 1) cost []) j in
    nth j (nth i paths []) 0%Z = (Z.of_nat (fst (argmin_amin cands)) - 1)%Z
    /\ nth j (nth i cost []) Inf
       = xadd (snd (argmin_amin cands)) (Fin (nth j (nth i energy []) 0%Q)).

Lemma cost_row_finite (i : nat) : i < H -> Forall finite (nth i cost []).
Proof.
  intros Hi. apply (proj1 (Forall_forall _ _) Hfin).
  apply nth_In. destruct Hwc as [-> _]. exact Hi.
Qed.

Lemma cost_row_length (i : nat) : i < H -> length (nth i cost []) = W.
Proof. intros Hi. exact (wf2_nth H W i cost Hwc Hi). Qed.

(** The cell [(i, j)] below row 0, in terms of the chosen predecessor. *)
Lemma cell_step (i j : nat) :
  1 <= i < H -> j < W ->
  let d := nth j (nth i paths []) 0%Z in
  exists m,
    (-1 <= d <= 1)%Z
    /\ (0 <= Z.of_nat j + d < Z.of_nat W)%Z
    /\ nth (Z.to_nat (Z.of_nat j + d)) (nth (i - 1) cost []) Inf = Fin m
    /\ nth j (nth i cost []) Inf = Fin (m + nth j (nth i energy []) 0)%Q
    /\ forall j' v, (0 <= j' < Z.of_nat W)%Z -> (Z.abs (j' - Z.of_nat j) <= 1)%Z ->
         nth (Z.to_nat j') (nth (i - 1) cost []) Inf = Fin v -> (m <= v)%Q.
Proof.
  intros Hi Hj d.
  destruct (Hcells i j Hi Hj) as [Ed Ec]. cbn zeta in Ed, Ec.
  set (prev := nth (i - 1) cost []) in *.
  assert (Hlp : length prev = W) by (apply cost_row_length; lia).
  assert (Hfp : Forall finite prev) by (apply cost_row_finite; lia).
  destruct (candidates_choice prev j Hfp ltac:(lia)) as (Hk & [m Hm] & Hr).
  cbn zeta in Hk, Hm, Hr.
  destruct (argmin_amin_spec (candidates prev j) ltac:(discriminate))
    as [(_ & Hmin & _) Hv].
  set (k := fst (argmin_amin (candidates prev j))) in *.
  exists m. fold d in Ed. rewrite Hlp in Hr.
  assert (Hd : d = (Z.of_nat k - 1)%Z) by exact Ed.
  refine (conj _ (conj _ (conj _ (conj _ _)))).
  - lia.
  - lia.
  - rewrite Hd, <- neighbour_in by lia.
    rewrite <- candidates_nth by exact Hk. rewrite <- Hv. exact Hm.
  - rewrite Ec, Hm. reflexivity.
  - intros j' v Hj' Habs Ev.
    set (k' := Z.to_nat (j' - Z.of_nat j + 1)).
    assert (Hk' : k' < 3) by (unfold k'; lia).
    specialize (Hmin k' ltac:(cbn [candidates length]; exact Hk')).
    rewrite <- Hv, Hm in Hmin.
    rewrite (candidates_nth prev j k' Hk') in Hmin.
    replace (Z.of_nat j + (Z.of_nat k' - 1))%Z with j' in Hmin by (unfold k'; lia).
    rewrite neighbour_in in Hmin by lia. rewrite Ev in Hmin.
    cbn [xlt] in Hmin. lra.
Qed.

Lemma cell_row0 (j : nat) :
  1 <= H -> j < W -> nth j (nth 0 cost []) Inf = Fin (nth j (nth 0 energy []) 0%Q).
Proof.
  intros HH Hj. rewrite Hrow0.
  rewrite (map_nth_in Fin (nth 0 energy []) j 0%Q Inf); [reflexivity|].
  rewrite (wf2_nth H W 0 energy Hwe); lia.
Qed.

(** No path down to a cell collects less than the cost of the cell. *)
Lemma dp_lower :
  forall i p j, i < H -> length p = i ->
    in_bounds W (p ++ [j]) -> connected (p ++ [j]) ->
    exists v, nth (Z.to_nat j) (nth i cost []) Inf = Fin v
              /\ (v <= path_energy energy 0 (p ++ [j]))%Q.
Proof.
  induction i as [|i IH]; intros p j Hi Hl Hb Hc.
  - destruct p; [|discriminate]. cbn [app] in *.
    apply Forall_inv in Hb.
    eexists. split.
    + rewrite <- (Z2Nat.id j) in Hb by lia.
      rewrite (cell_row0 (Z.to_nat j)) by lia. reflexivity.
    + cbn [path_energy]. lra.
  - destruct (snoc_cases p i Hl) as (p' & j' & -> & Hl').
    apply connected_snoc in Hc. destruct Hc as [Hc Habs].
    pose proof Hb as Hb0.
    apply Forall_app in Hb. destruct Hb as [Hb Hbj]. apply Forall_inv in Hbj.
    pose proof Hb as Hb'. apply Forall_app in Hb'. destruct Hb' as [_ Hbj'].
    apply Forall_inv in Hbj'.
    destruct (IH p' j' ltac:(lia) Hl' Hb Hc) as (v' & Ev' & Hle).
    destruct (cell_step (S i) (Z.to_nat j) ltac:(lia) ltac:(lia))
      as (m & _ & _ & _ & Ec & Hmin).
    cbn zeta in Ec, Hmin. replace (S i - 1) with i in * by lia.
    exists (m + nth (Z.to_nat j) (nth (S i) energy []) 0)%Q.
    split; [exact Ec|].
    rewrite path_energy_app. cbn [path_energy].
    rewrite length_app, Hl'. cbn [length Nat.add].
    replace (i + 1) with (S i) by lia.
    specialize (Hmin j' v' ltac:(lia) ltac:(lia) Ev'). lra.
Qed.

(** Some path down to a cell collects exactly the cost of the cell. *)
Lemma dp_reach :
  forall i j, i < H -> j < W ->
    exists p v, length p = i
      /\ in_bounds W (p ++ [Z.of_nat j]) /\ connected (p ++ [Z.of_nat j])
      /\ nth j (nth i cost []) Inf = Fin v
      /\ (path_energy energy 0 (p ++ [Z.of_nat j]) == v)%Q.
Proof.
  induction i as [|i IH]; intros j Hi Hj.
  - exists [], (nth j (nth 0 energy []) 0%Q).
    refine (conj eq_refl (conj _ (conj _ (conj _ _)))).
    + constructor; [lia|constructor].
    + cbn. tauto.
    + apply cell_row0; lia.
    + cbn [app path_energy]. rewrite Nat2Z.id. ring.
  - destruct (cell_step (S i) j ltac:(lia) Hj) as (m & Hd & Hr & Em & Ec & _).
    cbn zeta in Hd, Hr, Em, Ec. replace (S i - 1) with i in * by lia.
    set (d := nth j (nth (S i) paths []) 0%Z) in *.
    destruct (IH (Z.to_nat (Z.of_nat j + d)) ltac:(lia) ltac:(lia))
      as (p & v & Hl & Hb & Hc & Ev & He).
    rewrite Z2Nat.id in Hb, Hc, He by lia.
    rewrite Em in Ev. injection Ev as <-.
    exists (p ++ [(Z.of_nat j + d)%Z]), (m + nth j (nth (S i) energy []) 0)%Q.
    refine (conj _ (conj _ (conj _ (conj Ec _)))).
    + rewrite length_app, Hl. simpl. lia.
    + apply Forall_app. split; [exact Hb|]. constructor; [lia|constructor].
    + apply connected_snoc. split; [exact Hc|]. lia.
    + rewrite path_energy_app, He. cbn [path_energy].
      rewrite length_app, Hl. cbn [length]. replace (0 + (i + 1)) with (S i) by lia.
      rewrite Nat2Z.id. ring.
Qed.

End Optimal.

(** X1.  [compute_cost] is the dynamic programme of seam carving: the cost
    of the cell [(i, j)] is the least total energy of a connected path from
    row 0 down to that cell -- some path collects exactly that much, and no
    path collects less. *)
Theorem compute_cost_minimal (image : ndarray) (energy : list (list Q))
  (H W : nat) :
  wf2 H W energy -> 1 <= H ->
  exists cost paths,
    compute_cost image energy 1 = Ok (cost, paths)
    /\ forall i j, i < H -> j < W ->
         exists v,
           nth j (nth i cost []) Inf = Fin v
           /\ (exists p, path_to W i (Z.of_nat j) p
                         /\ (path_energy energy 0 p == v)%Q)
           /\ (forall p, path_to W i (Z.of_nat j) p ->
                         (v <= path_energy energy 0 p)%Q).
Proof.
  intros Hwe HH.
  destruct (compute_cost_cells image H W energy Hwe HH)
    as (cost & paths & E & Hwc & Hwp & Hfin & Hrow0 & Hcells).
  exists cost, paths. split; [exact E|]. intros i j Hi Hj.
  destruct (dp_reach energy H W cost paths Hwe Hwc Hfin Hrow0 Hcells i j Hi Hj)
    as (p & v & Hl & Hb & Hc & Ev & He).
  exists v. split; [exact Ev|]. split.
  - exists (p ++ [Z.of_nat j]). split; [|exact He].
    apply path_to_snoc. exists p. auto.
  - intros q Hq. apply path_to_snoc in Hq.
    destruct Hq as (q' & -> & Hl' & Hb' & Hc').
    destruct (dp_lower energy H W cost paths Hwe Hwc Hfin Hrow0 Hcells
                i q' (Z.of_nat j) Hi Hl' Hb' Hc') as (v' & Ev' & Hle).
    rewrite Nat2Z.id, Ev in Ev'. injection Ev' as <-. exact Hle.
Qed.

Lemma compute_cost_minimal_witness :
  exists cost paths,
    compute_cost image34 energy34 1 = Ok (cost, paths)
    /\ forall i j, i < 3 -> j < 4 ->
         exists v,
           nth j (nth i cost []) Inf = Fin v
           /\ (exists p, path_to 4 i (Z.of_nat j) p
                         /\ (path_energy energy34 0 p == v)%Q)
           /\ (forall p, path_to 4 i (Z.of_nat j) p ->
                         (v <= path_energy energy34 0 p)%Q).
Proof.
  apply (compute_cost_minimal image34 energy34 3 4).
  - exact energy34_wf.
  - lia.
Defined.

(** X2.  One pass of the orchestrators (energy, cost, argmin of the last
    cost row, backtracking) finds a vertical seam of least total energy:
    the seam is connected and inside the grid, and no connected seam of the
    grid collects less energy. *)
Theorem optimal_seam_minimal (efunc : efunc_t) (image : ndarray)
  (energy : list (list Q)) (H W : nat) :
  efunc image = Ok energy -> wf2 H W energy -> 1 <= H -> 1 <= W ->
  exists seam,
    optimal_seam efunc (fun im e => compute_cost im e 1) backtrack_seam H image
    = Ok seam
    /\ vertical_seam H W seam
    /\ forall p, vertical_seam H W p ->
         (path_energy energy 0 seam <= path_energy energy 0 p)%Q.
Proof.
  intros Ee Hwe HH HW. unfold optimal_seam. rewrite Ee. cbn [bind].
  destruct (compute_cost_cells image H W energy Hwe HH)
    as (cost & paths & E & Hwc & Hwp & Hfin & Hrow0 & Hcells).
  pose proof (compute_cost_dirs image H W energy cost paths Hwe HH E) as Hdirs.
  rewrite E. cbn [bind].
  set (last := nth (H - 1) cost []).
  assert (Hlast : item cost (Z.of_nat H - 1) = Ok last).
  { replace (Z.of_nat H - 1)%Z with (Z.of_nat (H - 1)) by lia.
    rewrite (item_in_range cost (Z.of_nat (H - 1)) []) by (destruct Hwc; lia).
    now rewrite Nat2Z.id. }
  rewrite Hlast. cbn [bind].
  assert (Hll : length last = W) by (apply (wf2_nth H W); auto; lia).
  assert (Hne : last <> []).
  { intros E0. rewrite E0 in Hll. simpl in Hll. lia. }
  destruct (argmin_amin_spec last Hne) as [(Hk & Hmin & _) _].
  set (k := fst (argmin_amin last)) in *.
  assert (Ea : argmin last = Ok (Z.of_nat k)).
  { unfold argmin. destruct last; [congruence|reflexivity]. }
  rewrite Ea. cbn [bind]. rewrite Hll in Hk.
  destruct (backtrack_seam_spec H W paths (Z.of_nat k) Hwp HH Hdirs ltac:(lia))
    as (seam & Eb & Hl & Hend & Hrec & Habs & Hib).
  exists seam. split; [exact Eb|].
  assert (Hconn : connected seam).
  { apply connected_nth. intros i Hi. apply Habs. lia. }
  split; [exact (conj Hl (conj Hib Hconn))|].
  (* the energy of the seam down to row i is the cost of its cell in row i *)
  assert (Hpre : forall i, i < H ->
            exists v, nth (Z.to_nat (nth i seam 0%Z)) (nth i cost []) Inf = Fin v
                      /\ (path_energy energy 0 (firstn (S i) seam) == v)%Q).
  { assert (Hs : forall i, i < H -> (0 <= nth i seam 0 < Z.of_nat W)%Z).
    { intros i Hi. apply (proj1 (Forall_forall _ _) Hib).
      apply nth_In. lia. }
    induction i as [|i IH]; intros Hi.
    - exists (nth (Z.to_nat (nth 0 seam 0%Z)) (nth 0 energy []) 0%Q). split.
      + apply (cell_row0 energy H W cost Hwe Hrow0); [lia|].
        specialize (Hs 0 Hi). lia.
      + rewrite (firstn_snoc seam 0 0%Z) by lia. cbn [firstn app path_energy]. ring.
    - destruct (IH ltac:(lia)) as (v & Ev & Hv).
      pose proof (Hs (S i) Hi) as Hsi.
      destruct (cell_step energy H W cost paths Hwc Hfin Hcells (S i)
                  (Z.to_nat (nth (S i) seam 0%Z)) ltac:(lia) ltac:(lia))
        as (m & _ & _ & Em & Ec & _).
      cbn zeta in Em, Ec. replace (S i - 1) with i in * by lia.
      rewrite Z2Nat.id in Em by lia.
      rewrite <- (Hrec i Hi) in Em. rewrite Ev in Em. injection Em as <-.
      eexists. split; [exact Ec|].
      rewrite (firstn_snoc seam (S i) 0%Z) by lia.
      rewrite path_energy_app, Hv. cbn [path_energy].
      rewrite length_firstn. replace (0 + Nat.min (S i) (length seam)) with (S i) by lia.
      ring. }
  intros p (Hlp & Hbp & Hcp).
  destruct (Hpre (H - 1) ltac:(lia)) as (v & Ev & Hv).
  replace (S (H - 1)) with H in Hv by lia.
  rewrite <- Hl, firstn_all in Hv. rewrite Hv.
  rewrite Hend, Nat2Z.id in Ev. fold last in Ev.
  destruct (snoc_cases p (H - 1) ltac:(lia)) as (p' & j & -> & Hlp').
  destruct (dp_lower energy H W cost paths Hwe Hwc Hfin Hrow0 Hcells
              (H - 1) p' j ltac:(lia) Hlp' Hbp Hcp) as (v' & Ev' & Hle).
  fold last in Ev'.
  apply Forall_app in Hbp. destruct Hbp as [_ Hbj]. apply Forall_inv in Hbj.
  specialize (Hmin (Z.to_nat j) ltac:(lia)). rewrite Ev, Ev' in Hmin.
  cbn [xlt] in Hmin. lra.
Qed.

Lemma optimal_seam_minimal_witness :
  exists seam,
    optimal_seam (fun _ => Ok energy34) (fun im e => compute_cost im e 1)
      backtrack_seam 3 image34 = Ok seam
    /\ vertical_seam 3 4 seam
    /\ forall p, vertical_seam 3 4 p ->
         (path_energy energy34 0 seam <= path_energy energy34 0 p)%Q.
Proof.
  apply (optimal_seam_minimal (fun _ => Ok energy34) image34 energy34 3 4).
  - reflexivity.
  - exact energy34_wf.
  - lia.
  - lia.
Defined.

(** ** Transposition, cell by cell *)

Lemma transpose_aux_nth {A : Type} (d : A) (W : nat) (m : list (list A)) :
  Forall (fun r => length r = W) m ->
  forall i j, i < length m -> j < W ->
    nth i (nth j (transpose_aux W m) []) d = nth j (nth i m []) d.
Proof.
  induction 1 as [|r m Hr HF IH]; intros i j Hi Hj; [simpl in Hi; lia|].
  cbn [transpose_aux].
  pose proof (transpose_aux_wf W m HF) as [Hl _].
  rewrite (map_nth_in (fun p => fst p :: snd p) _ j (d, []) [])
    by (rewrite length_combine; lia).
  rewrite combine_nth by lia. cbn [fst snd].
  destruct i as [|i]; [reflexivity|].
  cbn [nth]. apply IH; [simpl in Hi; lia | exact Hj].
Qed.

Lemma transpose_nth {A : Type} (d : A) (H W : nat) (m : list (list A)) :
  wf2 H W m -> forall i j, i < H -> j < W ->
    nth i (nth j (transpose m) []) d = nth j (nth i m []) d.
Proof.
  intros Hwf i j Hi Hj. unfold transpose.
  rewrite (wf2_hd Hwf ltac:(lia)). destruct Hwf as [<- HF].
  now apply transpose_aux_nth.
Qed.

Lemma transpose_aux_Forall {A : Type} (P : A -> Prop) (W : nat) (m : list (list A)) :
  Forall (Forall P) m -> Forall (Forall P) (transpose_aux W m).
Proof.
  induction 1 as [|r m Hr _ IH]; cbn [transpose_aux].
  - apply Forall_forall. intros x Hx. apply repeat_spec in Hx. subst. constructor.
  - apply Forall_map. apply Forall_forall. intros [a col] Hin. cbn [fst snd].
    constructor.
    + apply in_combine_l in Hin. exact (proj1 (Forall_forall _ _) Hr a Hin).
    + apply in_combine_r in Hin. exact (proj1 (Forall_forall _ _) IH col Hin).
Qed.

Lemma transpose_wf3 {A : Type} (H W C : nat) (c : list (list (list A))) :
  wf3 H W C c -> 1 <= H -> wf3 W H C (transpose c).
Proof.
  intros [Hl HF] HH.
  assert (Hw2 : wf2 H W c).
  { split; [exact Hl|]. eapply Forall_impl; [|exact HF]. intros r Hr. apply Hr. }
  destruct (transpose_wf H W c Hw2 HH) as [Hl' HF'].
  split; [exact Hl'|].
  assert (HP : Forall (Forall (fun px => length px = C)) (transpose c)).
  { apply transpose_aux_Forall. eapply Forall_impl; [|exact HF].
    intros r Hr. apply Hr. }
  apply Forall_forall. intros r Hin. split.
  - exact (proj1 (Forall_forall _ _) HF' r Hin).
  - exact (proj1 (Forall_forall _ _) HP r Hin).
Qed.

(** ** Cost Accumulator along the height *)

Lemma paths_ok_Forall (paths : paths_t) :
  paths_ok paths = true <-> Forall (Forall (fun d => dir_ok d = true)) paths.
Proof.
  unfold paths_ok. rewrite forallb_forall, Forall_forall.
  split; intros Hp r Hin; specialize (Hp r Hin).
  - apply Forall_forall. intros d Hd.
    exact (proj1 (forallb_forall _ _) Hp d Hd).
  - apply forallb_forall. intros d Hd.
    exact (proj1 (Forall_forall _ _) Hp d Hd).
Qed.

(** X3.  With [axis=0] the cost accumulator runs the same recurrence on the
    transposed energy grid and transposes the two results back: seams then
    run from the left column to the right one, and column 0 of the cost grid
    is column 0 of the energy grid. *)
Theorem compute_cost_axis0 (image : ndarray) (energy : list (list Q))
  (H W : nat) :
  wf2 H W energy -> 1 <= H -> 1 <= W ->
  exists cost paths,
    compute_cost image (transpose energy) 1 = Ok (cost, paths)
    /\ compute_cost image energy 0 = Ok (transpose cost, transpose paths)
    /\ wf2 H W (transpose cost) /\ wf2 H W (transpose paths)
    /\ forall i, i < H ->
         nth 0 (nth i (transpose cost) []) Inf = Fin (nth 0 (nth i energy []) 0%Q).
Proof.
  intros Hwe HH HW.
  pose proof (transpose_wf H W energy Hwe HH) as Hwt.
  destruct (compute_cost_cells image W H (transpose energy) Hwt HW)
    as (cost & paths & E & Hwc & Hwp & _ & Hrow0 & _).
  exists cost, paths. split; [exact E|].
  assert (Hok : paths_ok (transpose paths) = true).
  { assert (Hp : paths_ok paths = true).
    { unfold compute_cost in E. change (1 =? 0)%Z with false in E. cbv iota in E.
      apply bind_inv in E. destruct E as (e0 & _ & E).
      apply bind_inv in E. destruct E as ([cp pp] & _ & E).
      apply bind_inv in E. destruct E as ([] & Ea & E).
      injection E as _ <-. unfold py_assert in Ea.
      destruct (paths_ok pp); [reflexivity | discriminate]. }
    apply paths_ok_Forall. apply paths_ok_Forall in Hp.
    now apply transpose_aux_Forall. }
  split.
  - unfold compute_cost in E |- *.
    change (1 =? 0)%Z with false in E. change (0 =? 0)%Z with true.
    cbv iota in E |- *.
    destruct (item (transpose energy) 0) as [e0|e]; [|discriminate E].
    cbn [bind] in E |- *.
    destruct (for_each _ _ _) as [[cp pp]|e]; [|discriminate E].
    cbn [bind] in E |- *.
    apply bind_inv in E. destruct E as ([] & _ & E).
    injection E as Ec Ep. rewrite Ec, Ep, Hok. reflexivity.
  - split; [apply transpose_wf; [exact Hwc | lia]|].
    split; [apply transpose_wf; [exact Hwp | lia]|].
    intros i Hi.
    rewrite (transpose_nth Inf W H cost Hwc 0 i ltac:(lia) Hi).
    rewrite Hrow0.
    rewrite (map_nth_in Fin (nth 0 (transpose energy) []) i 0%Q Inf)
      by (rewrite (wf2_nth W H 0 (transpose energy) Hwt); lia).
    f_equal. apply (transpose_nth 0%Q H W energy Hwe); lia.
Qed.

Lemma compute_cost_axis0_witness :
  exists cost paths,
    compute_cost image34 (transpose energy34) 1 = Ok (cost, paths)
    /\ compute_cost image34 energy34 0 = Ok (transpose cost, transpose paths)
    /\ wf2 3 4 (transpose cost) /\ wf2 3 4 (transpose paths)
    /\ forall i, i < 3 ->
         nth 0 (nth i (transpose cost) []) Inf
         = Fin (nth 0 (nth i energy34 []) 0%Q).
Proof.
  apply (compute_cost_axis0 image34 energy34 3 4).
  - exact energy34_wf.
  - lia.
  - lia.
Defined.

(** ** Seam Tracer: what a returned seam satisfies *)

Lemma for_each_preserves {S X : Type} (body : X -> S -> result S) (P : S -> Prop)
  (xs : list X) :
  (forall x a b, In x xs -> P a -> body x a = Ok b -> P b) ->
  forall s s', P s -> for_each xs body s = Ok s' -> P s'.
Proof.
  induction xs as [|x xs IH]; intros Hstep s s' HP E.
  - cbn [for_each] in E. injection E as <-. exact HP.
  - rewrite for_each_cons in E. apply bind_inv in E. destruct E as (s1 & E1 & E2).
    apply (IH (fun y a b Hy => Hstep y a b (or_intror Hy)) s1 s');
      [|exact E2].
    exact (Hstep x s s1 (or_introl eq_refl) HP E1).
Qed.

(** X4.  Whatever the direction grid and the end column, a seam that
    [backtrack_seam] returns has one entry per row, ends at the given column
    and lies inside the grid; in particular no seam is returned for an end
    column outside the grid. *)
Theorem backtrack_seam_in_bounds (paths : paths_t) (end_ : Z) (seam : list Z) :
  backtrack_seam paths end_ = Ok seam ->
  1 <= length paths
  /\ length seam = length paths
  /\ nth (length paths - 1) seam 0%Z = end_
  /\ in_bounds (length (hd [] paths)) seam
  /\ (0 <= end_ < Z.of_nat (length (hd [] paths)))%Z.
Proof.
  unfold backtrack_seam. set (H := length paths). set (W := length (hd [] paths)).
  intros E. apply bind_inv in E. destruct E as (k & Ek & E).
  assert (HH : 1 <= H).
  { destruct H; [|lia]. discriminate Ek. }
  assert (Hk : k = H - 1).
  { replace (Z.of_nat H - 1)%Z with (Z.of_nat (H - 1)) in Ek by lia.
    rewrite py_index_nat in Ek by lia. now injection Ek as <-. }
  subst k.
  apply bind_inv in E. destruct E as (s1 & Eloop & E).
  apply bind_inv in E. destruct E as ([] & Ea & E). injection E as <-.
  assert (HP : length s1 = H /\ nth (H - 1) s1 0%Z = end_).
  { refine (for_each_preserves _
              (fun s => length s = H /\ nth (H - 1) s 0%Z = end_)
              _ _ _ _ _ Eloop).
    - intros i a b Hin [Hl Hn] Eb.
      apply in_rev, in_seq in Hin.
      apply bind_inv in Eb. destruct Eb as (s & _ & Eb).
      apply bind_inv in Eb. destruct Eb as (row & _ & Eb).
      apply bind_inv in Eb. destruct Eb as (d & _ & Eb). injection Eb as <-.
      split; [now rewrite upd_length|].
      rewrite nth_upd_neq by lia. exact Hn.
    - split; [now rewrite upd_length, repeat_length|].
      apply nth_upd_eq. rewrite repeat_length. lia. }
  destruct HP as [Hl Hn].
  assert (Hb : in_bounds W s1).
  { unfold py_assert in Ea.
    destruct (forallb _ s1) eqn:Ef in Ea; [|discriminate].
    apply Forall_forall. intros s Hin.
    pose proof (proj1 (forallb_forall _ _) Ef s Hin) as Hs. cbv beta in Hs.
    apply andb_true_iff in Hs. destruct Hs as [H1 H2].
    apply Z.leb_le in H1. apply Z.ltb_lt in H2. lia. }
  refine (conj HH (conj Hl (conj Hn (conj Hb _)))).
  rewrite <- Hn. apply (proj1 (Forall_forall _ _) Hb). apply nth_In. lia.
Qed.

Lemma backtrack_seam_in_bounds_witness :
  1 <= length paths34
  /\ length [1; 1; 1]%Z = length paths34
  /\ nth (length paths34 - 1) [1; 1; 1]%Z 0%Z = 1%Z
  /\ in_bounds (length (hd [] paths34)) [1; 1; 1]%Z
  /\ (0 <= 1 < Z.of_nat (length (hd [] paths34)))%Z.
Proof.
  apply (backtrack_seam_in_bounds paths34 1 [1; 1; 1]%Z).
  vm_compute. reflexivity.
Defined.

(** ** Energy Estimator: the cells *)

Lemma gradient1_cells (f : list Q) :
  2 <= length f ->
  gradient1 f
  = Ok (map (difference (fun k => nth k f 0%Q) (length f)) (seq 0 (length f))).
Proof.
  intros Hf. unfold gradient1.
  destruct (Nat.ltb_spec (length f) 2); [lia|]. reflexivity.
Qed.

Lemma mapM_map {A B : Type} (f : A -> result B) (g : A -> B) (l : list A) :
  Forall (fun x => f x = Ok (g x)) l -> mapM f l = Ok (map g l).
Proof.
  induction 1 as [|x l E _ IH]; [reflexivity|].
  cbn [mapM map]. rewrite E. cbn [bind]. rewrite IH. reflexivity.
Qed.

Lemma gradient_axis1_cells (H W : nat) (g : list (list Q)) :
  wf2 H W g -> 2 <= W ->
  gradient_axis1 g
  = Ok (map (fun r => map (difference (fun k => nth k r 0%Q) W) (seq 0 W)) g).
Proof.
  intros [_ HF] HW. unfold gradient_axis1. apply mapM_map.
  eapply Forall_impl; [|exact HF]. cbv beta. intros r Hr.
  rewrite gradient1_cells by lia. now rewrite Hr.
Qed.

Lemma gradient_axis0_cells (H W : nat) (g : list (list Q)) :
  wf2 H W g -> 2 <= H -> 1 <= W ->
  exists d, gradient_axis0 g = Ok d /\ wf2 H W d
    /\ forall i j, i < H -> j < W ->
         nth j (nth i d []) 0%Q
         = difference (fun k => nth j (nth k g []) 0%Q) H i.
Proof.
  intros Hwf HH HW. unfold gradient_axis0.
  pose proof (transpose_wf H W g Hwf ltac:(lia)) as Hwt.
  pose proof (gradient_axis1_cells W H (transpose g) Hwt HH) as Et.
  unfold gradient_axis1 in Et. rewrite Et. cbn [bind].
  set (t := map _ (transpose g)).
  assert (Hwd : wf2 W H t).
  { split; [unfold t; rewrite length_map; apply Hwt|].
    unfold t. apply Forall_map. apply Forall_forall. intros r _.
    now rewrite length_map, length_seq. }
  eexists. split; [reflexivity|]. split; [apply transpose_wf; [exact Hwd|lia]|].
  intros i j Hi Hj.
  rewrite (transpose_nth 0%Q W H t Hwd j i Hj Hi). unfold t.
  rewrite (map_nth_in _ (transpose g) j [] []) by (destruct Hwt; lia).
  rewrite (map_nth_in _ (seq 0 H) i 0 0%Q) by (rewrite length_seq; lia).
  rewrite seq_nth by lia. cbn [Nat.add].
  unfold difference.
  assert (Hn : forall k, k < H ->
            nth k (nth j (transpose g) []) 0%Q = nth j (nth k g []) 0%Q).
  { intros k Hk. apply (transpose_nth 0%Q H W g Hwf); assumption. }
  destruct (Nat.eqb_spec i 0); [rewrite !Hn by lia; reflexivity|].
  destruct (Nat.eqb_spec i (H - 1)); rewrite !Hn by lia; reflexivity.
Qed.

(** X5.  The energy of a pixel is the absolute finite difference of the
    luminance along its column plus the one along its row (central
    differences inside, one-sided at the borders); the grid has the shape
    of the image and no energy is negative. *)
Theorem energy_function_cells (rgb2gray : ndarray -> result (list (list Q)))
  (dt : dtype) (c : list (list (list Q))) (gray : list (list Q)) (H W : nat) :
  rgb2gray (mkarr dt (T3 c)) = Ok gray -> wf2 H W gray -> 2 <= H -> 2 <= W ->
  exists energy,
    energy_function rgb2gray (mkarr dt (T3 c)) = Ok energy
    /\ wf2 H W energy
    /\ forall i j, i < H -> j < W ->
         nth j (nth i energy []) 0%Q
         = (Qabs (difference (fun k => nth j (nth k gray []) 0) H i)
            + Qabs (difference (fun k => nth k (nth i gray []) 0) W j))%Q
         /\ (0 <= nth j (nth i energy []) 0)%Q.
Proof.
  intros Eg Hwg HH HW. unfold energy_function, unpack3. cbn [tensor_of bind].
  rewrite Eg. cbn [bind].
  destruct (gradient_axis0_cells H W gray Hwg HH ltac:(lia)) as (g0 & E0 & Hw0 & Hc0).
  rewrite E0, (gradient_axis1_cells H W gray Hwg HW). cbn [bind].
  set (g1 := map _ gray).
  assert (Hw1 : wf2 H W g1).
  { split; [unfold g1; rewrite length_map; apply Hwg|].
    unfold g1. apply Forall_map. apply Forall_forall. intros r _.
    now rewrite length_map, length_seq. }
  eexists. split; [reflexivity|].
  split; [apply zip_with_wf2; now apply map_map_wf2|].
  intros i j Hi Hj.
  assert (Hcell : nth j (nth i (zip_with (zip_with Qplus) (map (map Qabs) g0)
                                  (map (map Qabs) g1)) []) 0%Q
                  = (Qabs (difference (fun k => nth j (nth k gray []) 0) H i)
                     + Qabs (difference (fun k => nth k (nth i gray []) 0) W j))%Q).
  { rewrite (zip_with_nth (zip_with Qplus) [] [] [])
      by (rewrite length_map; first [destruct Hw0; lia | destruct Hw1; lia]).
    rewrite (map_nth_in (map Qabs) g0 i [] []) by (destruct Hw0; lia).
    rewrite (map_nth_in (map Qabs) g1 i [] []) by (destruct Hw1; lia).
    rewrite (zip_with_nth Qplus 0%Q 0%Q 0%Q)
      by (rewrite length_map;
          first [rewrite (wf2_nth H W i g0 Hw0 Hi); lia
                | rewrite (wf2_nth H W i g1 Hw1 Hi); lia]).
    rewrite (map_nth_in Qabs (nth i g0 []) j 0%Q 0%Q)
      by (rewrite (wf2_nth H W i g0 Hw0 Hi); lia).
    rewrite (map_nth_in Qabs (nth i g1 []) j 0%Q 0%Q)
      by (rewrite (wf2_nth H W i g1 Hw1 Hi); lia).
    rewrite (Hc0 i j Hi Hj). unfold g1.
    rewrite (map_nth_in _ gray i [] []) by (destruct Hwg; lia).
    rewrite (map_nth_in _ (seq 0 W) j 0 0%Q) by (rewrite length_seq; lia).
    rewrite seq_nth by lia. reflexivity. }
  split; [exact Hcell|]. rewrite Hcell.
  pose proof (Qabs_nonneg (difference (fun k => nth j (nth k gray []) 0%Q) H i)).
  pose proof (Qabs_nonneg (difference (fun k => nth k (nth i gray []) 0%Q) W j)).
  lra.
Qed.

Lemma energy_function_cells_witness :
  exists energy,
    energy_function luma (mkarr float64 (T3 cube34)) = Ok energy
    /\ wf2 3 4 energy
    /\ forall i j, i < 3 -> j < 4 ->
         nth j (nth i energy []) 0%Q
         = (Qabs (difference (fun k => nth j (nth k gray34 []) 0) 3 i)
            + Qabs (difference (fun k => nth k (nth i gray34 []) 0) 4 j))%Q
         /\ (0 <= nth j (nth i energy []) 0)%Q.
Proof.
  apply (energy_function_cells luma float64 cube34 gray34 3 4).
  - vm_compute. reflexivity.
  - exact gray34_wf.
  - lia.
  - lia.
Defined.

Lemma mapM_head_raises {A B : Type} (f : A -> result B) (x : A) (t : list A)
  (e : exn) : f x = Raise e -> mapM f (x :: t) = Raise e.
Proof. intros E. cbn [mapM]. rewrite E. reflexivity. Qed.

Lemma gradient1_single (r : list Q) : length r = 1 -> gradient1 r = Raise ValueError.
Proof. intros Hr. unfold gradient1. rewrite Hr. reflexivity. Qed.

(** An image of a single row or of a single column has no gradient. *)
Lemma energy_function_thin (rgb2gray : ndarray -> result (list (list Q)))
  (image : ndarray) (gray : list (list Q)) (H W : nat) :
  rgb2gray image = Ok gray -> wf2 H W gray -> 1 <= H -> 1 <= W ->
  H = 1 \/ W = 1 ->
  energy_function rgb2gray image = Raise ValueError.
Proof.
  intros Eg Hwg HH HW Hone. unfold energy_function.
  destruct (unpack3 image) as [c|e] eqn:Eu.
  2:{ unfold unpack3 in Eu. destruct (tensor_of image); now inversion Eu. }
  cbn [bind]. rewrite Eg. cbn [bind].
  destruct (Nat.eq_dec H 1) as [->|HH1].
  - unfold gradient_axis0.
    pose proof (transpose_wf 1 W gray Hwg ltac:(lia)) as [Hl HF].
    destruct (transpose gray) as [|col t]; [simpl in Hl; lia|].
    inversion HF as [|? ? Hcol _]; subst.
    rewrite (mapM_head_raises gradient1 col t ValueError); [reflexivity|].
    now apply gradient1_single.
  - assert (W = 1) by lia. subst W.
    destruct (gradient_axis0_ok H 1 gray Hwg ltac:(lia) ltac:(lia)) as (g0 & E0 & _).
    rewrite E0. cbn [bind]. unfold gradient_axis1.
    destruct Hwg as [Hl HF].
    destruct gray as [|r t]; [simpl in Hl; lia|].
    inversion HF as [|? ? Hr _]; subst.
    rewrite (mapM_head_raises gradient1 r t ValueError); [reflexivity|].
    now apply gradient1_single.
Qed.

(** X6.  The energy function needs three axes and at least two rows and two
    columns: an array that is not three-dimensional, a single-row image and
    a single-column image all raise [ValueError]. *)
Theorem energy_function_rejects (rgb2gray : ndarray -> result (list (list Q)))
  (image : ndarray) :
  (forall c, tensor_of image <> T3 c)
  \/ (exists gray H W,
         rgb2gray image = Ok gray /\ wf2 H W gray /\ 1 <= H /\ 1 <= W
         /\ (H = 1 \/ W = 1)) ->
  energy_function rgb2gray image = Raise ValueError.
Proof.
  intros [Hnot | (gray & H & W & Eg & Hwg & HH & HW & Hone)].
  - unfold energy_function, unpack3.
    destruct (tensor_of image) as [x|v|m|c]; try reflexivity.
    now destruct (Hnot c).
  - exact (energy_function_thin rgb2gray image gray H W Eg Hwg HH HW Hone).
Qed.

Lemma energy_function_rejects_witness :
  energy_function luma image13 = Raise ValueError.
Proof.
  apply (energy_function_rejects luma image13). right.
  exists gray13, 1, 3.
  split; [vm_compute; reflexivity|].
  split; [apply wf2b_ok; vm_compute; reflexivity|].
  split; [lia|]. split; [lia|]. left. reflexivity.
Defined.

(** ** Seam Mutator: duplication, unchecked seams, two-dimensional input *)

(** X7.  [duplicate_seam] returns a float64 grid one column wider: in every
    row the cells up to the seam keep their place, the seam pixel appears a
    second time right after itself, and the cells behind it move one column
    to the right. *)
Theorem duplicate_seam_cells (dt : dtype) (H W C : nat)
  (c : list (list (list Q))) (seam : list Z) :
  wf3 H W C c -> 1 <= H -> length seam = H -> in_bounds W seam ->
  exists out,
    duplicate_seam (mkarr dt (T3 c)) seam = Ok (mkarr float64 (T3 out))
    /\ wf3 H (W + 1) C out
    /\ forall i j, i < H -> j < W + 1 ->
         nth_error (nth i out []) j
         = if (Z.of_nat j <=? nth i seam 0)%Z
           then nth_error (nth i c []) j
           else nth_error (nth i c []) (j - 1).
Proof.
  intros Hwf HH Hl Hb.
  exists (dup_rows seam c).
  split; [exact (duplicate_seam_spec dt Hwf HH Hl Hb)|].
  split; [exact (@dup_rows_wf _ H W C seam c Hwf Hl Hb)|].
  intros i j Hi Hj. unfold dup_rows.
  destruct Hwf as [Hlc HF].
  rewrite (zip_with_nth _ 0%Z [] []) by lia.
  assert (Hs : (0 <= nth i seam 0 < Z.of_nat W)%Z).
  { apply (proj1 (Forall_forall _ _) Hb). apply nth_In. lia. }
  assert (Hr : length (nth i c []) = W).
  { apply (proj1 (Forall_forall _ _) HF). apply nth_In. lia. }
  rewrite dup_at_nth by lia.
  destruct (Nat.leb_spec j (Z.to_nat (nth i seam 0%Z)));
    destruct (Z.leb_spec (Z.of_nat j) (nth i seam 0%Z)); try lia; reflexivity.
Qed.

Lemma duplicate_seam_cells_witness :
  exists out,
    duplicate_seam (mkarr uint8 (T3 cube24)) [0; 3]%Z = Ok (mkarr float64 (T3 out))
    /\ wf3 2 (4 + 1) 3 out
    /\ forall i j, i < 2 -> j < 4 + 1 ->
         nth_error (nth i out []) j
         = if (Z.of_nat j <=? nth i [0; 3]%Z 0)%Z
           then nth_error (nth i cube24 []) j
           else nth_error (nth i cube24 []) (j - 1).
Proof.
  apply (duplicate_seam_cells uint8 2 4 3 cube24 [0; 3]%Z).
  - exact cube24_wf.
  - lia.
  - reflexivity.
  - repeat constructor; simpl; lia.
Defined.

Lemma remove_at_dup_at {A : Type} (s : nat) (row : list A) :
  s < length row -> remove_at s (dup_at s row) = row.
Proof.
  intros Hs. unfold remove_at, dup_at.
  assert (Hl : length (firstn (S s) row) = S s) by (rewrite length_firstn; lia).
  rewrite firstn_app, Hl, firstn_firstn.
  replace (Nat.min s (S s)) with s by lia.
  replace (s - S s) with 0 by lia.
  change (firstn 0 (skipn s row)) with (@nil A). rewrite app_nil_r.
  rewrite skipn_app, Hl, Nat.sub_diag.
  change (skipn 0 (skipn s row)) with (skipn s row).
  rewrite (skipn_all2 (n := S s)) by lia. cbn [app].
  apply firstn_skipn.
Qed.

Lemma remove_rows_dup_rows {A : Type} (seam : list Z) (c : list (list A)) :
  Forall2 (fun s row => (0 <= s < Z.of_nat (length row))%Z) seam c ->
  remove_rows seam (dup_rows seam c) = c.
Proof.
  induction 1 as [|s row seam c Hs _ IH]; [reflexivity|].
  unfold remove_rows, dup_rows, zip_with in *. cbn [combine map fst snd].
  rewrite IH. f_equal. apply remove_at_dup_at. lia.
Qed.

(** X8.  Duplication followed by removal of the same seam is the identity
    on the samples: the inserted copy is the pixel that the removal deletes.
    The element type of the result is float64, as [duplicate_seam]
    allocates. *)
Theorem duplicate_then_remove (dt : dtype) (H W C : nat)
  (c : list (list (list Q))) (seam : list Z) :
  wf3 H W C c -> 2 <= H -> 2 <= W -> 2 <= C ->
  length seam = H -> in_bounds W seam ->
  (wide <- duplicate_seam (mkarr dt (T3 c)) seam ;; remove_seam wide seam)
  = Ok (mkarr float64 (T3 c)).
Proof.
  intros Hwf HH HW HC Hl Hb.
  rewrite (duplicate_seam_spec dt Hwf ltac:(lia) Hl Hb). cbn [bind].
  pose proof (@dup_rows_wf _ H W C seam c Hwf Hl Hb) as Hwd.
  assert (Hb' : in_bounds (W + 1) seam).
  { eapply Forall_impl; [|exact Hb]. cbv beta. intros s Hs. lia. }
  destruct (remove_seam_grid float64 H (W + 1) C (dup_rows seam c) seam Hwd HH
              ltac:(lia) HC Hl Hb') as [Er _].
  rewrite Er. do 3 f_equal. apply remove_rows_dup_rows.
  destruct Hwf as [Hlc HF].
  pose proof (Forall2_zip (xs := seam) (ys := c) ltac:(lia) Hb HF) as HZ.
  eapply Forall2_impl; [|exact HZ]. cbv beta. intros s row [Hs [Hr _]]. lia.
Qed.

Lemma duplicate_then_remove_witness :
  (wide <- duplicate_seam (mkarr uint8 (T3 cube24)) [0; 3]%Z ;;
   remove_seam wide [0; 3]%Z)
  = Ok (mkarr float64 (T3 cube24)).
Proof.
  apply (duplicate_then_remove uint8 2 4 3 cube24 [0; 3]%Z).
  - exact cube24_wf.
  - lia.
  - lia.
  - lia.
  - reflexivity.
  - repeat constructor; simpl; lia.
Defined.

Lemma remove_row_beyond {A : Type} (s : Z) (row : list A) :
  (Z.of_nat (length row) <= s)%Z -> 1 <= length row ->
  assign_slice s (Z.of_nat (length row) - 1) row
    (slice (s + 1) (Z.of_nat (length row)) row) = Ok row.
Proof.
  intros Hs Hn. set (n := length row) in *.
  unfold assign_slice, slice. fold n.
  assert (B1 : slice_bound n s = n).
  { unfold slice_bound. destruct (Z.ltb_spec s 0); lia. }
  assert (B2 : slice_bound n (Z.of_nat n - 1) = n - 1).
  { unfold slice_bound. destruct (Z.ltb_spec (Z.of_nat n - 1) 0); lia. }
  assert (B3 : slice_bound n (s + 1) = n).
  { unfold slice_bound. destruct (Z.ltb_spec (s + 1) 0); lia. }
  assert (B4 : slice_bound n (Z.of_nat n) = n).
  { unfold slice_bound. destruct (Z.ltb_spec (Z.of_nat n) 0); lia. }
  rewrite B1, B2, B3, B4.
  replace (n - 1 - n) with 0 by lia. rewrite Nat.sub_diag. cbn [firstn length Nat.eqb].
  rewrite Nat.add_0_r. unfold n. rewrite firstn_all, skipn_all.
  cbn [app]. now rewrite app_nil_r.
Qed.

Lemma remove_at_last {A : Type} (row : list A) :
  1 <= length row ->
  slice 0 (Z.of_nat (length row) - 1) row = remove_at (length row - 1) row.
Proof.
  intros Hn. unfold slice, remove_at.
  assert (B0 : slice_bound (length row) 0 = 0)
    by (unfold slice_bound; change (0 <? 0)%Z with false; cbv iota;
        change (Z.to_nat 0) with 0; lia).
  assert (B2 : slice_bound (length row) (Z.of_nat (length row) - 1) = length row - 1).
  { unfold slice_bound. destruct (Z.ltb_spec (Z.of_nat (length row) - 1) 0); lia. }
  rewrite B0, B2, Nat.sub_0_r. change (skipn 0 row) with row.
  replace (S (length row - 1)) with (length row) by lia.
  rewrite skipn_all, app_nil_r. reflexivity.
Qed.

(** X9.  [remove_seam] does not check the seam against the width: an entry
    beyond the last column raises nothing and deletes the last pixel of its
    row, exactly like the entry [W - 1]. *)
Theorem remove_seam_unchecked (dt : dtype) (H W C : nat)
  (c : list (list (list Q))) (seam : list Z) :
  wf3 H W C c -> 2 <= H -> 3 <= W -> 2 <= C ->
  length seam = H -> Forall (fun s => (0 <= s)%Z) seam ->
  remove_seam (mkarr dt (T3 c)) seam
  = Ok (mkarr dt (T3 (remove_rows (map (Z.min (Z.of_nat W - 1)) seam) c))).
Proof.
  intros Hwf HH HW HC Hs Hb. unfold remove_seam. cbn [tensor_of bind].
  pose proof (wf3_hd Hwf ltac:(lia)) as Hhd.
  assert (HW0 : length (hd [] c) = W) by apply Hhd.
  assert (HC0 : length (hd [] (hd [] c)) = C) by (apply (wf2_hd Hhd); lia).
  destruct Hwf as [Hl HF]. rewrite Hl, HW0, HC0.
  pose proof (Forall2_zip (xs := seam) (ys := c) ltac:(lia) Hb HF) as HZ.
  rewrite (for_rows_ok _ (fun s row =>
                            if (s <? Z.of_nat W)%Z then shifted (Z.to_nat s) row
                            else row)).
  - cbn [bind].
    rewrite (map_zip_with_ext _ _
               (fun s row => remove_at (Z.to_nat (Z.min (Z.of_nat W - 1) s)) row)).
    + unfold squeeze3.
      destruct (Nat.eqb_spec H 1); [lia|].
      destruct (Nat.eqb_spec (W - 1) 1); [lia|].
      destruct (Nat.eqb_spec C 1); [lia|].
      cbn [dtype_of]. unfold py_assert.
      replace (dtype_eqb dt dt) with true by (now destruct dt).
      cbn [bind]. do 3 f_equal. unfold remove_rows. symmetry.
      apply (zip_with_map_l (fun s row => remove_at (Z.to_nat s) row)).
    + eapply Forall2_impl; [| exact HZ]. cbv beta. intros s row [Hsb [Hrl _]].
      rewrite <- Hrl. destruct (Z.ltb_spec s (Z.of_nat (length row))).
      * rewrite remove_row_cut by lia. f_equal. lia.
      * rewrite remove_at_last by lia. f_equal. lia.
  - eapply Forall2_impl; [| exact HZ]. cbv beta. intros s row [Hsb [Hrl _]].
    rewrite <- Hrl. destruct (Z.ltb_spec s (Z.of_nat (length row))).
    + rewrite <- (Z2Nat.id s) at 1 2 by lia. apply remove_row_assign. lia.
    + apply remove_row_beyond; lia.
Qed.

Lemma remove_seam_unchecked_witness :
  remove_seam (mkarr uint8 (T3 cube24)) [7; 1]%Z
  = Ok (mkarr uint8
          (T3 (remove_rows (map (Z.min (Z.of_nat 4 - 1)) [7; 1]%Z) cube24))).
Proof.
  apply (remove_seam_unchecked uint8 2 4 3 cube24 [7; 1]%Z).
  - exact cube24_wf.
  - lia.
  - lia.
  - lia.
  - reflexivity.
  - repeat constructor; lia.
Defined.

(** X10.  A two-dimensional grid: [remove_seam] accepts it (it adds an axis
    and squeezes it away again) and returns the two-dimensional grid without
    the seam, of the same element type; [duplicate_seam] raises
    [ValueError], since it unpacks three axes. *)
Theorem seam_mutators_two_dimensional (dt : dtype) (H W : nat)
  (m : list (list Q)) (seam : list Z) :
  wf2 H W m -> 2 <= H -> 3 <= W -> length seam = H -> in_bounds W seam ->
  remove_seam (mkarr dt (T2 m)) seam = Ok (mkarr dt (T2 (remove_rows seam m)))
  /\ wf2 H (W - 1) (remove_rows seam m)
  /\ duplicate_seam (mkarr dt (T2 m)) seam = Raise ValueError.
Proof.
  intros Hwf HH HW Hl Hb.
  split; [exact (remove_seam_matrix dt H W m seam Hwf HH HW Hl Hb)|].
  split; [exact (remove_rows_wf2 H W seam m Hwf Hl Hb) | reflexivity].
Qed.

Lemma seam_mutators_two_dimensional_witness :
  remove_seam (mkarr int64 (T2 [[1; 2; 3]; [4; 5; 6]]%Q)) [0; 2]%Z
  = Ok (mkarr int64 (T2 (remove_rows [0; 2]%Z [[1; 2; 3]; [4; 5; 6]]%Q)))
  /\ wf2 2 (3 - 1) (remove_rows [0; 2]%Z [[1; 2; 3]; [4; 5; 6]]%Q)
  /\ duplicate_seam (mkarr int64 (T2 [[1; 2; 3]; [4; 5; 6]]%Q)) [0; 2]%Z
     = Raise ValueError.
Proof.
  apply (seam_mutators_two_dimensional int64 2 3 [[1; 2; 3]; [4; 5; 6]]%Q
           [0; 2]%Z).
  - split; [reflexivity | repeat constructor].
  - lia.
  - lia.
  - reflexivity.
  - repeat constructor; simpl; lia.
Defined.

(** ** Resize Orchestrator: [reduce] *)

Lemma subseq_refl {A : Type} (l : list A) : subseq l l.
Proof. induction l; [apply subseq_nil | apply subseq_keep; assumption]. Qed.

Lemma subseq_trans {A : Type} (l1 l2 l3 : list A) :
  subseq l1 l2 -> subseq l2 l3 -> subseq l1 l3.
Proof.
  intros H12 H23. revert l1 H12.
  induction H23 as [|x l2 l3 H23 IH|x l2 l3 H23 IH]; intros l1 H12.
  - exact H12.
  - apply subseq_skip. now apply IH.
  - inversion H12; subst.
    + apply subseq_skip. now apply IH.
    + apply subseq_keep. now apply IH.
Qed.

Lemma subseq_remove_at {A : Type} (s : nat) (row : list A) :
  subseq (remove_at s row) row.
Proof.
  unfold remove_at. revert s. induction row as [|x row IH]; intros s.
  - destruct s; apply subseq_nil.
  - destruct s as [|s]; cbn [firstn skipn app].
    + apply subseq_skip. apply subseq_refl.
    + apply subseq_keep. apply IH.
Qed.

Lemma subseq_dup_at {A : Type} (s : nat) (row : list A) :
  subseq row (dup_at s row).
Proof.
  unfold dup_at. revert s. induction row as [|x row IH]; intros s.
  - destruct s; apply subseq_nil.
  - destruct s as [|s].
    + change (firstn 1 (x :: row) ++ skipn 0 (x :: row)) with (x :: x :: row).
      apply subseq_skip, subseq_refl.
    + change (firstn (S (S s)) (x :: row) ++ skipn (S s) (x :: row))
        with (x :: (firstn (S s) row ++ skipn s row)).
      apply subseq_keep, IH.
Qed.

Lemma remove_rows_subseq {A : Type} (seam : list Z) (c : list (list A)) :
  length seam = length c -> Forall2 subseq (remove_rows seam c) c.
Proof.
  revert seam. induction c as [|row c IH]; intros [|s seam] Hl; try discriminate.
  - constructor.
  - unfold remove_rows, zip_with. cbn [combine map fst snd].
    constructor; [apply subseq_remove_at|]. apply IH. simpl in Hl. lia.
Qed.

Lemma dup_rows_subseq {A : Type} (seam : list Z) (c : list (list A)) :
  length seam = length c -> Forall2 subseq c (dup_rows seam c).
Proof.
  revert seam. induction c as [|row c IH]; intros [|s seam] Hl; try discriminate.
  - constructor.
  - unfold dup_rows, zip_with. cbn [combine map fst snd].
    constructor; [apply subseq_dup_at|]. apply IH. simpl in Hl. lia.
Qed.

Lemma Forall2_subseq_trans {A : Type} (a b c : list (list A)) :
  Forall2 subseq a b -> Forall2 subseq b c -> Forall2 subseq a c.
Proof.
  intros Hab. revert c. induction Hab as [|x y a b Hxy Hab IH]; intros c Hbc.
  - inversion Hbc. constructor.
  - inversion Hbc; subst. constructor; [eapply subseq_trans; eauto|]. now apply IH.
Qed.

Lemma Forall2_subseq_refl {A : Type} (a : list (list A)) : Forall2 subseq a a.
Proof. induction a; constructor; auto using subseq_refl. Qed.

Lemma for_each_app {S X : Type} (xs ys : list X) (body : X -> S -> result S) :
  forall s, for_each (xs ++ ys) body s
            = (s' <- for_each xs body s ;; for_each ys body s').
Proof.
  induction xs as [|x xs IH]; intros s; [reflexivity|].
  cbn [app for_each]. destruct (body x s) as [s1|e]; cbn [bind]; [apply IH|reflexivity].
Qed.

Lemma seam_ok_simple (efunc : efunc_t) (H C : nat) :
  energy_ok efunc H C -> 1 <= H ->
  seam_ok efunc (fun im e => compute_cost im e 1) H C.
Proof.
  intros He HH dt c W Hwc HW.
  exact (optimal_seam_ok efunc H W C dt c He Hwc HH HW).
Qed.

Lemma seam_ok_forward (rgb2gray : ndarray -> result (list (list Q)))
  (efunc : efunc_t) (H C : nat) :
  energy_ok efunc H C -> gray_ok rgb2gray H C -> 1 <= H ->
  seam_ok efunc (compute_forward_cost rgb2gray) H C.
Proof.
  intros He Hg HH dt c W Hwc HW. unfold optimal_seam.
  destruct (He dt c W Hwc HW) as (e & Ee & Hwe). rewrite Ee. cbn [bind].
  destruct (Hg dt c W Hwc) as (gray & Eg & Hwg).
  destruct (compute_forward_cost_cells rgb2gray (mkarr dt (T3 c)) gray e H W
              Eg Hwg Hwe HH ltac:(right; lia))
    as (cost & paths & E & Hwcost & Hwp & _).
  destruct (compute_forward_cost_dirs rgb2gray (mkarr dt (T3 c)) gray e H W
              cost paths Eg Hwg Hwe HH E) as [_ Hdirs].
  rewrite E. cbn [bind].
  assert (Hlast : item cost (Z.of_nat H - 1) = Ok (nth (H - 1) cost [])).
  { replace (Z.of_nat H - 1)%Z with (Z.of_nat (H - 1)) by lia.
    rewrite (item_in_range cost (Z.of_nat (H - 1)) []) by (destruct Hwcost; lia).
    now rewrite Nat2Z.id. }
  rewrite Hlast. cbn [bind].
  assert (Hll : length (nth (H - 1) cost []) = W)
    by (apply (wf2_nth H W); auto; lia).
  destruct (argmin_ok (nth (H - 1) cost [])) as (end_ & Ea & Hend).
  { intros E0. rewrite E0 in Hll. simpl in Hll. lia. }
  rewrite Hll in Hend. rewrite Ea. cbn [bind].
  destruct (backtrack_seam_spec H W paths end_ Hwp HH Hdirs Hend)
    as (seam & Eb & Hl & _ & _ & _ & Hib).
  exists seam. auto.
Qed.

(** The passes of [reduce] on a grid that keeps its three axes. *)
Lemma reduce_loop (efunc : efunc_t) (cfunc : cfunc_t) (dt : dtype) (H W C : nat)
  (c : list (list (list Q))) (n : nat) :
  seam_ok efunc cfunc H C -> wf3 H W C c -> 2 <= H -> 2 <= C -> n + 2 <= W ->
  exists c',
    for_each (seq 0 n)
      (fun (_ : nat) (out : ndarray) =>
         seam <- optimal_seam efunc cfunc backtrack_seam H out ;;
         remove_seam out seam)
      (mkarr dt (T3 c)) = Ok (mkarr dt (T3 c'))
    /\ wf3 H (W - n) C c' /\ Forall2 subseq c' c.
Proof.
  intros Hseam Hwc HH HC Hn.
  destruct (for_each_seq_inv
              (fun (_ : nat) (out : ndarray) =>
                 seam <- optimal_seam efunc cfunc backtrack_seam H out ;;
                 remove_seam out seam)
              (fun (i : nat) (out : ndarray) =>
                 exists ci, out = mkarr dt (T3 ci) /\ wf3 H (W - i) C ci
                            /\ Forall2 subseq ci c)
              n 0 (mkarr dt (T3 c))) as (out & E & (cw & -> & Hww & Hsub)).
  - exists c. rewrite Nat.sub_0_r. auto using Forall2_subseq_refl.
  - intros i out Hi (ci & -> & Hwi & Hsi).
    destruct (Hseam dt ci (W - i) Hwi ltac:(lia)) as (seam & Es & Hl & Hb).
    rewrite Es. cbn [bind].
    destruct (remove_seam_grid dt H (W - i) C ci seam Hwi HH ltac:(lia) HC Hl Hb)
      as [Er Hwr].
    rewrite Er. eexists. split; [reflexivity|].
    exists (remove_rows seam ci). split; [reflexivity|]. split.
    + now replace (W - (1 + i)) with (W - i - 1) by lia.
    + apply Forall2_subseq_trans with (b := ci); [|exact Hsi].
      apply remove_rows_subseq. destruct Hwi as [-> _]. exact Hl.
  - exists cw. auto.
Qed.

Lemma reduce_axis1_ok (efunc : efunc_t) (cfunc : cfunc_t) (dt : dtype)
  (H W C : nat) (c : list (list (list Q))) (size : Z) :
  seam_ok efunc cfunc H C -> wf3 H W C c -> 2 <= H -> 2 <= C ->
  (2 <= size < Z.of_nat W)%Z ->
  exists c',
    reduce (mkarr dt (T3 c)) size 1 efunc cfunc backtrack_seam remove_seam
    = Ok (mkarr dt (T3 c'))
    /\ wf3 H (Z.to_nat size) C c'
    /\ Forall2 subseq c' c.
Proof.
  intros Hseam Hwc HH HC Hsize. unfold reduce.
  change (1 =? 0)%Z with false. cbn iota. cbn [bind].
  unfold shape_at. cbn [tensor_of shape nth_error bind].
  pose proof (wf3_hd Hwc ltac:(lia)) as Hhd.
  assert (HW : length (hd [] c) = W) by apply Hhd.
  assert (HL : length c = H) by apply Hwc.
  rewrite HW, HL.
  destruct (Z.ltb_spec size (Z.of_nat W)); [|lia].
  destruct (Z.ltb_spec 0 size); [|lia].
  cbn [py_assert bind]. unfold range.
  destruct (reduce_loop efunc cfunc dt H W C c (Z.to_nat (Z.of_nat W - size))
              Hseam Hwc HH HC ltac:(lia)) as (c' & E & Hw' & Hsub).
  rewrite E. cbn [bind tensor_of shape nth_error].
  replace (W - Z.to_nat (Z.of_nat W - size)) with (Z.to_nat size) in Hw' by lia.
  pose proof (wf3_hd Hw' ltac:(lia)) as Hhd'.
  assert (HW' : length (hd [] c') = Z.to_nat size) by apply Hhd'.
  rewrite HW'.
  destruct (Z.eqb_spec (Z.of_nat (Z.to_nat size)) size); [|lia].
  cbn [py_assert bind]. exists c'. auto.
Qed.

Lemma reduce_axis0_ok (efunc : efunc_t) (cfunc : cfunc_t) (dt : dtype)
  (H W C : nat) (c : list (list (list Q))) (size : Z) :
  seam_ok efunc cfunc W C -> wf3 H W C c -> 2 <= W -> 2 <= C ->
  (2 <= size < Z.of_nat H)%Z ->
  exists t,
    reduce (mkarr dt (T3 c)) size 0 efunc cfunc backtrack_seam remove_seam
    = Ok (mkarr dt (T3 (transpose t)))
    /\ wf3 (Z.to_nat size) W C (transpose t)
    /\ Forall2 subseq t (transpose c).
Proof.
  intros Hseam Hwc HW HC Hsize. unfold reduce.
  change (0 =? 0)%Z with true. cbn iota.
  unfold transpose102 at 1. cbn [tensor_of dtype_of bind].
  pose proof (transpose_wf3 H W C c Hwc ltac:(lia)) as Hwt.
  unfold shape_at. cbn [tensor_of shape nth_error bind].
  pose proof (wf3_hd Hwt ltac:(lia)) as Hhd.
  assert (HW0 : length (hd [] (transpose c)) = H) by apply Hhd.
  assert (HL : length (transpose c) = W) by apply Hwt.
  rewrite HW0, HL.
  destruct (Z.ltb_spec size (Z.of_nat H)); [|lia].
  destruct (Z.ltb_spec 0 size); [|lia].
  cbn [py_assert bind]. unfold range.
  destruct (reduce_loop efunc cfunc dt W H C (transpose c)
              (Z.to_nat (Z.of_nat H - size)) Hseam Hwt HW HC ltac:(lia))
    as (c' & E & Hw' & Hsub).
  rewrite E. cbn [bind tensor_of shape nth_error].
  replace (H - Z.to_nat (Z.of_nat H - size)) with (Z.to_nat size) in Hw' by lia.
  pose proof (wf3_hd Hw' ltac:(lia)) as Hhd'.
  assert (HW' : length (hd [] c') = Z.to_nat size) by apply Hhd'.
  rewrite HW'.
  destruct (Z.eqb_spec (Z.of_nat (Z.to_nat size)) size); [|lia].
  cbn [py_assert bind]. unfold transpose102. cbn [tensor_of dtype_of].
  exists c'. split; [reflexivity|]. split; [|exact Hsub].
  apply transpose_wf3; [exact Hw'|lia].
Qed.

Lemma cube34_wf : wf3 3 4 3 cube34.
Proof. split; [reflexivity|]. repeat constructor. Defined.

(** X11.  [reduce] along the width: for a target of at least two columns it
    returns a grid of the input's element type and of shape [H x size x C]
    whose rows are the original rows with [W - size] pixels deleted -- no
    pixel is altered or moved past another. *)
Theorem reduce_width (efunc : efunc_t) (dt : dtype) (H W C : nat)
  (c : list (list (list Q))) (size : Z) :
  energy_ok efunc H C -> wf3 H W C c -> 2 <= H -> 2 <= C ->
  (2 <= size < Z.of_nat W)%Z ->
  exists c',
    reduce (mkarr dt (T3 c)) size 1 efunc (fun im e => compute_cost im e 1)
      backtrack_seam remove_seam
    = Ok (mkarr dt (T3 c'))
    /\ wf3 H (Z.to_nat size) C c'
    /\ Forall2 subseq c' c.
Proof.
  intros He Hwc HH HC Hsize.
  exact (reduce_axis1_ok efunc (fun im e => compute_cost im e 1) dt H W C c size
           (seam_ok_simple efunc H C He ltac:(lia)) Hwc HH HC Hsize).
Qed.

Lemma reduce_width_witness :
  exists c',
    reduce (mkarr uint8 (T3 cube24)) 2 1 (energy_function luma)
      (fun im e => compute_cost im e 1) backtrack_seam remove_seam
    = Ok (mkarr uint8 (T3 c'))
    /\ wf3 2 (Z.to_nat 2) 3 c'
    /\ Forall2 subseq c' cube24.
Proof.
  apply (reduce_width (energy_function luma) uint8 2 4 3 cube24 2).
  - apply energy_function_ok; [apply luma_ok | lia].
  - exact cube24_wf.
  - lia.
  - lia.
  - simpl. lia.
Defined.

(** X12.  [reduce] along the height ([axis=0]) works on the transposed grid
    and transposes back: for a target of at least two rows it returns a grid
    of the input's element type and of shape [size x W x C], whose columns
    are the original columns with [H - size] pixels deleted. *)
Theorem reduce_height (efunc : efunc_t) (dt : dtype) (H W C : nat)
  (c : list (list (list Q))) (size : Z) :
  energy_ok efunc W C -> wf3 H W C c -> 2 <= W -> 2 <= C ->
  (2 <= size < Z.of_nat H)%Z ->
  exists t,
    reduce (mkarr dt (T3 c)) size 0 efunc (fun im e => compute_cost im e 1)
      backtrack_seam remove_seam
    = Ok (mkarr dt (T3 (transpose t)))
    /\ wf3 (Z.to_nat size) W C (transpose t)
    /\ Forall2 subseq t (transpose c).
Proof.
  intros He Hwc HW HC Hsize.
  exact (reduce_axis0_ok efunc (fun im e => compute_cost im e 1) dt H W C c size
           (seam_ok_simple efunc W C He ltac:(lia)) Hwc HW HC Hsize).
Qed.

Lemma reduce_height_witness :
  exists t,
    reduce (mkarr float64 (T3 cube34)) 2 0 (energy_function luma)
      (fun im e => compute_cost im e 1) backtrack_seam remove_seam
    = Ok (mkarr float64 (T3 (transpose t)))
    /\ wf3 (Z.to_nat 2) 4 3 (transpose t)
    /\ Forall2 subseq t (transpose cube34).
Proof.
  apply (reduce_height (energy_function luma) float64 3 4 3 cube34 2).
  - apply energy_function_ok; [apply luma_ok | lia].
  - exact cube34_wf.
  - lia.
  - lia.
  - simpl. lia.
Defined.

(** X13.  [reduce] cannot produce a grid of width one: the pass that leaves
    one column makes [remove_seam] squeeze the width axis away, and the
    final shape assertion fails. *)
Theorem reduce_to_one_column_raises (efunc : efunc_t) (dt : dtype) (H W C : nat)
  (c : list (list (list Q))) :
  energy_ok efunc H C -> wf3 H W C c -> 2 <= H -> 2 <= C -> 2 <= W ->
  reduce (mkarr dt (T3 c)) 1 1 efunc (fun im e => compute_cost im e 1)
    backtrack_seam remove_seam
  = Raise (AssertionError "Output doesn't have the right shape").
Proof.
  intros He Hwc HH HC HW. unfold reduce.
  change (1 =? 0)%Z with false. cbn iota. cbn [bind].
  unfold shape_at. cbn [tensor_of shape nth_error bind].
  pose proof (wf3_hd Hwc ltac:(lia)) as Hhd.
  assert (HW0 : length (hd [] c) = W) by apply Hhd.
  assert (HL : length c = H) by apply Hwc.
  rewrite HW0, HL.
  destruct (Z.ltb_spec 1 (Z.of_nat W)); [|lia].
  cbn [py_assert bind Z.ltb Z.compare]. unfold range.
  replace (Z.to_nat (Z.of_nat W - 1)) with ((W - 2) + 1) by lia.
  rewrite seq_app, for_each_app.
  destruct (reduce_loop efunc (fun im e => compute_cost im e 1) dt H W C c (W - 2)
              (seam_ok_simple efunc H C He ltac:(lia)) Hwc HH HC ltac:(lia))
    as (c' & E & Hw' & _).
  rewrite E. cbn [bind seq for_each].
  replace (W - (W - 2)) with 2 in Hw' by lia.
  destruct (optimal_seam_ok efunc H 2 C dt c' He Hw' ltac:(lia) ltac:(lia))
    as (seam & Es & Hl & Hb).
  rewrite Es. cbn [bind].
  rewrite (@remove_seam_core (mkarr dt (T3 c')) H 2 C c' seam eq_refl Hw'
             ltac:(lia) Hl Hb).
  cbn [bind dtype_of tensor_of]. unfold squeeze3.
  destruct (Nat.eqb_spec H 1); [lia|].
  destruct (Nat.eqb_spec C 1); [lia|].
  change (2 - 1 =? 1) with true. cbn iota. cbn [shape nth_error].
  pose proof (@remove_rows_wf _ H 2 C seam c' Hw' Hl Hb) as Hwr.
  assert (Hlen : length (hd [] (map (hd []) (remove_rows seam c'))) = C).
  { destruct Hwr as [Hlr HFr].
    destruct (remove_rows seam c') as [|r rs]; [simpl in Hlr; lia|].
    cbn [map hd]. inversion HFr as [|? ? Hr _]; subst.
    apply (wf2_hd Hr). lia. }
  rewrite Hlen. cbn [bind].
  destruct (Z.eqb_spec (Z.of_nat C) 1%Z); [lia|]. reflexivity.
Qed.

Lemma reduce_to_one_column_raises_witness :
  reduce (mkarr uint8 (T3 cube24)) 1 1 (energy_function luma)
    (fun im e => compute_cost im e 1) backtrack_seam remove_seam
  = Raise (AssertionError "Output doesn't have the right shape").
Proof.
  apply (reduce_to_one_column_raises (energy_function luma) uint8 2 4 3 cube24).
  - apply energy_function_ok; [apply luma_ok | lia].
  - exact cube24_wf.
  - lia.
  - lia.
  - lia.
Defined.

(** X14.  Reducing the width and then the height, as the resize button of
    the interface does, returns a grid of shape [hght x wdth x 3] and of the
    input's element type when both targets are at least two and strictly
    below the current sizes. *)
Theorem reduce_width_then_height (rgb2gray : ndarray -> result (list (list Q)))
  (dt : dtype) (H W : nat) (c : list (list (list Q))) (wdth hght : Z) :
  (forall h, gray_ok rgb2gray h 3) -> wf3 H W 3 c ->
  (2 <= wdth < Z.of_nat W)%Z -> (2 <= hght < Z.of_nat H)%Z ->
  exists c',
    (reduce_width <- reduce (mkarr dt (T3 c)) wdth 1 (energy_function rgb2gray)
                       (fun im e => compute_cost im e 1) backtrack_seam remove_seam ;;
     reduce reduce_width hght 0 (energy_function rgb2gray)
       (fun im e => compute_cost im e 1) backtrack_seam remove_seam)
    = Ok (mkarr dt (T3 c'))
    /\ wf3 (Z.to_nat hght) (Z.to_nat wdth) 3 c'.
Proof.
  intros Hg Hwc Hw Hh.
  destruct (reduce_axis1_ok (energy_function rgb2gray)
              (fun im e => compute_cost im e 1) dt H W 3 c wdth
              (seam_ok_simple _ H 3
                 (energy_function_ok rgb2gray H 3 (Hg H) ltac:(lia)) ltac:(lia))
              Hwc ltac:(lia) ltac:(lia) Hw) as (c1 & E1 & Hw1 & _).
  rewrite E1. cbn [bind].
  destruct (reduce_axis0_ok (energy_function rgb2gray)
              (fun im e => compute_cost im e 1) dt H (Z.to_nat wdth) 3 c1 hght
              (seam_ok_simple _ (Z.to_nat wdth) 3
                 (energy_function_ok rgb2gray (Z.to_nat wdth) 3 (Hg _) ltac:(lia))
                 ltac:(lia))
              Hw1 ltac:(lia) ltac:(lia) Hh) as (t & E2 & Hw2 & _).
  rewrite E2. eexists. split; [reflexivity | exact Hw2].
Qed.

Lemma reduce_width_then_height_witness :
  exists c',
    (reduce_width <- reduce (mkarr float64 (T3 cube34)) 3 1 (energy_function luma)
                       (fun im e => compute_cost im e 1) backtrack_seam remove_seam ;;
     reduce reduce_width 2 0 (energy_function luma)
       (fun im e => compute_cost im e 1) backtrack_seam remove_seam)
    = Ok (mkarr float64 (T3 c'))
    /\ wf3 (Z.to_nat 2) (Z.to_nat 3) 3 c'.
Proof.
  apply (reduce_width_then_height luma float64 3 4 cube34 3 2).
  - exact luma_ok.
  - exact cube34_wf.
  - simpl. lia.
  - simpl. lia.
Defined.

(** X15.  [reduce] with the forward accumulator injected as [cfunc]: the
    passes run as with the default accumulator, and the result is again a
    grid of shape [H x size x C] of the input's element type whose rows are
    the original rows with [W - size] pixels deleted. *)
Theorem reduce_width_forward (rgb2gray : ndarray -> result (list (list Q)))
  (efunc : efunc_t) (dt : dtype) (H W C : nat) (c : list (list (list Q)))
  (size : Z) :
  energy_ok efunc H C -> gray_ok rgb2gray H C -> wf3 H W C c ->
  2 <= H -> 2 <= C -> (2 <= size < Z.of_nat W)%Z ->
  exists c',
    reduce (mkarr dt (T3 c)) size 1 efunc (compute_forward_cost rgb2gray)
      backtrack_seam remove_seam
    = Ok (mkarr dt (T3 c'))
    /\ wf3 H (Z.to_nat size) C c'
    /\ Forall2 subseq c' c.
Proof.
  intros He Hg Hwc HH HC Hsize.
  exact (reduce_axis1_ok efunc (compute_forward_cost rgb2gray) dt H W C c size
           (seam_ok_forward rgb2gray efunc H C He Hg ltac:(lia)) Hwc HH HC Hsize).
Qed.

Lemma reduce_width_forward_witness :
  exists c',
    reduce (mkarr uint8 (T3 cube24)) 2 1 (energy_function luma)
      (compute_forward_cost luma) backtrack_seam remove_seam
    = Ok (mkarr uint8 (T3 c'))
    /\ wf3 2 (Z.to_nat 2) 3 c'
    /\ Forall2 subseq c' cube24.
Proof.
  apply (reduce_width_forward luma (energy_function luma) uint8 2 4 3 cube24 2).
  - apply energy_function_ok; [apply luma_ok | lia].
  - apply luma_ok.
  - exact cube24_wf.
  - lia.
  - lia.
  - simpl. lia.
Defined.

(** ** Resize Orchestrator: [enlarge] *)

(** X16.  [enlarge] along the width, for a target strictly between the
    width and twice the width: the result is a float64 grid of shape
    [H x size x C], and every original row is still there in order --
    pixels are only inserted, never altered or dropped. *)
Theorem enlarge_width (efunc : efunc_t) (dt : dtype) (H W C : nat)
  (c : list (list (list Q))) (size : Z) :
  energy_ok efunc H C -> wf3 H W C c -> 2 <= H -> 2 <= C ->
  (Z.of_nat W < size < 2 * Z.of_nat W)%Z ->
  exists c',
    enlarge (mkarr dt (T3 c)) size 1 efunc (fun im e => compute_cost im e 1)
      duplicate_seam backtrack_seam remove_seam
    = Ok (mkarr float64 (T3 c'))
    /\ wf3 H (Z.to_nat size) C c'
    /\ Forall2 subseq c c'.
Proof.
  intros He Hwc HH HC Hsize. unfold enlarge.
  change (1 =? 0)%Z with false. cbv iota. cbn [bind unpack3 tensor_of].
  pose proof (wf3_hd Hwc ltac:(lia)) as Hhd.
  assert (HW : length (hd [] c) = W) by apply Hhd. rewrite HW.
  destruct (Z.ltb_spec (Z.of_nat W) size); [|lia].
  destruct (Z.leb_spec size (2 * Z.of_nat W)); [|lia].
  cbn [py_assert bind].
  destruct (find_seams_ok efunc dt H W C c (size - Z.of_nat W) He Hwc HH HC
              ltac:(lia)) as (seams & Ef & Hws & _ & Hcount).
  rewrite Ef. cbn [bind].
  set (k := Z.to_nat (size - Z.of_nat W)).
  destruct (for_each_seq_inv
              (fun (i : nat) (st : ndarray * ndarray) =>
                 let (out, seams_matrix) := st in
                 col <- where_col seams_matrix (Z.of_nat i + 1) ;;
                 out <- duplicate_seam out col ;;
                 sm3 <- newaxis2 seams_matrix ;;
                 seams_matrix <- duplicate_seam sm3 col ;;
                 seams_matrix <- channel0 seams_matrix ;;
                 Ok (out, seams_matrix))
              (fun i st =>
                 duplicating H W C k i st
                 /\ exists dt1 c1, fst st = mkarr dt1 (T3 c1) /\ Forall2 subseq c c1)
              k 0
              (mkarr dt (T3 c), mkarr int64 (T2 (map (map inject_Z) seams))))
    as (st & E & Hst & Hsub).
  - split.
    + cbn [duplicating]. exists dt, c, int64, seams. rewrite Nat.add_0_r.
      repeat split; auto; try apply Hwc; try apply Hws; try lia.
      intros l Hl. apply Hcount. lia.
    + exists dt, c. split; [reflexivity | apply Forall2_subseq_refl].
  - intros i st Hi [Hd (dt1 & c1 & Est & Hs1)].
    destruct (enlarge_step H W C k ltac:(lia) i st ltac:(lia) Hd) as (st' & E' & Hd').
    exists st'. split; [exact E'|]. split; [exact Hd'|].
    destruct st as [out sm]. cbn [fst] in Est. subst out.
    destruct Hd as (dt1' & c1' & dt2 & rows & Eo & Hw1 & _ & -> & Hwr & Hc).
    injection Eo as <- <-.
    pose proof (Hc (Z.of_nat i + 1)%Z ltac:(lia)) as Hone.
    cbv zeta in E'. rewrite (where_col_ok dt2 _ rows Hone) in E'. cbn [bind] in E'.
    set (col := positions (Z.of_nat i + 1) rows) in *.
    assert (Hcl : length col = H)
      by (unfold col, positions; rewrite length_map; apply Hwr).
    assert (Hcb : in_bounds (W + i) col)
      by (apply positions_bounds; [apply Hwr | exact Hone]).
    rewrite (duplicate_seam_spec dt1 Hw1 ltac:(lia) Hcl Hcb) in E'. cbn [bind] in E'.
    apply bind_inv in E'. destruct E' as (sm3 & _ & E').
    apply bind_inv in E'. destruct E' as (sm4 & _ & E').
    apply bind_inv in E'. destruct E' as (sm5 & _ & E').
    injection E' as <-. cbn [fst].
    exists float64, (dup_rows col c1). split; [reflexivity|].
    apply Forall2_subseq_trans with (b := c1); [exact Hs1|].
    apply dup_rows_subseq. destruct Hw1 as [-> _]. exact Hcl.
  - unfold range. fold k. rewrite E. cbn [bind].
    destruct st as [out sm].
    destruct Hst as (dt1 & c1 & dt2 & rows & -> & Hw1 & Hdt & _).
    destruct Hsub as (dt1' & c1' & Eo & Hs1). cbn [fst] in Eo.
    injection Eo as <- <-.
    rewrite (Hdt ltac:(lia)).
    exists c1. split; [reflexivity|]. split; [|exact Hs1].
    now replace (Z.to_nat size) with (W + (0 + k)) by lia.
Qed.

Lemma enlarge_width_witness :
  exists c',
    enlarge (mkarr uint8 (T3 cube24)) 6 1 (energy_function luma)
      (fun im e => compute_cost im e 1) duplicate_seam backtrack_seam remove_seam
    = Ok (mkarr float64 (T3 c'))
    /\ wf3 2 (Z.to_nat 6) 3 c'
    /\ Forall2 subseq cube24 c'.
Proof.
  apply (enlarge_width (energy_function luma) uint8 2 4 3 cube24 6).
  - apply energy_function_ok; [apply luma_ok | lia].
  - exact cube24_wf.
  - lia.
  - lia.
  - simpl. lia.
Defined.

Lemma enlarge_outside (dt : dtype) (c : list (list (list Q))) (W : nat) (size : Z)
  (efunc : efunc_t) (cfunc : cfunc_t) (dfunc : rfunc_t) (bfunc : bfunc_t)
  (rfunc : rfunc_t) :
  length (hd [] c) = W ->
  ~ (Z.of_nat W < size < 2 * Z.of_nat W)%Z ->
  exists e, enlarge (mkarr dt (T3 c)) size 1 efunc cfunc dfunc bfunc rfunc = Raise e.
Proof.
  intros HW Hout. unfold enlarge, find_seams, unpack3.
  change (1 =? 0)%Z with false. cbv iota. cbn [bind tensor_of]. rewrite HW.
  destruct (Z.ltb_spec (Z.of_nat W) size); [|eexists; reflexivity].
  destruct (Z.leb_spec size (2 * Z.of_nat W)); [|eexists; reflexivity].
  cbn [py_assert bind].
  destruct (Z.ltb_spec (size - Z.of_nat W) (Z.of_nat W)); [lia|].
  eexists; reflexivity.
Qed.

(** X17.  The targets that [enlarge] accepts along the width are exactly
    those strictly between the width and twice the width: a target up to
    the width and a target beyond twice the width fail the guards of
    [enlarge], and the target [2 W], which the second guard lets through,
    fails the guard of [find_seams]. *)
Theorem enlarge_accepts_exactly (efunc : efunc_t) (dt : dtype) (H W C : nat)
  (c : list (list (list Q))) (size : Z) :
  energy_ok efunc H C -> wf3 H W C c -> 2 <= H -> 2 <= C ->
  ((exists out,
       enlarge (mkarr dt (T3 c)) size 1 efunc (fun im e => compute_cost im e 1)
         duplicate_seam backtrack_seam remove_seam = Ok out)
   <-> (Z.of_nat W < size < 2 * Z.of_nat W)%Z).
Proof.
  intros He Hwc HH HC. split.
  - intros [out E].
    destruct (Z_lt_dec (Z.of_nat W) size) as [H1|H1];
      [destruct (Z_lt_dec size (2 * Z.of_nat W)) as [H2|H2]; [lia|]|].
    + destruct (enlarge_outside dt c W size efunc (fun im e => compute_cost im e 1)
                  duplicate_seam backtrack_seam remove_seam) as [e Ee].
      * apply (wf3_hd Hwc ltac:(lia)).
      * lia.
      * congruence.
    + destruct (enlarge_outside dt c W size efunc (fun im e => compute_cost im e 1)
                  duplicate_seam backtrack_seam remove_seam) as [e Ee].
      * apply (wf3_hd Hwc ltac:(lia)).
      * lia.
      * congruence.
  - intros Hsize.
    destruct (enlarge_ok efunc dt H W C c size He Hwc HH HC Hsize) as (c' & E & _).
    eexists. exact E.
Qed.

Lemma enlarge_accepts_exactly_witness :
  (exists out,
      enlarge (mkarr uint8 (T3 cube24)) 8 1 (energy_function luma)
        (fun im e => compute_cost im e 1) duplicate_seam backtrack_seam
        remove_seam = Ok out)
  <-> (Z.of_nat 4 < 8 < 2 * Z.of_nat 4)%Z.
Proof.
  apply (enlarge_accepts_exactly (energy_function luma) uint8 2 4 3 cube24 8).
  - apply energy_function_ok; [apply luma_ok | lia].
  - exact cube24_wf.
  - lia.
  - lia.
Defined.

Lemma enlarge_axis0 (image : ndarray) (size : Z) (efunc : efunc_t)
  (cfunc : cfunc_t) (dfunc : rfunc_t) (bfunc : bfunc_t) (rfunc : rfunc_t) :
  enlarge image size 0 efunc cfunc dfunc bfunc rfunc
  = (t <- transpose102 image ;;
     wide <- enlarge t size 1 efunc cfunc dfunc bfunc rfunc ;;
     transpose102 wide).
Proof.
  unfold enlarge. change (0 =? 0)%Z with true. change (1 =? 0)%Z with false.
  cbv iota. destruct (transpose102 image) as [t|e]; [|reflexivity].
  cbn [bind]. destruct (unpack3 t) as [c|e]; [|reflexivity].
  cbn [bind]. destruct (py_assert _ _) as [[]|e]; [|reflexivity].
  cbn [bind]. destruct (py_assert _ _) as [[]|e]; [|reflexivity].
  cbn [bind]. destruct (find_seams _ _ _ _ _ _ _) as [sm|e]; [|reflexivity].
  cbn [bind]. destruct (for_each _ _ _) as [[out sm']|e]; reflexivity.
Qed.

(** X18.  [enlarge] along the height ([axis=0]) is [enlarge] along the
    width of the transposed grid, transposed back: for a target strictly
    between the height and twice the height it returns a float64 grid of
    shape [size x W x C]. *)
Theorem enlarge_height (efunc : efunc_t) (dt : dtype) (H W C : nat)
  (c : list (list (list Q))) (size : Z) :
  energy_ok efunc W C -> wf3 H W C c -> 2 <= W -> 2 <= C ->
  (Z.of_nat H < size < 2 * Z.of_nat H)%Z ->
  exists c',
    enlarge (mkarr dt (T3 c)) size 0 efunc (fun im e => compute_cost im e 1)
      duplicate_seam backtrack_seam remove_seam
    = Ok (mkarr float64 (T3 c'))
    /\ wf3 (Z.to_nat size) W C c'.
Proof.
  intros He Hwc HW HC Hsize. rewrite enlarge_axis0.
  unfold transpose102 at 1. cbn [tensor_of dtype_of bind].
  pose proof (transpose_wf3 H W C c Hwc ltac:(lia)) as Hwt.
  destruct (enlarge_ok efunc dt W H C (transpose c) size He Hwt HW HC Hsize)
    as (c' & E & Hw').
  rewrite E. cbn [bind]. unfold transpose102. cbn [tensor_of dtype_of].
  eexists. split; [reflexivity|]. apply transpose_wf3; [exact Hw'|lia].
Qed.

Lemma enlarge_height_witness :
  exists c',
    enlarge (mkarr uint8 (T3 cube24)) 3 0 (energy_function luma)
      (fun im e => compute_cost im e 1) duplicate_seam backtrack_seam remove_seam
    = Ok (mkarr float64 (T3 c'))
    /\ wf3 (Z.to_nat 3) 4 3 c'.
Proof.
  apply (enlarge_height (energy_function luma) uint8 2 4 3 cube24 3).
  - apply energy_function_ok; [apply luma_ok | lia].
  - exact cube24_wf.
  - lia.
  - lia.
  - simpl. lia.
Defined.

(** ** Cost Accumulator, forward variant: a single column *)

(** X19.  On an image of a single column and at least two rows
    [compute_forward_cost] raises [IndexError] (the column to the right of
    column 0 does not exist), while [compute_cost] returns its two grids on
    the same energy. *)
Theorem forward_cost_needs_two_columns
  (rgb2gray : ndarray -> result (list (list Q))) (image : ndarray)
  (gray energy : list (list Q)) (H : nat) :
  rgb2gray image = Ok gray -> wf2 H 1 gray -> wf2 H 1 energy -> 2 <= H ->
  compute_forward_cost rgb2gray image energy = Raise IndexError
  /\ exists cost paths,
       compute_cost image energy 1 = Ok (cost, paths)
       /\ wf2 H 1 cost /\ wf2 H 1 paths.
Proof.
  intros Eg Hwg Hwe HH. split.
  - exact (compute_forward_cost_one_column rgb2gray image gray energy H
             Eg Hwg Hwe HH).
  - destruct (compute_cost_cells image H 1 energy Hwe ltac:(lia))
      as (cost & paths & E & Hwc & Hwp & _).
    exists cost, paths. auto.
Qed.

Lemma forward_cost_needs_two_columns_witness :
  compute_forward_cost luma image21 [[1]; [1]]%Q = Raise IndexError
  /\ exists cost paths,
       compute_cost image21 [[1]; [1]]%Q 1 = Ok (cost, paths)
       /\ wf2 2 1 cost /\ wf2 2 1 paths.
Proof.
  apply (forward_cost_needs_two_columns luma image21 gray21 [[1]; [1]]%Q 2).
  - vm_compute. reflexivity.
  - apply wf2b_ok. vm_compute. reflexivity.
  - split; [reflexivity | repeat constructor].
  - lia.
Defined.

(** ** Object removal: the images that are accepted *)

Lemma for_each_raises {S X : Type} (body : X -> S -> result S) (x : X)
  (xs : list X) (s : S) (e : exn) :
  body x s = Raise e -> for_each (x :: xs) body s = Raise e.
Proof. intros E. cbn [for_each]. rewrite E. reflexivity. Qed.

Section ObjectPasses.

Variable rgb2gray : ndarray -> result (list (list Q)).
Variables (dt : dtype) (H W : nat) (mask : list (list bool)).
Hypothesis Hg : gray_ok rgb2gray H 3.
Hypothesis HH : 2 <= H.
Hypothesis Hwm : wf2 H W mask.

Let body := fun (_ : nat) (out : ndarray) =>
  energy <- energy_function rgb2gray out ;;
  energy <- mask_energy mask energy ;;
  cp <- compute_cost out energy 1 ;;
  let (cost, paths) := cp in
  last <- item cost (Z.of_nat H - 1) ;;
  end_ <- argmin last ;;
  seam <- backtrack_seam paths end_ ;;
  remove_seam out seam.

(** One pass finds a seam, whatever the mask. *)
Lemma object_pass (i w : nat) (ci : list (list (list Q))) :
  wf3 H w 3 ci -> 2 <= w <= W ->
  exists seam,
    body i (mkarr dt (T3 ci)) = remove_seam (mkarr dt (T3 ci)) seam
    /\ length seam = H /\ in_bounds w seam.
Proof.
  intros Hwi Hw. unfold body.
  destruct (energy_function_ok rgb2gray H 3 Hg HH dt ci w Hwi ltac:(lia))
    as (e & Ee & Hwe).
  rewrite Ee. cbn [bind].
  destruct (mask_energy_ok H W w mask e Hwm Hwe ltac:(lia))
    as (e' & Em & Hwe').
  rewrite Em. cbn [bind].
  destruct (seam_of_energy_ok (mkarr dt (T3 ci)) H w e' Hwe' ltac:(lia) ltac:(lia))
    as (cost & paths & last & end_ & seam & E1 & E2 & E3 & E4 & Hl & Hb).
  rewrite E1. cbn [bind]. rewrite E2. cbn [bind]. rewrite E3. cbn [bind].
  rewrite E4. cbn [bind]. exists seam. auto.
Qed.

(** Passes that leave at least two columns. *)
Lemma object_passes (n a w : nat) (c : list (list (list Q))) :
  wf3 H w 3 c -> w <= W -> n + 2 <= w ->
  exists c',
    for_each (seq a n) body (mkarr dt (T3 c)) = Ok (mkarr dt (T3 c'))
    /\ wf3 H (w - n) 3 c'.
Proof.
  intros Hwc Hw Hn.
  destruct (for_each_seq_inv body
              (fun (i : nat) (out : ndarray) =>
                 exists ci, out = mkarr dt (T3 ci) /\ wf3 H (w - (i - a)) 3 ci)
              n a (mkarr dt (T3 c))) as (out & E & (cw & -> & Hww)).
  - exists c. rewrite Nat.sub_diag, Nat.sub_0_r. auto.
  - intros i out Hi (ci & -> & Hwi).
    destruct (object_pass i (w - (i - a)) ci Hwi ltac:(lia)) as (seam & Eb & Hl & Hb).
    rewrite Eb.
    destruct (remove_seam_grid dt H (w - (i - a)) 3 ci seam Hwi HH ltac:(lia)
                ltac:(lia) Hl Hb) as [Er Hwr].
    rewrite Er. eexists. split; [reflexivity|].
    exists (remove_rows seam ci). split; [reflexivity|].
    now replace (w - (1 + i - a)) with (w - (i - a) - 1) by lia.
  - exists cw. split; [exact E|].
    now replace (w - n) with (w - (a + n - a)) by lia.
Qed.

(** Passes that go on to width one: the gradient or the lost width axis
    stops them, or they end on a two-dimensional grid. *)
Lemma object_passes_narrow (n : nat) (c : list (list (list Q))) :
  wf3 H W 3 c -> 1 <= W -> W <= n + 1 -> 1 <= n ->
  (exists e, for_each (seq 0 n) body (mkarr dt (T3 c)) = Raise e)
  \/ (exists m, for_each (seq 0 n) body (mkarr dt (T3 c)) = Ok (mkarr dt (T2 m))).
Proof.
  intros Hwc HW Hn Hn1.
  destruct (Nat.eq_dec W 1) as [HW1|HW1].
  - left. exists ValueError.
    destruct n as [|n]; [lia|]. cbn [seq]. apply for_each_raises.
    unfold body.
    destruct (Hg dt c W Hwc) as (gray & Eg & Hwg).
    rewrite (energy_function_thin rgb2gray (mkarr dt (T3 c)) gray H W Eg Hwg
               ltac:(lia) ltac:(lia) (or_intror HW1)).
    reflexivity.
  - replace n with ((W - 2) + S (n - (W - 1))) by lia.
    rewrite seq_app, for_each_app.
    destruct (object_passes (W - 2) 0 W c Hwc ltac:(lia) ltac:(lia))
      as (c2 & E2 & Hw2).
    rewrite E2. cbn [bind seq]. rewrite for_each_cons.
    replace (W - (W - 2)) with 2 in Hw2 by lia.
    destruct (object_pass (0 + (W - 2)) 2 c2 Hw2 ltac:(lia)) as (seam & Eb & Hl & Hb).
    rewrite Eb.
    rewrite (@remove_seam_core (mkarr dt (T3 c2)) H 2 3 c2 seam eq_refl Hw2
               ltac:(lia) Hl Hb).
    cbn [bind dtype_of]. unfold squeeze3.
    destruct (Nat.eqb_spec H 1); [lia|].
    change (2 - 1 =? 1) with true. change (3 =? 1) with false. cbv iota.
    destruct (n - (W - 1)) as [|r].
    + right. eexists. reflexivity.
    + left. exists ValueError. cbn [seq]. apply for_each_raises. reflexivity.
Qed.

End ObjectPasses.

(** X20.  [remove_object] returns a grid exactly when the image is more
    than twice as wide as the number of passes, [2 * (n + 30) < W] with [n]
    the largest number of masked pixels in a row; what it returns is a
    float64 grid of the shape of the image.  In particular no image of
    width 60 or less is processed, whatever the mask. *)
Theorem remove_object_accepts_exactly
  (rgb2gray : ndarray -> result (list (list Q)))
  (dt : dtype) (H W : nat) (c : list (list (list Q))) (mask : list (list bool)) :
  gray_ok rgb2gray H 3 -> wf3 H W 3 c -> 2 <= H -> 1 <= W -> wf2 H W mask ->
  ((exists out, remove_object rgb2gray (mkarr dt (T3 c)) mask = Ok out)
   <-> 2 * (max_count mask + 30) < W)
  /\ (forall out,
        remove_object rgb2gray (mkarr dt (T3 c)) mask = Ok out ->
        exists c', out = mkarr float64 (T3 c') /\ wf3 H W 3 c').
Proof.
  intros Hg Hwc HH HW Hwm.
  assert (Hiff : (exists out, remove_object rgb2gray (mkarr dt (T3 c)) mask = Ok out)
                 <-> 2 * (max_count mask + 30) < W).
  { split.
    2:{ intros Hs.
        destruct (remove_object_ok rgb2gray dt H W c mask Hg Hwc HH Hwm Hs)
          as (c' & E & _).
        eexists. exact E. }
    intros [out Eout].
    destruct (Nat.lt_ge_cases (2 * (max_count mask + 30)) W) as [|Hsmall];
      [assumption|].
    exfalso. revert Eout. unfold remove_object.
    cbn [tensor_of].
    rewrite (shape_wf3 H W 3 c Hwc ltac:(lia) ltac:(lia)).
    cbn [firstn].
    assert (Hms : [length mask; length (hd [] mask)] = [H; W]).
    { f_equal; [apply Hwm|]. f_equal. apply (wf2_hd Hwm). lia. }
    rewrite Hms.
    destruct (list_eq_dec Nat.eq_dec [H; W] [H; W]) as [_|Hne]; [|congruence].
    cbn [py_assert bind unpack3 tensor_of].
    pose proof (wf3_hd Hwc ltac:(lia)) as Hhd.
    assert (HW0 : length (hd [] c) = W) by apply Hhd.
    assert (HL : length c = H) by apply Hwc.
    rewrite HW0, HL.
    pose proof (mask_counts H W mask Hwm ltac:(lia)) as Hcounts.
    destruct (mapM _ (seq 0 H)) as [n|e] eqn:En; [|discriminate].
    cbn [bind] in Hcounts. cbn [bind]. rewrite Hcounts. cbn [bind].
    set (passes := max_count mask + 30) in *.
    destruct (le_lt_dec (passes + 2) W) as [Hwide|Hnarrow].
    - destruct (object_passes rgb2gray dt H W mask Hg HH Hwm passes 0 W c Hwc
                  ltac:(lia) Hwide) as (cw & E & Hww).
      rewrite E. cbn [bind].
      destruct (enlarge_outside dt cw (W - passes) (Z.of_nat W)
                  (energy_function rgb2gray) (fun im e => compute_cost im e 1)
                  duplicate_seam backtrack_seam remove_seam) as [e Ee].
      + apply (wf3_hd Hww ltac:(lia)).
      + lia.
      + rewrite Ee. discriminate.
    - destruct (object_passes_narrow rgb2gray dt H W mask Hg HH Hwm passes c Hwc
                  HW ltac:(lia) ltac:(unfold passes; lia)) as [[e E]|[m E]].
      + rewrite E. discriminate.
      + rewrite E. discriminate. }
  split; [exact Hiff|].
  intros out Eout.
  pose proof (proj1 Hiff (ex_intro _ out Eout)) as Hs.
  destruct (remove_object_ok rgb2gray dt H W c mask Hg Hwc HH Hwm Hs)
    as (c' & E & Hw').
  exists c'. split; [congruence | exact Hw'].
Qed.

Lemma remove_object_accepts_exactly_witness :
  ((exists out,
       remove_object luma (mkarr float64 (T3 cube61)) (repeat (repeat false 61) 2)
       = Ok out)
   <-> 2 * (max_count (repeat (repeat false 61) 2) + 30) < 61)
  /\ (forall out,
        remove_object luma (mkarr float64 (T3 cube61)) (repeat (repeat false 61) 2)
        = Ok out ->
        exists c', out = mkarr float64 (T3 c') /\ wf3 2 61 3 c').
Proof.
  apply (remove_object_accepts_exactly luma float64 2 61 cube61
           (repeat (repeat false 61) 2)).
  - apply luma_ok.
  - apply wf3b_ok. vm_compute. reflexivity.
  - lia.
  - lia.
  - apply all_false_mask.
Defined.

(** ** Seam Mutator: a seam shorter than the grid *)

(** The row loop over the first rows of a grid. *)
Lemma for_rows_prefix {A : Type} (body : Z -> list A -> result (list A))
  (f : Z -> list A -> list A) (seam : list Z) (tail : list (list A)) :
  forall (rest done : list (list A)) (sdone srest stail : list Z),
    seam = sdone ++ srest ++ stail ->
    length sdone = length done ->
    Forall2 (fun s row => body s row = Ok (f s row)) srest rest ->
    for_each (seq (length done) (length rest))
      (fun i o =>
         s <- item seam (Z.of_nat i) ;;
         row <- item o (Z.of_nat i) ;;
         row' <- body s row ;;
         Ok (upd i row' o))
      (done ++ rest ++ tail)
    = Ok (done ++ zip_with f srest rest ++ tail).
Proof.
  induction rest as [|row rest IH]; intros done sdone srest stail Hs Hl HF.
  - inversion HF; subst. reflexivity.
  - inversion HF as [|s row0 srest' rest0 Hb HF']; subst.
    cbn [length seq]. rewrite for_each_cons. cbv beta.
    rewrite <- Hl at 1.
    change (item (sdone ++ (s :: srest') ++ stail) (Z.of_nat (length sdone)))
      with (item (sdone ++ s :: (srest' ++ stail)) (Z.of_nat (length sdone))).
    rewrite item_app_mid. cbn [bind].
    change (done ++ (row :: rest) ++ tail) with (done ++ row :: (rest ++ tail)).
    rewrite item_app_mid. cbn [bind]. rewrite Hb. cbn [bind].
    rewrite upd_app_mid.
    replace (S (length done)) with (length (done ++ [f s row]))
      by (rewrite length_app; simpl; lia).
    replace (done ++ f s row :: rest ++ tail) with ((done ++ [f s row]) ++ rest ++ tail)
      by (now rewrite <- app_assoc).
    rewrite (IH (done ++ [f s row]) (sdone ++ [s]) srest' stail).
    + rewrite <- app_assoc. reflexivity.
    + now rewrite <- app_assoc.
    + rewrite !length_app. simpl. lia.
    + assumption.
Qed.

Lemma for_rows_short {A : Type} (body : Z -> list A -> result (list A))
  (f : Z -> list A -> list A) (seam : list Z) (out : list (list A)) :
  length seam < length out ->
  Forall2 (fun s row => body s row = Ok (f s row)) seam (firstn (length seam) out) ->
  for_rows seam body out = Raise IndexError.
Proof.
  intros Hlen HF. unfold for_rows.
  set (n := length seam) in *.
  replace (length out) with (n + S (length out - n - 1)) by lia.
  rewrite seq_app, for_each_app.
  rewrite <- (firstn_skipn n out) at 1.
  assert (Hfl : length (firstn n out) = n) by (rewrite length_firstn; lia).
  pose proof (for_rows_prefix body f seam (skipn n out) (firstn n out) [] [] seam []
                ltac:(now rewrite app_nil_r) eq_refl HF) as E.
  cbn [length app] in E. rewrite Hfl in E. rewrite E. cbn [bind seq].
  rewrite for_each_cons.
  unfold item at 1. fold n.
  assert (Ei : py_index n (Z.of_nat (0 + n)) = Raise IndexError).
  { unfold py_index.
    destruct (Z.leb_spec 0 (Z.of_nat (0 + n)));
      destruct (Z.ltb_spec (Z.of_nat (0 + n)) (Z.of_nat n)); cbn [andb]; try lia.
    destruct (Z.leb_spec (- Z.of_nat n) (Z.of_nat (0 + n)));
      destruct (Z.ltb_spec (Z.of_nat (0 + n)) 0); cbn [andb]; try lia;
      reflexivity. }
  rewrite Ei. reflexivity.
Qed.

(** X21.  A seam with fewer entries than the grid has rows raises
    [IndexError] in [remove_seam] and in [duplicate_seam]: the row loop
    runs over all the rows of the grid and reads past the end of the
    seam. *)
Theorem short_seam_raises (dt : dtype) (H W C : nat)
  (c : list (list (list Q))) (seam : list Z) :
  wf3 H W C c -> length seam < H -> in_bounds W seam ->
  remove_seam (mkarr dt (T3 c)) seam = Raise IndexError
  /\ duplicate_seam (mkarr dt (T3 c)) seam = Raise IndexError.
Proof.
  intros Hwf Hl Hb.
  pose proof (wf3_hd Hwf ltac:(lia)) as Hhd.
  assert (HW : length (hd [] c) = W) by apply Hhd.
  destruct Hwf as [Hlc HF].
  assert (HFn : Forall (wf2 W C) (firstn (length seam) c))
    by (now apply Forall_firstn).
  assert (Hln : length seam = length (firstn (length seam) c))
    by (rewrite length_firstn; lia).
  pose proof (Forall2_zip (xs := seam) (ys := firstn (length seam) c) Hln Hb HFn)
    as HZ.
  split.
  - unfold remove_seam. cbn [tensor_of bind]. rewrite HW.
    rewrite (for_rows_short _ (fun s row => shifted (Z.to_nat s) row));
      [reflexivity | lia |].
    eapply Forall2_impl; [| exact HZ]. cbv beta. intros s row [Hsb [Hrl _]].
    rewrite <- Hrl. rewrite <- (Z2Nat.id s) at 1 2 by lia.
    apply remove_row_assign. lia.
  - unfold duplicate_seam, unpack3. cbn [tensor_of bind]. rewrite HW.
    rewrite (for_rows_short _ (fun s row => dup_at (Z.to_nat s) (firstn W row)));
      [reflexivity | rewrite length_map; lia |].
    rewrite firstn_map. apply Forall2_map_r.
    eapply Forall2_impl; [| exact HZ]. cbv beta. intros s row [Hsb [Hrl _]].
    rewrite <- Hrl. replace (length row) with (length row + 0) at 3 by lia.
    rewrite firstn_app_2. simpl firstn. rewrite app_nil_r.
    rewrite <- (Z2Nat.id s) at 1 2 by lia.
    apply dup_row. lia.
Qed.

Lemma short_seam_raises_witness :
  remove_seam (mkarr uint8 (T3 cube24)) [2]%Z = Raise IndexError
  /\ duplicate_seam (mkarr uint8 (T3 cube24)) [2]%Z = Raise IndexError.
Proof.
  apply (short_seam_raises uint8 2 4 3 cube24 [2]%Z).
  - exact cube24_wf.
  - simpl. lia.
  - repeat constructor; simpl; lia.
Defined.

(** X22.  Enlarging the width and then the height, as the enlarge button of
    the interface does, returns a float64 grid of shape [hght x wdth x 3]
    when each target lies strictly between the current size and twice the
    current size. *)
Theorem enlarge_width_then_height (rgb2gray : ndarray -> result (list (list Q)))
  (dt : dtype) (H W : nat) (c : list (list (list Q))) (wdth hght : Z) :
  (forall h, gray_ok rgb2gray h 3) -> wf3 H W 3 c -> 2 <= H ->
  (Z.of_nat W < wdth < 2 * Z.of_nat W)%Z ->
  (Z.of_nat H < hght < 2 * Z.of_nat H)%Z ->
  exists c',
    (enlarged_width <- enlarge (mkarr dt (T3 c)) wdth 1 (energy_function rgb2gray)
                         (fun im e => compute_cost im e 1) duplicate_seam
                         backtrack_seam remove_seam ;;
     enlarge enlarged_width hght 0 (energy_function rgb2gray)
       (fun im e => compute_cost im e 1) duplicate_seam backtrack_seam remove_seam)
    = Ok (mkarr float64 (T3 c'))
    /\ wf3 (Z.to_nat hght) (Z.to_nat wdth) 3 c'.
Proof.
  intros Hg Hwc HH Hw Hh.
  destruct (enlarge_ok (energy_function rgb2gray) dt H W 3 c wdth
              (energy_function_ok rgb2gray H 3 (Hg H) HH) Hwc HH ltac:(lia) Hw)
    as (c1 & E1 & Hw1).
  rewrite E1. cbn [bind]. rewrite enlarge_axis0.
  unfold transpose102 at 1. cbn [tensor_of dtype_of bind].
  pose proof (transpose_wf3 H (Z.to_nat wdth) 3 c1 Hw1 ltac:(lia)) as Hwt.
  destruct (enlarge_ok (energy_function rgb2gray) float64 (Z.to_nat wdth) H 3
              (transpose c1) hght
              (energy_function_ok rgb2gray (Z.to_nat wdth) 3 (Hg _) ltac:(lia))
              Hwt ltac:(lia) ltac:(lia) Hh) as (c2 & E2 & Hw2).
  rewrite E2. cbn [bind]. unfold transpose102. cbn [tensor_of dtype_of].
  eexists. split; [reflexivity|]. apply transpose_wf3; [exact Hw2|lia].
Qed.

Lemma enlarge_width_then_height_witness :
  exists c',
    (enlarged_width <- enlarge (mkarr uint8 (T3 cube24)) 6 1 (energy_function luma)
                         (fun im e => compute_cost im e 1) duplicate_seam
                         backtrack_seam remove_seam ;;
     enlarge enlarged_width 3 0 (energy_function luma)
       (fun im e => compute_cost im e 1) duplicate_seam backtrack_seam remove_seam)
    = Ok (mkarr float64 (T3 c'))
    /\ wf3 (Z.to_nat 3) (Z.to_nat 6) 3 c'.
Proof.
  apply (enlarge_width_then_height luma uint8 2 4 cube24 6 3).
  - exact luma_ok.
  - exact cube24_wf.
  - lia.
  - simpl. lia.
  - simpl. lia.
Defined.

